(** * A shallow embedding of [pathtrace.cu]

    The per-iteration pipeline of the CUDA path tracer: ray generation,
    intersection (brute force and flattened KD-tree traversal), shading,
    stream compaction and the final gather, together with the properties
    the specification states about them.

    Conventions.
    - [float] is IEEE binary32, modelled by [spec_float] at precision 24 and
      maximal exponent 128; the arithmetic the kernels perform is written
      against the class [Scalar], whose instance [binary32] is the one the
      program runs on.  A second instance over exact rationals is used only
      to state what holds "up to rounding".
    - [int] is a 32-bit two's complement integer carried in [Z]; arithmetic
      that may leave the range is wrapped with [wrap32].
    - device arrays are lists; a read or write outside an array is a
      [Fault], as is running out of fuel in a loop.
    - functions and types that [pathtrace.cu] uses but that live in other
      headers ([intersections.h], [interactions.h], [utilities.h],
      [sceneStructs.h], thrust) are the fields of the classes [SceneTypes]
      and [Externals]; the kernels are parametric in them. *)

From Stdlib Require Import ZArith Bool Lia QArith Qcanon.
From Stdlib Require Import Floats.SpecFloat.
From stdpp Require Import base list.

Local Open Scope Z_scope.

(** ** Scalars *)

Class Scalar (F : Type) := {
  fzero : F;
  fone : F;
  fadd : F -> F -> F;
  fsub : F -> F -> F;
  fmul : F -> F -> F;
  fdiv : F -> F -> F;
  fabs : F -> F;
  fltb : F -> F -> bool;
  feqb : F -> F -> bool;
  (* (float) i *)
  f_of_int : Z -> F;
  (* (int) x, truncation towards zero *)
  f_to_int : F -> Z;
  (* a decimal literal n/d with the suffix f *)
  flit : Z -> Z -> F;
  FLT_MAX : F
}.

Module Binary32.

Definition prec : Z := 24.
Definition emax : Z := 128.

Definition of_Z (z : Z) : spec_float := binary_normalize prec emax z 0 false.

Definition b64_of_Z (z : Z) : spec_float := binary_normalize 53 1024 z 0 false.

(* conversion of a double to float, round to nearest even *)
Definition of_b64 (x : spec_float) : spec_float :=
  match x with
  | S754_finite s m e => binary_round prec emax s m e
  | _ => x
  end.

(* The literal is read as a double and then narrowed, as the compiler
   does for [float x = 0.2;]; for the literals of this file this agrees
   with reading it directly as a float. *)
Definition lit (n d : Z) : spec_float :=
  of_b64 (SFdiv 53 1024 (b64_of_Z n) (b64_of_Z d)).

Definition to_int (x : spec_float) : Z :=
  match x with
  | S754_finite s m e =>
      let a := match e with
               | Zneg p => Z.shiftr (Zpos m) (Zpos p)
               | _ => Z.shiftl (Zpos m) e
               end in
      if s then - a else a
  | _ => 0
  end.

Definition max_float : spec_float := S754_finite false 16777215 104.

Definition one : spec_float := Eval vm_compute in of_Z 1.

End Binary32.

Definition float : Type := spec_float.

#[export] Instance binary32 : Scalar float := {|
  fzero := S754_zero false;
  fone := Binary32.one;
  fadd := SFadd Binary32.prec Binary32.emax;
  fsub := SFsub Binary32.prec Binary32.emax;
  fmul := SFmul Binary32.prec Binary32.emax;
  fdiv := SFdiv Binary32.prec Binary32.emax;
  fabs := SFabs;
  fltb := SFltb;
  feqb := SFeqb;
  f_of_int := Binary32.of_Z;
  f_to_int := Binary32.to_int;
  flit := Binary32.lit;
  FLT_MAX := Binary32.max_float
|}.

Module Exact.

Definition of_frac (n d : Z) : Qc := Q2Qc (Qmake n (Z.to_pos d)).

Definition ltb (a b : Qc) : bool :=
  match (a ?= b)%Qc with Lt => true | _ => false end.

Definition eqb (a b : Qc) : bool :=
  match (a ?= b)%Qc with Eq => true | _ => false end.

Definition abs (a : Qc) : Qc := if ltb a (Q2Qc 0) then (- a)%Qc else a.

Definition to_int (a : Qc) : Z := Z.quot (Qnum a) (Zpos (Qden a)).

End Exact.

(* Arithmetic without rounding; not what the program runs on. *)
Definition exact_rationals : Scalar Qc := {|
  fzero := Q2Qc 0;
  fone := Q2Qc 1;
  fadd := Qcplus;
  fsub := Qcminus;
  fmul := Qcmult;
  fdiv := Qcdiv;
  fabs := Exact.abs;
  fltb := Exact.ltb;
  feqb := Exact.eqb;
  f_of_int := fun z => Exact.of_frac z 1;
  f_to_int := Exact.to_int;
  flit := Exact.of_frac;
  FLT_MAX := Exact.of_frac (16777215 * 2 ^ 104) 1
|}.

(** ** 32-bit integers *)

Definition wrap32 (z : Z) : Z := (z + 2 ^ 31) mod 2 ^ 32 - 2 ^ 31.

Definition to_unsigned (z : Z) : Z := z mod 2 ^ 32.

(** ** Faults and device arrays *)

Inductive Fault := OutOfBounds | OutOfFuel.

Inductive Res (A : Type) :=
  | Ok (a : A)
  | Err (f : Fault).

Arguments Ok {A} a.
Arguments Err {A} f.

Definition bind {A B} (m : Res A) (k : A -> Res B) : Res B :=
  match m with
  | Ok a => k a
  | Err f => Err f
  end.

Notation "'do' x <- m ; k" := (bind m (fun x => k))
  (at level 10, x name, m at level 100, k at level 200).

(* a[i] as an rvalue *)
Definition rd {A} (a : list A) (i : Z) : Res A :=
  if i <? 0 then Err OutOfBounds
  else match a !! Z.to_nat i with
       | Some x => Ok x
       | None => Err OutOfBounds
       end.

(* a[i] = x *)
Definition wr {A} (a : list A) (i : Z) (x : A) : Res (list A) :=
  if (i <? 0) || (Z.of_nat (length a) <=? i) then Err OutOfBounds
  else Ok (<[Z.to_nat i := x]> a).

(* A kernel launch over [n] threads with one-dimensional indices.  The
   threads of the kernels below touch disjoint slots, so running them in
   index order is one of the schedules. *)
Fixpoint launch_from {St} (body : Z -> St -> Res St) (i : Z) (n : nat) (s : St)
  : Res St :=
  match n with
  | O => Ok s
  | S n' => do s' <- body i s; launch_from body (i + 1) n' s'
  end.

Definition launch {St} (n : Z) (body : Z -> St -> Res St) (s : St) : Res St :=
  launch_from body 0 (Z.to_nat n) s.

(** ** Vectors (glm) *)

Section Vectors.
Context {F : Type} `{Scalar F}.

Record vec2 := Vec2 { v2x : F; v2y : F }.
Record vec3 := Vec3 { vx : F; vy : F; vz : F }.
Record vec4 := Vec4 { v4x : F; v4y : F; v4z : F; v4w : F }.
Record mat4 := Mat4 { col0 : vec4; col1 : vec4; col2 : vec4; col3 : vec4 }.

(* glm::vec3(s) *)
Definition splat (s : F) : vec3 := Vec3 s s s.

Definition vadd (a b : vec3) : vec3 :=
  Vec3 (fadd (vx a) (vx b)) (fadd (vy a) (vy b)) (fadd (vz a) (vz b)).

Definition vsub (a b : vec3) : vec3 :=
  Vec3 (fsub (vx a) (vx b)) (fsub (vy a) (vy b)) (fsub (vz a) (vz b)).

(* component-wise product, [a * b] on two vectors *)
Definition vmul (a b : vec3) : vec3 :=
  Vec3 (fmul (vx a) (vx b)) (fmul (vy a) (vy b)) (fmul (vz a) (vz b)).

(* [a * s] *)
Definition vscale (a : vec3) (s : F) : vec3 :=
  Vec3 (fmul (vx a) s) (fmul (vy a) s) (fmul (vz a) s).

(* [s * a] *)
Definition sscale (s : F) (a : vec3) : vec3 :=
  Vec3 (fmul s (vx a)) (fmul s (vy a)) (fmul s (vz a)).

(* [a / s] *)
Definition vdivs (a : vec3) (s : F) : vec3 :=
  Vec3 (fdiv (vx a) s) (fdiv (vy a) s) (fdiv (vz a) s).

(* [a - s] *)
Definition vsubs (a : vec3) (s : F) : vec3 :=
  Vec3 (fsub (vx a) s) (fsub (vy a) s) (fsub (vz a) s).

(* glm::dot *)
Definition dot (a b : vec3) : F :=
  fadd (fadd (fmul (vx a) (vx b)) (fmul (vy a) (vy b))) (fmul (vz a) (vz b)).

(* glm::mat3(c0, c1, c2) * v *)
Definition mat3_mul (c0 c1 c2 v : vec3) : vec3 :=
  Vec3
    (fadd (fadd (fmul (vx c0) (vx v)) (fmul (vx c1) (vy v))) (fmul (vx c2) (vz v)))
    (fadd (fadd (fmul (vy c0) (vx v)) (fmul (vy c1) (vy v))) (fmul (vy c2) (vz v)))
    (fadd (fadd (fmul (vz c0) (vx v)) (fmul (vz c1) (vy v))) (fmul (vz c2) (vz v))).

(* uvs[0], uvs[1] *)
Definition uv0 (u : vec2) : F := v2x u.
Definition uv1 (u : vec2) : F := v2y u.

End Vectors.

Arguments vec2 : clear implicits.
Arguments vec3 : clear implicits.
Arguments vec4 : clear implicits.
Arguments mat4 : clear implicits.

(** ** Scene structures ([sceneStructs.h], as far as this file reads them) *)

Inductive GeomType := SPHERE | CUBE | DIAMOND | MANDELBULB | TRIANGLE.

Definition GeomType_eqb (a b : GeomType) : bool :=
  match a, b with
  | SPHERE, SPHERE | CUBE, CUBE | DIAMOND, DIAMOND
  | MANDELBULB, MANDELBULB | TRIANGLE, TRIANGLE => true
  | _, _ => false
  end.

(* The types whose contents this file never looks into. *)
Class SceneTypes := {
  (* the fields of Geom other than type, materialid and inverseTransform *)
  GeomRest : Type;
  (* the fields of Material that only scatterRay reads *)
  MaterialRest : Type;
  (* the bounding volume stored in a node of the flattened tree *)
  Bounds : Type;
  (* thrust::default_random_engine *)
  Engine : Type
}.

Section Structures.
Context {F : Type} `{Scalar F} `{SceneTypes}.

Record Ray := { origin : vec3 F; direction : vec3 F }.

Record PathSegment := {
  ray : Ray;
  color : vec3 F;
  pixelIndex : Z;
  remainingBounces : Z
}.

Record ShadeableIntersection := {
  t : F;
  surfaceNormal : vec3 F;
  materialId : Z;
  uvs : vec2 F
}.

Record Geom := {
  type : GeomType;
  materialid : Z;
  inverseTransform : mat4 F;
  geomRest : GeomRest
}.

Record Material := {
  matColor : vec3 F;
  emittance : F;
  textureOffset : Z;
  normMapOffset : Z;
  tex_width : Z;
  tex_height : Z;
  n_m_width : Z;
  n_m_height : Z;
  materialRest : MaterialRest
}.

Record LinearKDNode := {
  bounds : Bounds;
  nPrimitives : Z;
  primitivesOffset : Z;
  secondChildOffset : Z
}.

Record Camera := {
  resolution_x : Z;
  resolution_y : Z;
  position : vec3 F;
  view : vec3 F;
  up : vec3 F;
  right : vec3 F;
  pixelLength : vec2 F
}.

(* What this file reads of [hst_scene]. *)
Record Scene := {
  camera : Camera;
  traceDepth : Z;
  (* hst_scene->geoms.size() *)
  geoms_size : Z;
  sortedGeoms : list Geom;
  materials : list Material;
  textureData : list (vec3 F);
  flatKDTree : list LinearKDNode
}.

(* The static device pointers of the file. *)
Record Device := {
  dev_image : list (vec3 F);
  dev_geoms : list Geom;
  dev_materials : list Material;
  dev_paths : list PathSegment;
  dev_intersections : list ShadeableIntersection;
  dev_textures : list (vec3 F);
  dev_kdtree : list LinearKDNode
}.

Definition set_image (d : Device) (v : list (vec3 F)) : Device :=
  {| dev_image := v; dev_geoms := dev_geoms d; dev_materials := dev_materials d;
     dev_paths := dev_paths d; dev_intersections := dev_intersections d;
     dev_textures := dev_textures d; dev_kdtree := dev_kdtree d |}.

Definition set_paths (d : Device) (v : list PathSegment) : Device :=
  {| dev_image := dev_image d; dev_geoms := dev_geoms d;
     dev_materials := dev_materials d;
     dev_paths := v; dev_intersections := dev_intersections d;
     dev_textures := dev_textures d; dev_kdtree := dev_kdtree d |}.

Definition set_intersections (d : Device) (v : list ShadeableIntersection)
  : Device :=
  {| dev_image := dev_image d; dev_geoms := dev_geoms d;
     dev_materials := dev_materials d;
     dev_paths := dev_paths d; dev_intersections := v;
     dev_textures := dev_textures d; dev_kdtree := dev_kdtree d |}.

(* field updates of a path segment and of an intersection record *)
Definition with_color (p : PathSegment) (c : vec3 F) : PathSegment :=
  {| ray := ray p; color := c; pixelIndex := pixelIndex p;
     remainingBounces := remainingBounces p |}.

Definition with_remainingBounces (p : PathSegment) (n : Z) : PathSegment :=
  {| ray := ray p; color := color p; pixelIndex := pixelIndex p;
     remainingBounces := n |}.

Definition with_t (r : ShadeableIntersection) (x : F) : ShadeableIntersection :=
  {| t := x; surfaceNormal := surfaceNormal r; materialId := materialId r;
     uvs := uvs r |}.

Definition with_materialId (r : ShadeableIntersection) (m : Z)
  : ShadeableIntersection :=
  {| t := t r; surfaceNormal := surfaceNormal r; materialId := m;
     uvs := uvs r |}.

Definition with_surfaceNormal (r : ShadeableIntersection) (n : vec3 F)
  : ShadeableIntersection :=
  {| t := t r; surfaceNormal := n; materialId := materialId r; uvs := uvs r |}.

Definition with_uvs (r : ShadeableIntersection) (u : vec2 F)
  : ShadeableIntersection :=
  {| t := t r; surfaceNormal := surfaceNormal r; materialId := materialId r;
     uvs := u |}.

(* cudaMemset(dev_intersections, 0, ...): every field is all-zero bits *)
Definition zero_intersection : ShadeableIntersection :=
  {| t := fzero; surfaceNormal := splat fzero; materialId := 0;
     uvs := Vec2 fzero fzero |}.

End Structures.


Arguments Ray F : clear implicits.
Arguments PathSegment F : clear implicits.
Arguments ShadeableIntersection F : clear implicits.
Arguments Camera F : clear implicits.
Arguments Scene F {_}.
Arguments Geom F {_}.
Arguments Material F {_}.
Arguments LinearKDNode {_}.
Arguments Device F {_}.

(** ** What the other headers and thrust provide *)

Class Externals (F : Type) `{Scalar F} `{SceneTypes} := {
  (* utilities.h *)
  utilhash : Z -> Z;
  InvPi : F;
  multiplyMV : mat4 F -> vec4 F -> vec3 F;
  (* thrust/random.h: the engine built from a seed, and one draw of
     uniform_real_distribution<float>(0, 1) *)
  default_random_engine : Z -> Engine;
  u01 : Engine -> F * Engine;
  (* glm and libm *)
  normalize : vec3 F -> vec3 F;
  sinf : F -> F;
  (* intersections.h; a test returns t and the values it leaves in its
     output parameters tmp_intersect and tmp_normal *)
  boundsIntersectionTest : Bounds -> Ray F -> F;
  boxIntersectionTest : Geom F -> Ray F -> vec3 F -> vec3 F -> F * vec3 F * vec3 F;
  sphereIntersectionTest : Geom F -> Ray F -> vec3 F -> vec3 F -> F * vec3 F * vec3 F;
  triangleIntersectionTest : Geom F -> Ray F -> vec3 F -> vec3 F -> F * vec3 F * vec3 F;
  diamondIntersectionTest : Geom F -> Ray F -> vec3 F -> vec3 F -> F * vec3 F * vec3 F;
  (* also leaves a colour in *resColor *)
  mandelbulbIntersectionTest :
    Geom F -> Ray F -> vec3 F -> vec3 F -> vec3 F -> F * vec3 F * vec3 F * vec3 F;
  getPointOnRay : Ray F -> F -> vec3 F;
  computeSphereUVs : vec3 F -> vec2 F;
  computeCubeUVs : vec3 F -> vec2 F;
  GetTriangleUVs : Geom F -> vec3 F -> vec2 F;
  computeSphereTBN : Geom F -> vec3 F -> vec3 F -> vec3 F * vec3 F;
  (* interactions.h *)
  calculateRandomDirectionInHemisphere : vec3 F -> Engine -> vec3 F;
  scatterRay :
    PathSegment F -> vec3 F -> vec3 F -> Material F -> Engine -> PathSegment F;
  palette : F -> vec3 F -> vec3 F -> vec3 F -> vec3 F -> vec3 F;
  (* thrust::partition on a range: the reordered range and the number of
     elements before the returned iterator *)
  thrust_partition : (PathSegment F -> bool) -> list (PathSegment F) ->
                     list (PathSegment F) * Z;
  (* thrust::sort_by_key on a range of keys and the matching values *)
  thrust_sort_by_key :
    (ShadeableIntersection F -> ShadeableIntersection F -> bool) ->
    list (ShadeableIntersection F) -> list (PathSegment F) ->
    list (ShadeableIntersection F) * list (PathSegment F);
  (* what an uninitialised float local holds *)
  indeterminate : F
}.

(* The contract of thrust::partition: the range is permuted, the elements
   that satisfy the predicate come first, and the iterator returned is the
   end of that first group.  The order inside the groups is not fixed. *)
Definition partition_contract {A}
    (part : (A -> bool) -> list A -> list A * Z) : Prop :=
  forall pred l,
    let '(l', k) := part pred l in
    l' ≡ₚ l /\ 0 <= k <= Z.of_nat (length l) /\
    Forall (fun x => pred x = true) (take (Z.to_nat k) l') /\
    Forall (fun x => pred x = false) (drop (Z.to_nat k) l').

(** ** The compile-time switches of the file *)

Record Config := {
  MATSORT : bool;
  STREAMCOMP : bool;
  ACCELSTRUCT : bool;
  PROCTEXT : bool
}.

(* the values the file defines *)
Definition source_config : Config :=
  {| MATSORT := false; STREAMCOMP := true; ACCELSTRUCT := true; PROCTEXT := true |}.

Definition nodesToVisit_capacity : Z := 64.

(** ** The kernels *)

Section Kernels.
Context {F : Type} `{Externals F}.

Definition launch2d {St} (nx ny : Z) (body : Z -> Z -> St -> Res St) (s : St)
  : Res St :=
  launch ny (fun y s1 => launch nx (fun x s2 => body x y s2) s1) s.

(* int h = utilhash((1 << 31) | (depth << 22) | iter) ^ utilhash(index); *)
Definition makeSeededRandomEngine (iter index depth : Z) : Engine :=
  let h :=
    wrap32 (Z.lxor
              (utilhash (to_unsigned
                 (Z.lor (Z.lor (wrap32 (Z.shiftl 1 31)) (wrap32 (Z.shiftl depth 22)))
                        iter)))
              (utilhash (to_unsigned index))) in
  default_random_engine h.

(** *** Ray generation *)

Definition generateRayFromCamera_thread (cam : Camera F) (iter traceDepth : Z)
    (x y : Z) (pathSegments : list (PathSegment F))
  : Res (list (PathSegment F)) :=
  if (x <? resolution_x cam) && (y <? resolution_y cam) then
    let index := wrap32 (x + wrap32 (y * resolution_x cam)) in
    do _segment <- rd pathSegments index;
    let rng := makeSeededRandomEngine iter index 0 in
    let '(j1, rng1) := u01 rng in
    let '(j2, _) := u01 rng1 in
    let pixel_x := fadd (f_of_int x) j1 in
    let pixel_y := fadd (f_of_int y) j2 in
    let dir :=
      normalize
        (vsub
           (vsub (view cam)
              (vscale (vscale (right cam) (v2x (pixelLength cam)))
                 (fsub pixel_x (fmul (f_of_int (resolution_x cam)) (flit 5 10)))))
           (vscale (vscale (up cam) (v2y (pixelLength cam)))
              (fsub pixel_y (fmul (f_of_int (resolution_y cam)) (flit 5 10))))) in
    wr pathSegments index
      {| ray := {| origin := position cam; direction := dir |};
         color := Vec3 fone fone fone;
         pixelIndex := index;
         remainingBounces := traceDepth |}
  else Ok pathSegments.

(* blocksPerGrid2d times blockSize2d, per dimension *)
Definition threads2d (resolution : Z) : Z := to_unsigned (resolution + 8 - 1) / 8 * 8.

Definition generateRayFromCamera (cam : Camera F) (iter traceDepth : Z)
    (d : Device F) : Res (Device F) :=
  do a <- launch2d (threads2d (resolution_x cam)) (threads2d (resolution_y cam))
            (generateRayFromCamera_thread cam iter traceDepth) (dev_paths d);
  Ok (set_paths d a).

(** *** Intersection *)

(* the locals both intersection kernels keep across primitives *)
Record IsectLocals := {
  l_t : F;
  l_t_min : F;
  l_hit_geom_index : Z;
  l_intersect_point : vec3 F;
  l_normal : vec3 F;
  l_tmp_intersect : vec3 F;
  l_tmp_normal : vec3 F;
  l_resColor : vec3 F
}.

Definition init_locals : IsectLocals :=
  {| l_t := indeterminate;
     l_t_min := FLT_MAX;
     l_hit_geom_index := -1;
     l_intersect_point := splat indeterminate;
     l_normal := splat indeterminate;
     l_tmp_intersect := splat indeterminate;
     l_tmp_normal := splat indeterminate;
     l_resColor := splat fone |}.

Definition set_test (l : IsectLocals) (r : F * vec3 F * vec3 F) : IsectLocals :=
  let '(t', p', n') := r in
  {| l_t := t'; l_t_min := l_t_min l; l_hit_geom_index := l_hit_geom_index l;
     l_intersect_point := l_intersect_point l; l_normal := l_normal l;
     l_tmp_intersect := p'; l_tmp_normal := n'; l_resColor := l_resColor l |}.

Definition set_resColor (l : IsectLocals) (c : vec3 F) : IsectLocals :=
  {| l_t := l_t l; l_t_min := l_t_min l; l_hit_geom_index := l_hit_geom_index l;
     l_intersect_point := l_intersect_point l; l_normal := l_normal l;
     l_tmp_intersect := l_tmp_intersect l; l_tmp_normal := l_tmp_normal l;
     l_resColor := c |}.

(* if (t > 0.0f && t_min > t) { t_min = t; hit_geom_index = i; ... } *)
Definition keep_nearest (l : IsectLocals) (i : Z) : IsectLocals :=
  if fltb fzero (l_t l) && fltb (l_t l) (l_t_min l) then
    {| l_t := l_t l; l_t_min := l_t l; l_hit_geom_index := i;
       l_intersect_point := l_tmp_intersect l; l_normal := l_tmp_normal l;
       l_tmp_intersect := l_tmp_intersect l; l_tmp_normal := l_tmp_normal l;
       l_resColor := l_resColor l |}
  else l.

(* the type dispatch inside a leaf of the tree: box, sphere, triangle *)
Definition testPrimitiveKD (geom : Geom F) (r : Ray F) (l : IsectLocals)
  : IsectLocals :=
  match type geom with
  | CUBE => set_test l (boxIntersectionTest geom r (l_tmp_intersect l) (l_tmp_normal l))
  | SPHERE =>
      set_test l (sphereIntersectionTest geom r (l_tmp_intersect l) (l_tmp_normal l))
  | TRIANGLE =>
      set_test l (triangleIntersectionTest geom r (l_tmp_intersect l) (l_tmp_normal l))
  | _ => l
  end.

(* the type dispatch of the brute-force loop: all five types *)
Definition testPrimitive (geom : Geom F) (r : Ray F) (l : IsectLocals)
  : IsectLocals :=
  match type geom with
  | CUBE => set_test l (boxIntersectionTest geom r (l_tmp_intersect l) (l_tmp_normal l))
  | SPHERE =>
      set_test l (sphereIntersectionTest geom r (l_tmp_intersect l) (l_tmp_normal l))
  | DIAMOND =>
      set_test l (diamondIntersectionTest geom r (l_tmp_intersect l) (l_tmp_normal l))
  | MANDELBULB =>
      let '(t', p', n', c') :=
        mandelbulbIntersectionTest geom r (l_tmp_intersect l) (l_tmp_normal l)
          (l_resColor l) in
      set_resColor (set_test l (t', p', n')) c'
  | TRIANGLE =>
      set_test l (triangleIntersectionTest geom r (l_tmp_intersect l) (l_tmp_normal l))
  end.

(* for (int i = 0; i < n; ++i) over geoms[offset + i] *)
Fixpoint testRange (test : Geom F -> Ray F -> IsectLocals -> IsectLocals)
    (geoms : list (Geom F)) (r : Ray F) (offset i : Z) (n : nat) (l : IsectLocals)
  : Res IsectLocals :=
  match n with
  | O => Ok l
  | S n' =>
      do geom <- rd geoms (wrap32 (offset + i));
      testRange test geoms r offset (i + 1) n'
        (keep_nearest (test geom r l) (wrap32 (offset + i)))
  end.

(* the per-type UV mapping of the hit point *)
Definition hitUVs (geom : Geom F) (pt : vec3 F) : vec2 F :=
  match type geom with
  | SPHERE | DIAMOND | MANDELBULB => computeSphereUVs pt
  | CUBE => computeCubeUVs pt
  | TRIANGLE => GetTriangleUVs geom pt
  end.

(* if (material.normMapOffset > -1) { ... } *)
Definition applyNormalMap (geom : Geom F) (material : Material F) (pt normal : vec3 F)
    (textures : list (vec3 F)) (r : ShadeableIntersection F)
  : Res (ShadeableIntersection F) :=
  if -1 <? normMapOffset material then
    let '(tg, b) := computeSphereTBN geom pt normal in
    let n := normal in
    let pixel_x :=
      f_to_int (fmul (uv0 (uvs r)) (f_of_int (wrap32 (n_m_width material - 1)))) in
    let pixel_y :=
      f_to_int (fmul (fsub fone (uv1 (uvs r)))
                  (f_of_int (wrap32 (n_m_height material - 1)))) in
    let idx :=
      wrap32 (wrap32 (wrap32 (pixel_y * n_m_height material) + pixel_x)
              + normMapOffset material) in
    do texel <- rd textures idx;
    let norm := vsubs (vscale texel (flit 2 1)) fone in
    Ok (with_surfaceNormal r (mat3_mul tg b n norm))
  else Ok r.

(** *** Traversal of the flattened tree *)

Record KDState := {
  toVisitOffset : Z;
  currentNodeIndex : Z;
  nodesToVisit : list Z;
  locals : IsectLocals
}.

Inductive KDStep :=
  | Continue (s : KDState)
  | Break (s : KDState).

(* if (toVisitOffset == 0) { break; }
   currentNodeIndex = nodesToVisit[--toVisitOffset]; *)
Definition kd_pop (s : KDState) (l : IsectLocals) : Res KDStep :=
  if toVisitOffset s =? 0 then
    Ok (Break {| toVisitOffset := toVisitOffset s;
                 currentNodeIndex := currentNodeIndex s;
                 nodesToVisit := nodesToVisit s; locals := l |})
  else
    let off := wrap32 (toVisitOffset s - 1) in
    do next <- rd (nodesToVisit s) off;
    Ok (Continue {| toVisitOffset := off; currentNodeIndex := next;
                    nodesToVisit := nodesToVisit s; locals := l |}).

(* nodesToVisit[toVisitOffset++] = node.secondChildOffset;
   currentNodeIndex = currentNodeIndex + 1; *)
Definition kd_push (s : KDState) (node : LinearKDNode) : Res KDStep :=
  do stack <- wr (nodesToVisit s) (toVisitOffset s) (secondChildOffset node);
  Ok (Continue {| toVisitOffset := wrap32 (toVisitOffset s + 1);
                  currentNodeIndex := wrap32 (currentNodeIndex s + 1);
                  nodesToVisit := stack; locals := locals s |}).

(* one turn of the while (true) loop *)
Definition kd_step (kdtree : list LinearKDNode) (geoms : list (Geom F))
    (r : Ray F) (s : KDState) : Res KDStep :=
  do node <- rd kdtree (currentNodeIndex s);
  let boundsT := boundsIntersectionTest (bounds node) r in
  if negb (feqb boundsT (flit (-1) 1)) then
    if 0 <? nPrimitives node then
      do l <- testRange testPrimitiveKD geoms r (primitivesOffset node) 0
                (Z.to_nat (nPrimitives node)) (locals s);
      kd_pop s l
    else kd_push s node
  else kd_pop s (locals s).

Fixpoint kd_loop (fuel : nat) (kdtree : list LinearKDNode) (geoms : list (Geom F))
    (r : Ray F) (s : KDState) : Res KDState :=
  match fuel with
  | O => Err OutOfFuel
  | S fuel' =>
      do next <- kd_step kdtree geoms r s;
      match next with
      | Continue s' => kd_loop fuel' kdtree geoms r s'
      | Break s' => Ok s'
      end
  end.

(* int toVisitOffset = 0, currentNodeIndex = 0; int nodesToVisit[64];
   the array is uninitialised, a slot is read only after it was written *)
Definition kd_init : KDState :=
  {| toVisitOffset := 0; currentNodeIndex := 0;
     nodesToVisit := replicate (Z.to_nat nodesToVisit_capacity) 0;
     locals := init_locals |}.

Definition computeIntersectionsKD_thread (fuel : nat) (depth num_paths : Z)
    (path_index : Z) (d : Device F) : Res (Device F) :=
  if path_index <? num_paths then
    do pathSegment <- rd (dev_paths d) path_index;
    do s <- kd_loop fuel (dev_kdtree d) (dev_geoms d) (ray pathSegment) kd_init;
    let l := locals s in
    do r <- rd (dev_intersections d) path_index;
    if l_hit_geom_index l =? -1 then
      do a <- wr (dev_intersections d) path_index (with_t r (flit (-1) 1));
      Ok (set_intersections d a)
    else
      do geom <- rd (dev_geoms d) (l_hit_geom_index l);
      let r1 := with_surfaceNormal
                  (with_materialId (with_t r (l_t_min l)) (materialid geom))
                  (l_normal l) in
      do material <- rd (dev_materials d) (materialid geom);
      let pt := multiplyMV (inverseTransform geom)
                  (Vec4 (vx (l_intersect_point l)) (vy (l_intersect_point l))
                     (vz (l_intersect_point l)) fone) in
      let r2 := with_uvs r1 (hitUVs geom pt) in
      do r3 <- applyNormalMap geom material pt (l_normal l) (dev_textures d) r2;
      do a <- wr (dev_intersections d) path_index r3;
      Ok (set_intersections d a)
  else Ok d.

(* threads of a one-dimensional launch over n elements, blocks of 128 *)
Definition threads1d (n : Z) : Z := Z.quot (n + 128 - 1) 128 * 128.

Definition computeIntersectionsKD (fuel : nat) (depth num_paths : Z) (d : Device F)
  : Res (Device F) :=
  launch (threads1d num_paths) (computeIntersectionsKD_thread fuel depth num_paths) d.

(** *** Brute-force intersection *)

(* The thread works on a copy of its path segment; the function returns
   the copy as the thread leaves it, next to the device memory. *)
Definition computeIntersections_thread_local (depth num_paths geoms_size : Z)
    (path_index : Z) (d : Device F) : Res (Device F * option (PathSegment F)) :=
  if path_index <? num_paths then
    do pathSegment <- rd (dev_paths d) path_index;
    do l <- testRange testPrimitive (dev_geoms d) (ray pathSegment) 0 0
              (Z.to_nat geoms_size) init_locals;
    do r <- rd (dev_intersections d) path_index;
    if l_hit_geom_index l =? -1 then
      do a <- wr (dev_intersections d) path_index (with_t r (flit (-1) 1));
      Ok (set_intersections d a, Some pathSegment)
    else
      do geom <- rd (dev_geoms d) (l_hit_geom_index l);
      let r1 := with_surfaceNormal
                  (with_materialId (with_t r (l_t_min l)) (materialid geom))
                  (l_normal l) in
      (* pathSegment.color *= glm::vec3(1.f, 0.f, 1.f); *)
      let pathSegment' :=
        with_color pathSegment (vmul (color pathSegment) (Vec3 fone fzero fone)) in
      let pt := multiplyMV (inverseTransform geom)
                  (Vec4 (vx (l_intersect_point l)) (vy (l_intersect_point l))
                     (vz (l_intersect_point l)) fone) in
      let r2 := with_uvs r1 (hitUVs geom pt) in
      do mat <- rd (dev_materials d) (materialId r2);
      do r3 <- applyNormalMap geom mat pt (l_normal l) (dev_textures d) r2;
      do a <- wr (dev_intersections d) path_index r3;
      Ok (set_intersections d a, Some pathSegment')
  else Ok (d, None).

Definition computeIntersections_thread (depth num_paths geoms_size : Z)
    (path_index : Z) (d : Device F) : Res (Device F) :=
  do r <- computeIntersections_thread_local depth num_paths geoms_size path_index d;
  Ok (fst r).

Definition computeIntersections (depth num_paths geoms_size : Z) (d : Device F)
  : Res (Device F) :=
  launch (threads1d num_paths)
    (computeIntersections_thread depth num_paths geoms_size) d.

(** *** Shading *)

Definition getIntersection (pathSegment : PathSegment F)
    (intersection : ShadeableIntersection F) : vec3 F :=
  vadd (origin (ray pathSegment))
    (vscale (direction (ray pathSegment)) (t intersection)).

(* returns the value of the function and what it stores in *wi and *pdf *)
Definition BxDF_Diffuse (material : Material F) (normal wo : vec3 F) (rng : Engine)
  : vec3 F * vec3 F * F :=
  let wi := calculateRandomDirectionInHemisphere normal rng in
  let cosTheta := fabs (dot normal wi) in
  let pdf := fmul cosTheta InvPi in
  (vscale (vscale (matColor material) InvPi) cosTheta, wi, pdf).

Definition lerp (a b x : F) : F := fadd (fmul (fsub fone x) a) (fmul x b).

Definition lerp3 (a b : vec3 F) (x : F) : vec3 F :=
  vadd (sscale (fsub fone x) a) (sscale x b).

(* float pi = 3.14159; float A = 0.2; float w = 10.0 * pi;
   float t = 30.0*pi / 180.0; the last two are evaluated in double and
   narrowed, which for these operands gives the float results below *)
Definition SineWave (p : vec2 F) : vec2 F :=
  let pi := flit 314159 100000 in
  let A := flit 2 10 in
  let w := fmul (f_of_int 10) pi in
  let ph := fdiv (fmul (f_of_int 30) pi) (f_of_int 180) in
  let y := fmul (sinf (fadd (fmul w (v2x p)) ph)) A in
  Vec2 (v2x p) (fadd (v2y p) y).

(* the colour of a textured surface: the procedural palette under
   PROCTEXT, a texel of dev_textures otherwise *)
Definition surfaceColor (cfg : Config) (intersection : ShadeableIntersection F)
    (material : Material F) (textures : list (vec3 F)) : Res (vec3 F) :=
  if PROCTEXT cfg then
    let f_uv := SineWave (uvs intersection) in
    let a := Vec3 (flit 5 10) (flit 5 10) (flit 5 10) in
    let b := Vec3 (flit 5 10) (flit 5 10) (flit 5 10) in
    let c := Vec3 (flit 2 1) (flit 1 1) (flit 0 1) in
    let d := Vec3 (flit 50 100) (flit 20 100) (flit 25 100) in
    let x := fmul (v2x f_uv) (v2y f_uv) in
    Ok (palette x a b c d)
  else
    let pixel_x :=
      f_to_int (fmul (uv0 (uvs intersection))
                  (f_of_int (wrap32 (tex_width material - 1)))) in
    let pixel_y :=
      f_to_int (fmul (fsub fone (uv1 (uvs intersection)))
                  (f_of_int (wrap32 (tex_height material - 1)))) in
    let idx :=
      wrap32 (wrap32 (wrap32 (pixel_y * tex_width material) + pixel_x)
              + textureOffset material) in
    rd textures idx.

(* the body of [if (intersection.t > 0.0f) { ... }] on pathSegments[index] *)
Definition shadeHit (cfg : Config) (iter index depth : Z)
    (intersection : ShadeableIntersection F) (material : Material F)
    (textures : list (vec3 F)) (p : PathSegment F) : Res (PathSegment F) :=
  let rng := makeSeededRandomEngine iter index depth in
  let materialColor := matColor material in
  if fltb fzero (emittance material) then
    Ok (with_remainingBounces
          (with_color p (vmul (color p) (vscale materialColor (emittance material))))
          0)
  else
    let isectPt := getPointOnRay (ray p) (t intersection) in
    let p1 :=
      if textureOffset material =? -2 then
        with_remainingBounces (with_color p (Vec3 fone fzero fone)) 0
      else p in
    do p2 <-
      (if -1 <? textureOffset material then
         do c <- surfaceColor cfg intersection material textures;
         Ok (with_color p1 (vmul (color p1) c))
       else Ok p1);
    let p3 := scatterRay p2 isectPt (surfaceNormal intersection) material rng in
    Ok (with_remainingBounces p3 (wrap32 (remainingBounces p3 - 1))).

Definition shadeMaterials_thread (cfg : Config) (iter num_paths depth : Z)
    (index : Z) (d : Device F) : Res (Device F) :=
  if num_paths <=? index then Ok d
  else
    do p <- rd (dev_paths d) index;
    if remainingBounces p =? 0 then Ok d
    else
      do intersection <- rd (dev_intersections d) index;
      if fltb fzero (t intersection) then
        do material <- rd (dev_materials d) (materialId intersection);
        do p' <- shadeHit cfg iter index depth intersection material
                   (dev_textures d) p;
        do a <- wr (dev_paths d) index p';
        Ok (set_paths d a)
      else
        do a <- wr (dev_paths d) index
                  (with_remainingBounces (with_color p (splat fzero)) 0);
        Ok (set_paths d a).

Definition shadeMaterials (cfg : Config) (iter num_paths depth : Z) (d : Device F)
  : Res (Device F) :=
  launch (threads1d num_paths) (shadeMaterials_thread cfg iter num_paths depth) d.

(** *** Gather, compaction and sorting predicates *)

(* image[iterationPath.pixelIndex] += iterationPath.color; *)
Definition finalGather_thread (nPaths : Z) (index : Z) (d : Device F)
  : Res (Device F) :=
  if index <? nPaths then
    do iterationPath <- rd (dev_paths d) index;
    do px <- rd (dev_image d) (pixelIndex iterationPath);
    do a <- wr (dev_image d) (pixelIndex iterationPath)
              (vadd px (color iterationPath));
    Ok (set_image d a)
  else Ok d.

Definition finalGather (pixelcount nPaths : Z) (d : Device F) : Res (Device F) :=
  launch (threads1d pixelcount) (finalGather_thread nPaths) d.

Definition rayDeath (pathSegment : PathSegment F) : bool :=
  0 <? remainingBounces pathSegment.

Definition materialCmp (a b : ShadeableIntersection F) : bool :=
  materialId a <? materialId b.

(** *** The host side *)

Definition pixelcount_of (cam : Camera F) : Z :=
  wrap32 (resolution_x cam * resolution_y cam).

(* [uninit] stands for what cudaMalloc leaves in dev_paths *)
Definition pathtraceInit (scene : Scene F) (uninit : PathSegment F) : Device F :=
  let pixelcount := pixelcount_of (camera scene) in
  {| dev_image := replicate (Z.to_nat pixelcount) (splat fzero);
     dev_geoms := sortedGeoms scene;
     dev_materials := materials scene;
     dev_paths := replicate (Z.to_nat pixelcount) uninit;
     dev_intersections := replicate (Z.to_nat pixelcount) zero_intersection;
     dev_textures := textureData scene;
     dev_kdtree := flatKDTree scene |}.

(* cudaMemset(dev_intersections, 0, pixelcount * sizeof(...)) *)
Definition clear_intersections (pixelcount : Z) (d : Device F) : Res (Device F) :=
  if Z.of_nat (length (dev_intersections d)) <? pixelcount then Err OutOfBounds
  else Ok (set_intersections d
             (replicate (Z.to_nat pixelcount) zero_intersection
              ++ drop (Z.to_nat pixelcount) (dev_intersections d))).

Definition intersect (cfg : Config) (fuel : nat) (scene : Scene F)
    (depth num_paths : Z) (d : Device F) : Res (Device F) :=
  if ACCELSTRUCT cfg then computeIntersectionsKD fuel depth num_paths d
  else computeIntersections depth num_paths (geoms_size scene) d.

(* thrust::sort_by_key(dv_intersections, dv_intersections + num_paths,
                       dv_paths, materialCmp()) *)
Definition sortByMaterial (num_paths : Z) (d : Device F) : Device F :=
  let n := Z.to_nat num_paths in
  let '(ks, vs) :=
    thrust_sort_by_key materialCmp (take n (dev_intersections d))
      (take n (dev_paths d)) in
  set_paths
    (set_intersections d (ks ++ drop n (dev_intersections d)))
    (vs ++ drop n (dev_paths d)).

(* thrust::partition(thrust::device, dev_paths, dev_paths + num_paths,
                     rayDeath()); num_paths = path_end - dev_paths *)
Definition compact (num_paths : Z) (d : Device F) : Device F * Z :=
  let n := Z.to_nat num_paths in
  let '(live, k) := thrust_partition rayDeath (take n (dev_paths d)) in
  (set_paths d (live ++ drop n (dev_paths d)), k).

(* the body of while (!iterationComplete), repeated *)
Fixpoint bounces (cfg : Config) (fuel kdfuel : nat) (scene : Scene F)
    (iter pixelcount : Z) (depth num_paths : Z) (d : Device F) : Res (Device F) :=
  match fuel with
  | O => Err OutOfFuel
  | S fuel' =>
      do d1 <- clear_intersections pixelcount d;
      do d2 <- intersect cfg kdfuel scene depth num_paths d1;
      let d3 := if MATSORT cfg then sortByMaterial num_paths d2 else d2 in
      do d4 <- shadeMaterials cfg iter num_paths depth d3;
      let depth' := wrap32 (depth + 1) in
      if STREAMCOMP cfg then
        let '(d5, num_paths') := compact num_paths d4 in
        if (num_paths' =? 0) || (depth' =? traceDepth scene) then Ok d5
        else bounces cfg fuel' kdfuel scene iter pixelcount depth' num_paths' d5
      else
        if depth' =? traceDepth scene then Ok d4
        else bounces cfg fuel' kdfuel scene iter pixelcount depth' num_paths d4
  end.

(* One call of pathtrace, up to the final gather.  The copy of the image
   to the PBO and to the host reads dev_image and changes nothing here. *)
Definition pathtrace (cfg : Config) (fuel kdfuel : nat) (scene : Scene F) (iter : Z)
    (d : Device F) : Res (Device F) :=
  let cam := camera scene in
  let pixelcount := pixelcount_of cam in
  do d1 <- generateRayFromCamera cam iter (traceDepth scene) d;
  do d2 <- bounces cfg fuel kdfuel scene iter pixelcount 0 pixelcount d1;
  finalGather pixelcount pixelcount d2.

End Kernels.

Arguments IsectLocals F : clear implicits.
Arguments KDState F : clear implicits.
Arguments KDStep F : clear implicits.

(** ** A small instance of the externals

    Stand-ins for the helpers of the other headers, simple enough to run
    the kernels on concrete scenes.  A primitive is a pair of parallel
    walls: [geomRest = (side, dist)] is hit at distance [dist] by the rays
    whose direction has a y component of sign [side] (by every ray when
    [side] is 0).  The random engine is a function of the hash it is made
    from: the hash itself, unless said otherwise. *)

Module Sample.

#[export] Instance types : SceneTypes := {|
  GeomRest := Z * Z;
  MaterialRest := unit;
  Bounds := bool;
  Engine := Z
|}.

Section Instance.
Context {F : Type} `{Scalar F}.

Definition wallTest (geom : Geom F) (r : Ray F) (p n : vec3 F)
  : F * vec3 F * vec3 F :=
  let '(side, dist) := geomRest geom in
  let y := vy (direction r) in
  let facing :=
    if side =? 0 then true
    else if 0 <? side then fltb fzero y else fltb y fzero in
  if facing then
    (f_of_int dist, vadd (origin r) (vscale (direction r) (f_of_int dist)),
     Vec3 fzero fone fzero)
  else (flit (-1) 1, p, n).

(* one draw: 0 for an even seed, 1 for an odd one *)
Definition draw (seed : Z) : F * Z :=
  (if Z.even seed then fzero else fone, seed + 1).

Definition bounce (p : PathSegment F) (isectPt normal : vec3 F)
    (m : Material F) (rng : Z) : PathSegment F :=
  let '(u, _) := draw rng in
  {| ray := {| origin := isectPt;
               direction := Vec3 fone (fsub u (flit 5 10)) fzero |};
     color := vmul (color p) (matColor m);
     pixelIndex := pixelIndex p;
     remainingBounces := remainingBounces p |}.

Definition stable_partition {A} (pred : A -> bool) (l : list A) : list A * Z :=
  (List.filter pred l ++ List.filter (fun x => negb (pred x)) l,
   Z.of_nat (length (List.filter pred l))).

Fixpoint insert_by_key {K V} (lt : K -> K -> bool) (x : K * V)
    (l : list (K * V)) : list (K * V) :=
  match l with
  | [] => [x]
  | y :: l' => if lt (fst y) (fst x) then y :: insert_by_key lt x l'
               else if lt (fst x) (fst y) then x :: l
               else y :: insert_by_key lt x l'
  end.

Definition sort_by_key {K V} (lt : K -> K -> bool) (ks : list K) (vs : list V)
  : list K * list V :=
  let sorted := foldl (fun acc x => insert_by_key lt x acc) [] (zip ks vs) in
  (sorted.*1, sorted.*2).

(* the helpers, over a choice of the engine made from a hash *)
Definition externals_with (engine : Z -> Z) : Externals F := {|
  utilhash := fun a => a;
  InvPi := flit 31830988618379067154 100000000000000000000;
  multiplyMV := fun _ v => Vec3 (v4x v) (v4y v) (v4z v);
  default_random_engine := engine;
  u01 := draw;
  normalize := fun v => v;
  sinf := fun x => x;
  boundsIntersectionTest := fun (b : bool) _ => if b then fone else flit (-1) 1;
  boxIntersectionTest := wallTest;
  sphereIntersectionTest := wallTest;
  triangleIntersectionTest := wallTest;
  diamondIntersectionTest := wallTest;
  mandelbulbIntersectionTest := fun g r p n c => (wallTest g r p n, c);
  getPointOnRay := fun r x => vadd (origin r) (vscale (direction r) x);
  computeSphereUVs := fun p => Vec2 (vx p) (vy p);
  computeCubeUVs := fun p => Vec2 (vx p) (vy p);
  GetTriangleUVs := fun _ p => Vec2 (vx p) (vy p);
  computeSphereTBN := fun _ _ _ => (Vec3 fone fzero fzero, Vec3 fzero fzero fone);
  calculateRandomDirectionInHemisphere :=
    fun _ _ => Vec3 (flit 6 10) fzero (flit 8 10);
  scatterRay := bounce;
  palette := fun x a b c d => a;
  thrust_partition := stable_partition;
  thrust_sort_by_key := sort_by_key;
  indeterminate := fzero
|}.

#[export] Instance externals : Externals F := externals_with (fun h => h).

(* an engine that forgets its seed *)
Definition externals_unseeded : Externals F := externals_with (fun _ => 0).

End Instance.

End Sample.

(** ** Vocabulary of the properties *)

Section Vocabulary.
Context {F : Type} `{Externals F}.

(* [d'] differs from [d] at most in the contents of dev_intersections *)
Definition only_intersections_changed (d d' : Device F) : Prop :=
  dev_image d' = dev_image d /\
  dev_geoms d' = dev_geoms d /\
  dev_materials d' = dev_materials d /\
  dev_paths d' = dev_paths d /\
  dev_textures d' = dev_textures d /\
  dev_kdtree d' = dev_kdtree d /\
  length (dev_intersections d') = length (dev_intersections d).

(* [d'] differs from [d] at most in the contents of dev_paths *)
Definition only_paths_changed (d d' : Device F) : Prop :=
  dev_image d' = dev_image d /\
  dev_geoms d' = dev_geoms d /\
  dev_materials d' = dev_materials d /\
  dev_intersections d' = dev_intersections d /\
  dev_textures d' = dev_textures d /\
  dev_kdtree d' = dev_kdtree d /\
  length (dev_paths d') = length (dev_paths d).

(* [d'] differs from [d] at most in the contents of dev_image *)
Definition only_image_changed (d d' : Device F) : Prop :=
  dev_geoms d' = dev_geoms d /\
  dev_materials d' = dev_materials d /\
  dev_paths d' = dev_paths d /\
  dev_intersections d' = dev_intersections d /\
  dev_textures d' = dev_textures d /\
  dev_kdtree d' = dev_kdtree d /\
  length (dev_image d') = length (dev_image d).

Definition magenta : vec3 F := Vec3 fone fzero fone.

(* what generateRayFromCamera leaves in slot [i] of dev_paths *)
Definition camera_path (cam : Camera F) (traceDepth : Z) (i : Z)
    (p : PathSegment F) : Prop :=
  origin (ray p) = position cam /\
  color p = Vec3 fone fone fone /\
  pixelIndex p = i /\
  remainingBounces p = traceDepth.

(* every slot below [n] of [paths] holds the camera path of its index *)
Definition camera_paths (cam : Camera F) (traceDepth : Z) (n : Z)
    (paths : list (PathSegment F)) : Prop :=
  forall k : nat, Z.of_nat k < n ->
    exists p, paths !! k = Some p /\ camera_path cam traceDepth (Z.of_nat k) p.

(* a resolution the kernels can be launched on and can index: the image
   is not empty and pixelcount fits an int *)
Definition valid_resolution (cam : Camera F) : Prop :=
  0 < resolution_x cam < 2 ^ 31 /\ 0 < resolution_y cam < 2 ^ 31 /\
  resolution_x cam * resolution_y cam < 2 ^ 31.

(* the three per-pixel buffers have pixelcount entries *)
Definition buffers_sized (cam : Camera F) (d : Device F) : Prop :=
  Z.of_nat (length (dev_image d)) = pixelcount_of cam /\
  Z.of_nat (length (dev_paths d)) = pixelcount_of cam /\
  Z.of_nat (length (dev_intersections d)) = pixelcount_of cam.

(** *** Well-formed flattened trees *)

(* The shape of the tree an array of nodes stands for.  A node is read
   by the traversal as a leaf exactly when its nPrimitives is positive;
   the near child of an interior node is the next node of the array, the
   far child is at secondChildOffset. *)
Inductive KDShape :=
  | KDLeaf
  | KDInterior (near far : KDShape).

(* the number of edges on the longest path from the root to a leaf *)
Fixpoint kd_depth (s : KDShape) : Z :=
  match s with
  | KDLeaf => 0
  | KDInterior a b => 1 + Z.max (kd_depth a) (kd_depth b)
  end.

Fixpoint kd_wf (kdtree : list LinearKDNode) (ngeoms : Z) (s : KDShape) (i : Z)
  : Prop :=
  match s with
  | KDLeaf =>
      exists node, rd kdtree i = Ok node /\ 0 < nPrimitives node /\
                   0 <= primitivesOffset node /\
                   primitivesOffset node + nPrimitives node <= ngeoms
  | KDInterior a b =>
      exists node, rd kdtree i = Ok node /\ nPrimitives node <= 0 /\
                   kd_wf kdtree ngeoms a (i + 1) /\
                   kd_wf kdtree ngeoms b (secondChildOffset node)
  end.

(* the array has the shape [s] from its root at index 0, the primitive
   ranges of its leaves lie inside the primitive array, and both arrays
   can be indexed by an int *)
Definition well_formed_kdtree (kdtree : list LinearKDNode) (geoms : list (Geom F))
    (s : KDShape) : Prop :=
  kd_wf kdtree (Z.of_nat (length geoms)) s 0 /\
  Z.of_nat (length kdtree) < 2 ^ 31 /\
  Z.of_nat (length geoms) < 2 ^ 31.

(* the states the loop of the traversal goes through *)
Inductive kd_reaches (kdtree : list LinearKDNode) (geoms : list (Geom F))
    (r : Ray F) : KDState F -> KDState F -> Prop :=
  | kd_reaches_here s : kd_reaches kdtree geoms r s s
  | kd_reaches_step s s1 s2 :
      kd_step kdtree geoms r s = Ok (Continue s1) ->
      kd_reaches kdtree geoms r s1 s2 ->
      kd_reaches kdtree geoms r s s2.

(* one or more turns of the loop from [s], the last of which ends in
   [out]; every state a turn starts from has its stack offset in [0, B] *)
Inductive kd_seg (kdtree : list LinearKDNode) (geoms : list (Geom F))
    (r : Ray F) (B : Z) : KDState F -> KDStep F -> Prop :=
  | kd_seg_last s out :
      0 <= toVisitOffset s <= B ->
      kd_step kdtree geoms r s = Ok out ->
      kd_seg kdtree geoms r B s out
  | kd_seg_more s s1 out :
      0 <= toVisitOffset s <= B ->
      kd_step kdtree geoms r s = Ok (Continue s1) ->
      kd_seg kdtree geoms r B s1 out ->
      kd_seg kdtree geoms r B s out.

(* how the traversal leaves a subtree entered in state [s]: it breaks
   when the stack is empty, and otherwise pops the entry below the ones
   the subtree used, which are left as they were *)
Definition kd_exit (s : KDState F) (out : KDStep F) : Prop :=
  if toVisitOffset s =? 0 then exists s', out = Break s'
  else exists s',
      out = Continue s' /\
      toVisitOffset s' = toVisitOffset s - 1 /\
      rd (nodesToVisit s) (toVisitOffset s - 1) = Ok (currentNodeIndex s') /\
      length (nodesToVisit s') = length (nodesToVisit s) /\
      (forall k, (Z.of_nat k < toVisitOffset s)%Z ->
                 nodesToVisit s' !! k = nodesToVisit s !! k).

(* the intersection stage of the first bounce does not fault on the
   rays the camera generates *)
Definition first_intersection_runs (cfg : Config) (kdfuel : nat) (scene : Scene F)
    (iter : Z) (d : Device F) : Prop :=
  forall d1 d2,
    generateRayFromCamera (camera scene) iter (traceDepth scene) d = Ok d1 ->
    clear_intersections (pixelcount_of (camera scene)) d1 = Ok d2 ->
    exists d3,
      intersect cfg kdfuel scene 0 (pixelcount_of (camera scene)) d2 = Ok d3.

(* A scene whose only primitive is a sphere of material [m], under a
   single leaf of the tree, and which every ray leaving the camera
   position hits: the sphere covers the whole view. *)
Definition sphere_fills_view (scene : Scene F) (g : Geom F) (m : Material F)
    (node : LinearKDNode) : Prop :=
  sortedGeoms scene = [g] /\ type g = SPHERE /\ materialid g = 0 /\
  materials scene = [m] /\ normMapOffset m = -1 /\
  flatKDTree scene = [node] /\ nPrimitives node = 1 /\
  primitivesOffset node = 0 /\
  forall (r : Ray F) (p n : vec3 F),
    origin r = position (camera scene) ->
    feqb (boundsIntersectionTest (bounds node) r) (flit (-1) 1) = false /\
    fltb fzero (sphereIntersectionTest g r p n).1.1 = true /\
    fltb (sphereIntersectionTest g r p n).1.1 FLT_MAX = true.

(** *** What one bounce does to one path *)

(* the record a thread of the accelerated kernel leaves in a slot that
   held [r], for the path segment of that slot *)
Definition recordKD (fuel : nat) (d : Device F) (pathSegment : PathSegment F)
    (r : ShadeableIntersection F) : Res (ShadeableIntersection F) :=
  do s <- kd_loop fuel (dev_kdtree d) (dev_geoms d) (ray pathSegment) kd_init;
  let l := locals s in
  if l_hit_geom_index l =? -1 then Ok (with_t r (flit (-1) 1))
  else
    do geom <- rd (dev_geoms d) (l_hit_geom_index l);
    let r1 := with_surfaceNormal
                (with_materialId (with_t r (l_t_min l)) (materialid geom))
                (l_normal l) in
    do material <- rd (dev_materials d) (materialid geom);
    let pt := multiplyMV (inverseTransform geom)
                (Vec4 (vx (l_intersect_point l)) (vy (l_intersect_point l))
                   (vz (l_intersect_point l)) fone) in
    let r2 := with_uvs r1 (hitUVs geom pt) in
    applyNormalMap geom material pt (l_normal l) (dev_textures d) r2.

(* the same for the brute-force kernel *)
Definition recordBrute (gsize : Z) (d : Device F) (pathSegment : PathSegment F)
    (r : ShadeableIntersection F) : Res (ShadeableIntersection F) :=
  do l <- testRange testPrimitive (dev_geoms d) (ray pathSegment) 0 0
            (Z.to_nat gsize) init_locals;
  if l_hit_geom_index l =? -1 then Ok (with_t r (flit (-1) 1))
  else
    do geom <- rd (dev_geoms d) (l_hit_geom_index l);
    let r1 := with_surfaceNormal
                (with_materialId (with_t r (l_t_min l)) (materialid geom))
                (l_normal l) in
    let pt := multiplyMV (inverseTransform geom)
                (Vec4 (vx (l_intersect_point l)) (vy (l_intersect_point l))
                   (vz (l_intersect_point l)) fone) in
    let r2 := with_uvs r1 (hitUVs geom pt) in
    do mat <- rd (dev_materials d) (materialId r2);
    applyNormalMap geom mat pt (l_normal l) (dev_textures d) r2.

Definition record (cfg : Config) (fuel : nat) (scene : Scene F) (d : Device F)
    (pathSegment : PathSegment F) (r : ShadeableIntersection F)
  : Res (ShadeableIntersection F) :=
  if ACCELSTRUCT cfg then recordKD fuel d pathSegment r
  else recordBrute (geoms_size scene) d pathSegment r.

(* the path segment a thread of the shader leaves for [p], given the
   intersection record of its slot; [index] is the slot *)
Definition shadeWith (cfg : Config) (iter index depth : Z) (d : Device F)
    (intersection : ShadeableIntersection F) (p : PathSegment F)
  : Res (PathSegment F) :=
  if remainingBounces p =? 0 then Ok p
  else if fltb fzero (t intersection) then
    do material <- rd (dev_materials d) (materialId intersection);
    shadeHit cfg iter index depth intersection material (dev_textures d) p
  else Ok (with_remainingBounces (with_color p (splat fzero)) 0).

(* intersection and shading of one path, as if it sat in slot 0 *)
Definition bounce_path (cfg : Config) (fuel : nat) (scene : Scene F)
    (iter depth : Z) (d : Device F) (p : PathSegment F) : Res (PathSegment F) :=
  do r <- record cfg fuel scene d p zero_intersection;
  shadeWith cfg iter 0 depth d r p.

(* clearing, intersection, optional sorting and shading: the body of
   the loop of pathtrace up to the compaction *)
Definition shade_pass (cfg : Config) (kdfuel : nat) (scene : Scene F)
    (iter pixelcount depth num_paths : Z) (d : Device F) : Res (Device F) :=
  do d1 <- clear_intersections pixelcount d;
  do d2 <- intersect cfg kdfuel scene depth num_paths d1;
  let d3 := if MATSORT cfg then sortByMaterial num_paths d2 else d2 in
  shadeMaterials cfg iter num_paths depth d3.

(* two devices hold the same scene *)
Definition same_scene (d d' : Device F) : Prop :=
  dev_geoms d' = dev_geoms d /\
  dev_materials d' = dev_materials d /\
  dev_textures d' = dev_textures d /\
  dev_kdtree d' = dev_kdtree d.

(* The part of the contract of thrust::sort_by_key used here: keys and
   values are permuted together. *)
Definition sort_permutes_pairs
    (sort : (ShadeableIntersection F -> ShadeableIntersection F -> bool) ->
            list (ShadeableIntersection F) -> list (PathSegment F) ->
            list (ShadeableIntersection F) * list (PathSegment F)) : Prop :=
  forall lt ks vs,
    length ks = length vs ->
    length (sort lt ks vs).1 = length ks /\
    length (sort lt ks vs).2 = length vs /\
    zip (sort lt ks vs).1 (sort lt ks vs).2 ≡ₚ zip ks vs.

(* the seeded engine does not depend on the array position *)
Definition seed_ignores_position : Prop :=
  forall iter depth i j,
    makeSeededRandomEngine iter i depth = makeSeededRandomEngine iter j depth.

(* scatterRay leaves the pixel index of the path alone *)
Definition scatter_keeps_pixel : Prop :=
  forall (q : PathSegment F) x n m e,
    pixelIndex (scatterRay q x n m e) = pixelIndex q.

(* Two devices in the same loop turn of two runs: same scene and image,
   and the same paths, up to their order, inside the active range
   [0, n) and outside it. *)
Definition related (N n : Z) (d1 d2 : Device F) : Prop :=
  same_scene d1 d2 /\ dev_image d2 = dev_image d1 /\
  length (dev_paths d2) = length (dev_paths d1) /\
  N <= Z.of_nat (length (dev_intersections d1)) /\
  N <= Z.of_nat (length (dev_intersections d2)) /\
  take (Z.to_nat n) (dev_paths d1) ≡ₚ take (Z.to_nat n) (dev_paths d2) /\
  drop (Z.to_nat n) (dev_paths d1) ≡ₚ drop (Z.to_nat n) (dev_paths d2).

Definition with_matsort (cfg : Config) (b : bool) : Config :=
  {| MATSORT := b; STREAMCOMP := STREAMCOMP cfg;
     ACCELSTRUCT := ACCELSTRUCT cfg; PROCTEXT := PROCTEXT cfg |}.

End Vocabulary.

(** ** Concrete scenes over the sample externals *)

Module Scenes.
Import Sample.

Definition white : vec3 float := Vec3 fone fone fone.
Definition black : vec3 float := splat fzero.

Definition identity4 : mat4 float :=
  Mat4 (Vec4 fone fzero fzero fzero) (Vec4 fzero fone fzero fzero)
       (Vec4 fzero fzero fone fzero) (Vec4 fzero fzero fzero fone).

Definition material (c : vec3 float) (e : float) (texture : Z) : Material float :=
  {| matColor := c; emittance := e; textureOffset := texture;
     normMapOffset := -1; tex_width := 0; tex_height := 0;
     n_m_width := 0; n_m_height := 0; materialRest := () |}.

(* a white light of emittance 5, a grey diffuse surface, and a surface
   whose texture failed to load *)
Definition light : Material float := material white (f_of_int 5) (-1).
Definition grey : Material float := material (splat (flit 5 10)) fzero (-1).
Definition broken : Material float := material (splat (flit 5 10)) fzero (-2).

Definition wall (ty : GeomType) (mat side dist : Z) : Geom float :=
  {| type := ty; materialid := mat; inverseTransform := identity4;
     geomRest := (side, dist) |}.

(* looks along x; the y component of a camera ray is minus the
   horizontal pixel coordinate relative to the image centre *)
Definition cam (w h : Z) : Camera float :=
  {| resolution_x := w; resolution_y := h; position := black;
     view := Vec3 fone fzero fzero; up := black;
     right := Vec3 fzero fone fzero; pixelLength := Vec2 fone fone |}.

Definition leaf (n offset : Z) : LinearKDNode :=
  {| bounds := true; nPrimitives := n; primitivesOffset := offset;
     secondChildOffset := 0 |}.

Definition interior (far : Z) : LinearKDNode :=
  {| bounds := true; nPrimitives := 0; primitivesOffset := 0;
     secondChildOffset := far |}.

Definition ray_up : Ray float :=
  {| origin := black; direction := Vec3 fone fone fzero |}.

Definition stale : PathSegment float :=
  {| ray := {| origin := black; direction := black |}; color := black;
     pixelIndex := 77; remainingBounces := 5 |}.

(* two pixels; the left one sees a grey wall, the right one the light *)
Definition two_walls (depth : Z) : Scene float :=
  {| camera := cam 2 1; traceDepth := depth; geoms_size := 2;
     sortedGeoms := [wall SPHERE 1 1 1; wall CUBE 0 (-1) 1];
     materials := [light; grey]; textureData := [];
     flatKDTree := [leaf 2 0] |}.

(* the camera sits inside an emissive sphere *)
Definition inside_light (w h depth : Z) : Scene float :=
  {| camera := cam w h; traceDepth := depth; geoms_size := 1;
     sortedGeoms := [wall SPHERE 0 0 1];
     materials := [light]; textureData := [];
     flatKDTree := [leaf 1 0] |}.

(* a tree of three nodes over two primitives *)
Definition small_tree : list LinearKDNode := [interior 2; leaf 1 0; leaf 1 1].
Definition small_geoms : list (Geom float) :=
  [wall SPHERE 0 0 1; wall CUBE 0 0 2].

Definition path (r : Ray float) (pixel bounces : Z) : PathSegment float :=
  {| ray := r; color := white; pixelIndex := pixel; remainingBounces := bounces |}.

Definition hit (x : float) (mat : Z) : ShadeableIntersection float :=
  {| t := x; surfaceNormal := Vec3 fzero fone fzero; materialId := mat;
     uvs := Vec2 fzero fzero |}.

Definition device (geoms : list (Geom float)) (mats : list (Material float))
    (tree : list LinearKDNode) (paths : list (PathSegment float)) : Device float :=
  {| dev_image := replicate (length paths) black;
     dev_geoms := geoms; dev_materials := mats; dev_paths := paths;
     dev_intersections := replicate (length paths) zero_intersection;
     dev_textures := []; dev_kdtree := tree |}.

(* a sphere the upward ray misses, then a diamond it hits at distance 2 *)
Definition diamond_geoms : list (Geom float) :=
  [wall SPHERE 0 (-1) 1; wall DIAMOND 1 0 2].

Definition diamond_device : Device float :=
  device diamond_geoms [light; grey] [leaf 2 0] [path ray_up 0 2].

(* one path looking at the grey wall *)
Definition wall_device : Device float :=
  device [wall SPHERE 1 1 1; wall CUBE 0 (-1) 1] [light; grey] [leaf 2 0]
    [path ray_up 0 2].

(* an active range holding one live path and one whose counter is -1 *)
Definition spent_device : Device float :=
  device [] [] [] [path ray_up 0 (-1); path ray_up 1 1].

(* a diffuse surface of albedo 0.3, seen along its normal *)
Definition dull : Material float := material (splat (flit 3 10)) fzero (-1).
Definition normal_z : vec3 float := Vec3 fzero fzero fone.

(* the same surface over the exact rationals *)
Definition dull_exact : @Material Qc Sample.types :=
  {| matColor := Vec3 (Exact.of_frac 3 10) (Exact.of_frac 3 10) (Exact.of_frac 3 10);
     emittance := Q2Qc 0; textureOffset := -1;
     normMapOffset := -1; tex_width := 0; tex_height := 0;
     n_m_width := 0; n_m_height := 0; materialRest := () |}.
Definition normal_z_exact : vec3 Qc := Vec3 (Q2Qc 0) (Q2Qc 0) (Q2Qc 1).

(* the same path after the intersection stage found the grey wall *)
Definition hit_device : Device float :=
  set_intersections wall_device [hit fone 1].

(* two finished paths stored against the order of their pixels *)
Definition swapped_device : Device float :=
  device [] [] [] [path ray_up 1 0; path ray_up 0 0].

(* the two walls under a root whose bounds no ray meets *)
Definition unseen_root : LinearKDNode :=
  {| bounds := false; nPrimitives := 2; primitivesOffset := 0;
     secondChildOffset := 0 |}.

Definition unseen_walls (depth : Z) : Scene float :=
  {| camera := cam 2 1; traceDepth := depth; geoms_size := 2;
     sortedGeoms := [wall SPHERE 1 1 1; wall CUBE 0 (-1) 1];
     materials := [light; grey]; textureData := [];
     flatKDTree := [unseen_root] |}.

(* an image of two pixels after four iterations: one pixel averages to
   a half in every channel, the other to more than one *)
Definition two_pixels : list (vec3 float) :=
  [splat (f_of_int 2); splat (f_of_int 9)].

(* the two walls seen from two pixels: the left path looks at the grey
   wall, the right one at the light *)
Definition camera_device : Device float :=
  device [wall SPHERE 1 1 1; wall CUBE 0 (-1) 1] [light; grey] [leaf 2 0]
    [path {| origin := black; direction := Vec3 fone fone fzero |} 0 2;
     path {| origin := black; direction := Vec3 fone (flit (-1) 1) fzero |} 1 2].

(* a path buffer of three slots holding what the allocation left *)
Definition long_device : Device float :=
  device [] [] [] [stale; stale; stale].

(* the switches of the source with the stream compaction compiled out *)
Definition no_compaction : Config :=
  {| MATSORT := false; STREAMCOMP := false; ACCELSTRUCT := true; PROCTEXT := true |}.

Definition matsort_on : Config :=
  {| MATSORT := true; STREAMCOMP := true; ACCELSTRUCT := true; PROCTEXT := true |}.

End Scenes.

Import Sample.

(** ** Further vocabulary *)

Section MoreVocabulary.
Context {F : Type} `{Externals F}.

(* the locals of an intersection loop: either nothing was hit yet, or
   the nearest distance is positive *)
Definition nearest_ok (l : IsectLocals F) : Prop :=
  l_hit_geom_index l = -1 \/ fltb fzero (l_t_min l) = true.

(** *** The traversal as a recursion *)

(* the number of nodes of a tree *)
Fixpoint kd_nodes (shape : KDShape) : nat :=
  match shape with
  | KDLeaf => 1
  | KDInterior near far => S (kd_nodes near + kd_nodes far)
  end.

(* Depth-first traversal of the subtree of shape [shape] rooted at the
   node [i], near child first: a node whose bounds the ray misses is
   skipped with all below it, the primitives of a leaf are tested in
   the order of the array. *)
Fixpoint kd_visit (kdtree : list LinearKDNode) (geoms : list (Geom F)) (r : Ray F)
    (shape : KDShape) (i : Z) (l : IsectLocals F) : Res (IsectLocals F) :=
  do node <- rd kdtree i;
  if negb (feqb (boundsIntersectionTest (bounds node) r) (flit (-1) 1)) then
    match shape with
    | KDLeaf =>
        testRange testPrimitiveKD geoms r (primitivesOffset node) 0
          (Z.to_nat (nPrimitives node)) l
    | KDInterior near far =>
        do l1 <- kd_visit kdtree geoms r near (i + 1) l;
        kd_visit kdtree geoms r far (secondChildOffset node) l1
    end
  else Ok l.

(* How the loop leaves a subtree entered in state [s], after [m] turns
   and with the locals [l']: it breaks when the stack is empty, and
   otherwise goes on from the entry below the ones the subtree used. *)
Definition kd_leaves (kdtree : list LinearKDNode) (geoms : list (Geom F)) (r : Ray F)
    (s : KDState F) (l' : IsectLocals F) (m : nat) : Prop :=
  if toVisitOffset s =? 0 then
    (exists st, locals st = l' /\
                forall fuel, kd_loop (m + fuel) kdtree geoms r s = Ok st)
  else
    exists s',
      toVisitOffset s' = toVisitOffset s - 1 /\
      rd (nodesToVisit s) (toVisitOffset s - 1) = Ok (currentNodeIndex s') /\
      length (nodesToVisit s') = length (nodesToVisit s) /\
      (forall k, (Z.of_nat k < toVisitOffset s)%Z ->
                 nodesToVisit s' !! k = nodesToVisit s !! k) /\
      locals s' = l' /\
      (forall fuel, kd_loop (m + fuel) kdtree geoms r s
                    = kd_loop fuel kdtree geoms r s').

(* the leaves of the subtree, in the order of the traversal, hold the
   primitives lo, lo + 1, ..., hi - 1 *)
Fixpoint kd_covers (kdtree : list LinearKDNode) (shape : KDShape) (i lo hi : Z)
  : Prop :=
  match shape with
  | KDLeaf =>
      exists node, rd kdtree i = Ok node /\
                   primitivesOffset node = lo /\ lo + nPrimitives node = hi
  | KDInterior near far =>
      exists node mid, rd kdtree i = Ok node /\
                       kd_covers kdtree near (i + 1) lo mid /\
                       kd_covers kdtree far (secondChildOffset node) mid hi
  end.

(* the primitive types both intersection kernels test *)
Definition box_sphere_or_triangle (g : Geom F) : Prop :=
  type g = CUBE \/ type g = SPHERE \/ type g = TRIANGLE.

(* the ray meets the bounds of every node of the tree *)
Definition enters_every_node (kdtree : list LinearKDNode) (r : Ray F) : Prop :=
  forall node, node ∈ kdtree ->
    feqb (boundsIntersectionTest (bounds node) r) (flit (-1) 1) = false.

(** *** What the ray generator stores *)

(* the path segment the thread (x, y) of generateRayFromCamera stores;
   the two jitters are the first two draws of the engine of the pixel *)
Definition camera_segment (cam : Camera F) (iter traceDepth x y : Z)
  : PathSegment F :=
  let index := x + y * resolution_x cam in
  let rng := makeSeededRandomEngine iter index 0 in
  let j1 := (u01 rng).1 in
  let j2 := (u01 (u01 rng).2).1 in
  let pixel_x := fadd (f_of_int x) j1 in
  let pixel_y := fadd (f_of_int y) j2 in
  {| ray :=
       {| origin := position cam;
          direction :=
            normalize
              (vsub
                 (vsub (view cam)
                    (vscale (vscale (right cam) (v2x (pixelLength cam)))
                       (fsub pixel_x
                          (fmul (f_of_int (resolution_x cam)) (flit 5 10)))))
                 (vscale (vscale (up cam) (v2y (pixelLength cam)))
                    (fsub pixel_y
                       (fmul (f_of_int (resolution_y cam)) (flit 5 10))))) |};
     color := Vec3 fone fone fone;
     pixelIndex := index;
     remainingBounces := traceDepth |}.

(** *** The nearest hit *)

(* the distance the test of the primitive [g] returns for the ray [r] *)
Definition tested_distance (g : Geom F) (r : Ray F) : F :=
  l_t (testPrimitive g r init_locals).

(* The locals of the brute-force loop once the primitives below [i] are
   tested: no positive distance among them is below t_min, and t_min is
   FLT_MAX with no primitive chosen, or the positive distance of the
   chosen one. *)
Definition nearest_below (geoms : list (Geom F)) (r : Ray F) (i : Z)
    (l : IsectLocals F) : Prop :=
  (forall (j : nat) g,
      Z.of_nat j < i -> geoms !! j = Some g ->
      fltb fzero (tested_distance g r) = true ->
      fltb (tested_distance g r) (l_t_min l) = false) /\
  ((l_hit_geom_index l = -1 /\ l_t_min l = FLT_MAX) \/
   exists (j : nat) g,
     l_hit_geom_index l = Z.of_nat j /\ Z.of_nat j < i /\ geoms !! j = Some g /\
     l_t_min l = tested_distance g r /\
     fltb fzero (tested_distance g r) = true).

End MoreVocabulary.

(** ** The display kernel

    sendImageToPBO reads the accumulated image and writes the pixel buffer
    object; it works on single-precision pixels, so it is embedded over
    [float] itself. *)

Module Display.

Record uchar4 := { u_x : Z; u_y : Z; u_z : Z; u_w : Z }.

(* an int stored in an unsigned char *)
Definition to_uchar (z : Z) : Z := z mod 256.

(* glm::clamp(x, minVal, maxVal) is min(max(x, minVal), maxVal) *)
Definition clamp (x lo hi : Z) : Z := Z.min (Z.max x lo) hi.

(* (int) of a double in device code: towards zero, saturating at the
   ends of int, a NaN gives 0 *)
Definition double_to_int (x : spec_float) : Z :=
  match x with
  | S754_nan => 0
  | S754_infinity s => if s then - 2 ^ 31 else 2 ^ 31 - 1
  | _ => Z.max (- 2 ^ 31) (Z.min (2 ^ 31 - 1) (Binary32.to_int x))
  end.

(* x * 255.0: the float is widened, the product is a double *)
Definition times_255 (x : float) : spec_float :=
  SFmul 53 1024 x (Binary32.b64_of_Z 255).

(* glm::clamp((int)(c / iter * 255.0), 0, 255) *)
Definition channel (c : float) (iter : Z) : Z :=
  clamp (double_to_int (times_255 (fdiv c (f_of_int iter)))) 0 255.

(* what the thread stores in pbo[index] for the pixel pix *)
Definition texel (pix : vec3 float) (iter : Z) : uchar4 :=
  {| u_x := to_uchar (channel (vx pix) iter);
     u_y := to_uchar (channel (vy pix) iter);
     u_z := to_uchar (channel (vz pix) iter);
     u_w := to_uchar 0 |}.

Definition sendImageToPBO_thread (resolution_x resolution_y iter : Z)
    (image : list (vec3 float)) (x y : Z) (pbo : list uchar4)
  : Res (list uchar4) :=
  if (x <? resolution_x) && (y <? resolution_y) then
    let index := wrap32 (x + wrap32 (y * resolution_x)) in
    do pix <- rd image index;
    wr pbo index (texel pix iter)
  else Ok pbo.

(* launched on the grid of the ray generator *)
Definition sendImageToPBO (pbo : list uchar4) (resolution_x resolution_y iter : Z)
    (image : list (vec3 float)) : Res (list uchar4) :=
  launch2d (threads2d resolution_x) (threads2d resolution_y)
    (sendImageToPBO_thread resolution_x resolution_y iter image) pbo.

End Display.

(** * Properties *)

(** ** Arrays and launches *)

Lemma bind_Ok {A B} (m : Res A) (k : A -> Res B) (b : B) :
  bind m k = Ok b -> exists a, m = Ok a /\ k a = Ok b.
Proof. destruct m as [a|f]; simpl; [eauto | discriminate]. Qed.

Lemma rd_Ok {A} (a : list A) (i : Z) (x : A) :
  rd a i = Ok x <-> 0 <= i /\ a !! Z.to_nat i = Some x.
Proof.
  unfold rd. destruct (Z.ltb_spec i 0).
  - split; [discriminate | lia].
  - destruct (a !! Z.to_nat i) eqn:E; split; intros Hx.
    + injection Hx as ->. auto.
    + destruct Hx as [_ Hx]. congruence.
    + discriminate.
    + destruct Hx as [_ Hx]. discriminate.
Qed.

Lemma rd_lookup {A} (a : list A) (i : nat) (x : A) :
  a !! i = Some x -> rd a (Z.of_nat i) = Ok x.
Proof. intros Hx. apply rd_Ok. rewrite Nat2Z.id. split; [lia | done]. Qed.

Lemma wr_Ok {A} (a : list A) (i : Z) (x : A) (a' : list A) :
  wr a i x = Ok a' <->
  0 <= i < Z.of_nat (length a) /\ a' = <[Z.to_nat i := x]> a.
Proof.
  unfold wr.
  destruct (Z.ltb_spec i 0); destruct (Z.leb_spec (Z.of_nat (length a)) i); simpl;
    split; intros Hx; try discriminate; try lia.
  - injection Hx as <-. split; [lia | done].
  - destruct Hx as [_ ->]. done.
Qed.

Lemma wr_in_range {A} (a : list A) (i : nat) (x : A) :
  (i < length a)%nat -> wr a (Z.of_nat i) x = Ok (<[i := x]> a).
Proof. intros Hi. apply wr_Ok. rewrite Nat2Z.id. split; [lia | done]. Qed.

Lemma wr_length {A} (a : list A) (i : Z) (x : A) (a' : list A) :
  wr a i x = Ok a' -> length a' = length a.
Proof. intros [_ ->]%wr_Ok. apply length_insert. Qed.

(* a property kept by every thread is kept by the launch *)
Lemma launch_from_preserves {St} (P : St -> Prop) (body : Z -> St -> Res St) :
  (forall i s s', P s -> body i s = Ok s' -> P s') ->
  forall n i s s', P s -> launch_from body i n s = Ok s' -> P s'.
Proof.
  intros Hbody n. induction n as [|n IH]; simpl; intros i s s' HP Hrun.
  - injection Hrun as <-. done.
  - apply bind_Ok in Hrun as (s1 & H1 & H2). eauto.
Qed.

(* the loop rule for a launch that cannot fault: [I j] holds before
   thread [j] runs *)
Lemma launch_from_total {St} (I : Z -> St -> Prop) (body : Z -> St -> Res St) :
  forall n i s,
    I i s ->
    (forall j s1, i <= j < i + Z.of_nat n -> I j s1 ->
                  exists s2, body j s1 = Ok s2 /\ I (j + 1) s2) ->
    exists s', launch_from body i n s = Ok s' /\ I (i + Z.of_nat n) s'.
Proof.
  induction n as [|n IH]; simpl launch_from; intros i s HI Hbody.
  - exists s. split; [done |]. replace (i + Z.of_nat 0) with i by lia. done.
  - destruct (Hbody i s) as (s1 & H1 & HI1); [lia | done |].
    rewrite H1. simpl.
    destruct (IH (i + 1) s1 HI1) as (s' & H2 & HI2).
    + intros j s2 Hj. apply Hbody. lia.
    + exists s'. split; [done |].
      replace (i + Z.of_nat (S n)) with (i + 1 + Z.of_nat n) by lia. done.
Qed.

Lemma threads1d_ge (n : Z) : 0 <= n -> n <= threads1d n.
Proof.
  intros Hn. unfold threads1d.
  rewrite Z.quot_div_nonneg by lia.
  pose proof (Z.div_mod (n + 128 - 1) 128 ltac:(lia)).
  pose proof (Z.mod_pos_bound (n + 128 - 1) 128 ltac:(lia)). lia.
Qed.

Lemma wrap32_small (z : Z) : - 2 ^ 31 <= z < 2 ^ 31 -> wrap32 z = z.
Proof.
  intros Hz. unfold wrap32. rewrite Z.mod_small; lia.
Qed.

(** ** What the intersection kernels write *)

Section Frames.
Context {F : Type} `{Externals F}.

Lemma only_intersections_changed_refl (d : Device F) :
  only_intersections_changed d d.
Proof. repeat split. Qed.

Lemma only_intersections_changed_trans (d1 d2 d3 : Device F) :
  only_intersections_changed d1 d2 -> only_intersections_changed d2 d3 ->
  only_intersections_changed d1 d3.
Proof.
  unfold only_intersections_changed.
  intros (?&?&?&?&?&?&?) (?&?&?&?&?&?&?). repeat split; congruence.
Qed.

Lemma set_intersections_frame (d : Device F) a :
  length a = length (dev_intersections d) ->
  only_intersections_changed d (set_intersections d a).
Proof. intros Hl. repeat split; done. Qed.

Lemma wr_intersections_frame (d : Device F) i r a :
  wr (dev_intersections d) i r = Ok a ->
  only_intersections_changed d (set_intersections d a).
Proof. intros Hw. apply set_intersections_frame. eapply wr_length, Hw. Qed.

Lemma computeIntersections_thread_local_frame depth num_paths gsize i
    (d d' : Device F) pl :
  computeIntersections_thread_local depth num_paths gsize i d = Ok (d', pl) ->
  only_intersections_changed d d'.
Proof.
  unfold computeIntersections_thread_local.
  destruct (i <? num_paths); [| intros [= <- _]; apply only_intersections_changed_refl].
  intros Hrun.
  apply bind_Ok in Hrun as (p & _ & Hrun).
  apply bind_Ok in Hrun as (l & _ & Hrun).
  apply bind_Ok in Hrun as (r & _ & Hrun).
  destruct (l_hit_geom_index l =? -1).
  - apply bind_Ok in Hrun as (a & Hw & [= <- _]).
    eapply wr_intersections_frame, Hw.
  - apply bind_Ok in Hrun as (g & _ & Hrun).
    apply bind_Ok in Hrun as (m & _ & Hrun).
    apply bind_Ok in Hrun as (r3 & _ & Hrun).
    apply bind_Ok in Hrun as (a & Hw & [= <- _]).
    eapply wr_intersections_frame, Hw.
Qed.

Lemma computeIntersections_thread_frame depth num_paths gsize i (d d' : Device F) :
  computeIntersections_thread depth num_paths gsize i d = Ok d' ->
  only_intersections_changed d d'.
Proof.
  unfold computeIntersections_thread. intros Hrun.
  apply bind_Ok in Hrun as ([d1 pl] & Hl & [= <-]).
  eapply computeIntersections_thread_local_frame, Hl.
Qed.

Lemma computeIntersections_frame depth num_paths gsize (d d' : Device F) :
  computeIntersections depth num_paths gsize d = Ok d' ->
  only_intersections_changed d d'.
Proof.
  unfold computeIntersections, launch.
  apply (launch_from_preserves (only_intersections_changed d)).
  - intros i s s' Hs Hrun. eapply only_intersections_changed_trans; [exact Hs |].
    eapply computeIntersections_thread_frame, Hrun.
  - apply only_intersections_changed_refl.
Qed.

Lemma computeIntersectionsKD_thread_frame fuel depth num_paths i (d d' : Device F) :
  computeIntersectionsKD_thread fuel depth num_paths i d = Ok d' ->
  only_intersections_changed d d'.
Proof.
  unfold computeIntersectionsKD_thread.
  destruct (i <? num_paths); [| intros [= <-]; apply only_intersections_changed_refl].
  intros Hrun.
  apply bind_Ok in Hrun as (p & _ & Hrun).
  apply bind_Ok in Hrun as (s & _ & Hrun).
  apply bind_Ok in Hrun as (r & _ & Hrun).
  destruct (l_hit_geom_index (locals s) =? -1).
  - apply bind_Ok in Hrun as (a & Hw & [= <-]).
    eapply wr_intersections_frame, Hw.
  - apply bind_Ok in Hrun as (g & _ & Hrun).
    apply bind_Ok in Hrun as (m & _ & Hrun).
    apply bind_Ok in Hrun as (r3 & _ & Hrun).
    apply bind_Ok in Hrun as (a & Hw & [= <-]).
    eapply wr_intersections_frame, Hw.
Qed.

Lemma computeIntersectionsKD_frame fuel depth num_paths (d d' : Device F) :
  computeIntersectionsKD fuel depth num_paths d = Ok d' ->
  only_intersections_changed d d'.
Proof.
  unfold computeIntersectionsKD, launch.
  apply (launch_from_preserves (only_intersections_changed d)).
  - intros i s s' Hs Hrun. eapply only_intersections_changed_trans; [exact Hs |].
    eapply computeIntersectionsKD_thread_frame, Hrun.
  - apply only_intersections_changed_refl.
Qed.

Lemma intersect_frame cfg fuel scene depth num_paths (d d' : Device F) :
  intersect cfg fuel scene depth num_paths d = Ok d' ->
  only_intersections_changed d d'.
Proof.
  unfold intersect. destruct (ACCELSTRUCT cfg).
  - apply computeIntersectionsKD_frame.
  - apply computeIntersections_frame.
Qed.

End Frames.

(** ** Traversal of a well-formed tree *)

Section Traversal.
Context {F : Type} `{Externals F}.
Variables (kdtree : list LinearKDNode) (geoms : list (Geom F)) (r : Ray F).

Lemma kd_loop_more_fuel fuel (s s' : KDState F) :
  kd_loop fuel kdtree geoms r s = Ok s' ->
  forall fuel', (fuel <= fuel')%nat -> kd_loop fuel' kdtree geoms r s = Ok s'.
Proof.
  revert s. induction fuel as [|fuel IH]; intros s Hrun fuel' Hle.
  - discriminate.
  - destruct fuel' as [|fuel']; [lia |]. simpl in *.
    destruct (kd_step kdtree geoms r s) as [[s1|s1]|]; simpl in *;
      [| done | done].
    apply IH; [done | lia].
Qed.

Lemma kd_seg_trans B s s1 out :
  kd_seg kdtree geoms r B s (Continue s1) ->
  kd_seg kdtree geoms r B s1 out ->
  kd_seg kdtree geoms r B s out.
Proof.
  intros Hseg. remember (Continue s1) as mid eqn:Hmid.
  induction Hseg as [s mid Hb Hstep | s s2 mid Hb Hstep Hseg IH]; intros Hrest.
  - subst mid. eapply kd_seg_more; eauto.
  - eapply kd_seg_more; eauto.
Qed.

Lemma kd_seg_loop B s s' :
  kd_seg kdtree geoms r B s (Break s') ->
  exists fuel, kd_loop fuel kdtree geoms r s = Ok s'.
Proof.
  intros Hseg. remember (Break s') as out eqn:Hout.
  induction Hseg as [s out Hb Hstep | s s1 out Hb Hstep Hseg IH].
  - exists 1%nat. simpl. rewrite Hstep. subst out. done.
  - destruct (IH Hout) as [fuel Hrun].
    exists (S fuel). simpl. rewrite Hstep. simpl. done.
Qed.

Lemma kd_seg_bounds B s s' s2 :
  kd_seg kdtree geoms r B s (Break s') ->
  kd_reaches kdtree geoms r s s2 ->
  0 <= toVisitOffset s2 <= B.
Proof.
  intros Hseg Hreach. revert Hseg.
  induction Hreach as [s | s s1 s2 Hstep Hreach IH]; intros Hseg.
  - inversion Hseg; done.
  - inversion Hseg as [? ? Hb Hstep' | ? s1' ? Hb Hstep' Hrest]; subst.
    + congruence.
    + apply IH. congruence.
Qed.

Lemma testRange_total test offset n : forall i l,
  Z.of_nat (length geoms) < 2 ^ 31 ->
  0 <= offset -> 0 <= i ->
  offset + i + Z.of_nat n <= Z.of_nat (length geoms) ->
  exists l', testRange test geoms r offset i n l = Ok l'.
Proof.
  induction n as [|n IH]; intros i l Hsmall Hoff Hi Hlen; simpl.
  - eauto.
  - rewrite wrap32_small by lia.
    destruct (lookup_lt_is_Some_2 geoms (Z.to_nat (offset + i))) as [g Hg]; [lia |].
    assert (Hrd : rd geoms (offset + i) = Ok g) by (apply rd_Ok; split; [lia | done]).
    rewrite Hrd. simpl. apply IH; lia.
Qed.

(* leaving a node by the stack *)
Lemma kd_pop_exit (s : KDState F) l :
  0 <= toVisitOffset s <= Z.of_nat (length (nodesToVisit s)) ->
  toVisitOffset s < 2 ^ 31 ->
  exists out, kd_pop s l = Ok out /\ kd_exit s out.
Proof.
  intros Hoff Hsmall. unfold kd_pop, kd_exit.
  destruct (Z.eqb_spec (toVisitOffset s) 0) as [Hz|Hnz].
  - eexists. split; [done |]. eauto.
  - rewrite wrap32_small by lia.
    destruct (lookup_lt_is_Some_2 (nodesToVisit s) (Z.to_nat (toVisitOffset s - 1)))
      as [x Hx]; [lia |].
    assert (Hrd : rd (nodesToVisit s) (toVisitOffset s - 1) = Ok x)
      by (apply rd_Ok; split; [lia | done]).
    rewrite Hrd. simpl. eexists. split; [done |].
    eexists. split; [done |]. simpl. repeat split; done.
Qed.

Lemma kd_depth_nonneg (shape : KDShape) : 0 <= kd_depth shape.
Proof. induction shape; simpl; lia. Qed.

(* Entered with [off] entries on the stack, a subtree of depth [h] uses
   the slots [off .. off + h - 1] and leaves by the stack. *)
Lemma kd_subtree B shape : forall i (s : KDState F),
  Z.of_nat (length kdtree) < 2 ^ 31 ->
  Z.of_nat (length geoms) < 2 ^ 31 ->
  kd_wf kdtree (Z.of_nat (length geoms)) shape i ->
  currentNodeIndex s = i ->
  length (nodesToVisit s) = Z.to_nat nodesToVisit_capacity ->
  0 <= toVisitOffset s ->
  toVisitOffset s + kd_depth shape <= B ->
  B <= nodesToVisit_capacity ->
  exists out, kd_seg kdtree geoms r B s out /\ kd_exit s out.
Proof.
  unfold nodesToVisit_capacity.
  induction shape as [|near IHnear far IHfar];
    intros i s Hkd Hgeoms Hwf Hcur Hlen Hoff Hfit HB; simpl in Hwf, Hfit.
  - destruct Hwf as (node & Hrd & Hn & Hpo & Hrange).
    assert (Hpop : forall l, exists out, kd_pop s l = Ok out /\ kd_exit s out).
    { intros l. apply kd_pop_exit; rewrite ?Hlen; lia. }
    assert (Hstep : exists out, kd_step kdtree geoms r s = Ok out /\ kd_exit s out).
    { unfold kd_step. rewrite Hcur, Hrd. simpl.
      destruct (negb _); [| apply Hpop].
      destruct (Z.ltb_spec 0 (nPrimitives node)); [| lia].
      destruct (testRange_total testPrimitiveKD (primitivesOffset node)
                  (Z.to_nat (nPrimitives node)) 0 (locals s)) as [l' Hl'];
        [lia .. |].
      rewrite Hl'. simpl. apply Hpop. }
    destruct Hstep as (out & Hstep & Hexit).
    exists out. split; [| done].
    apply kd_seg_last; [lia | done].
  - destruct Hwf as (node & Hrd & Hn & Hnear & Hfar).
    pose proof (kd_depth_nonneg near) as Hdn.
    pose proof (kd_depth_nonneg far) as Hdf.
    assert (Hi : 0 <= i < Z.of_nat (length kdtree)).
    { apply rd_Ok in Hrd as [Hi Hlk]. apply lookup_lt_Some in Hlk. lia. }
    destruct (negb (feqb (boundsIntersectionTest (bounds node) r) (flit (-1) 1)))
      eqn:Hhit.
    + (* the ray meets the bounds: push the far child, go to the near one *)
      set (s1 := {| toVisitOffset := toVisitOffset s + 1;
                    currentNodeIndex := i + 1;
                    nodesToVisit :=
                      <[Z.to_nat (toVisitOffset s) := secondChildOffset node]>
                        (nodesToVisit s);
                    locals := locals s |}).
      assert (Hstep : kd_step kdtree geoms r s = Ok (Continue s1)).
      { unfold kd_step. rewrite Hcur, Hrd. simpl. rewrite Hhit.
        destruct (Z.ltb_spec 0 (nPrimitives node)); [lia |].
        unfold kd_push.
        assert (Hw : wr (nodesToVisit s) (toVisitOffset s) (secondChildOffset node)
                     = Ok (nodesToVisit s1)).
        { apply wr_Ok. rewrite Hlen. split; [lia | done]. }
        rewrite Hw. simpl. rewrite Hcur, !wrap32_small by lia. done. }
      destruct (IHnear (i + 1) s1) as (out1 & Hseg1 & Hexit1);
        [done | done | done | done | | simpl; lia | simpl; lia | lia |].
      { simpl. rewrite length_insert. done. }
      unfold kd_exit in Hexit1. simpl in Hexit1.
      destruct (Z.eqb_spec (toVisitOffset s + 1) 0) as [|_]; [lia |].
      destruct Hexit1 as (s2 & -> & Hoff2 & Hcur2 & Hlen2 & Hsame2).
      replace (toVisitOffset s + 1 - 1) with (toVisitOffset s) in * by lia.
      assert (Hsec : currentNodeIndex s2 = secondChildOffset node).
      { apply rd_Ok in Hcur2 as [_ Hlk].
        rewrite list_lookup_insert_eq in Hlk by lia. congruence. }
      rewrite length_insert in Hlen2.
      destruct (IHfar (secondChildOffset node) s2) as (out2 & Hseg2 & Hexit2);
        [done | done | done | done | lia | lia | lia | lia |].
      exists out2. split.
      * eapply kd_seg_more; [lia | exact Hstep |].
        eapply kd_seg_trans; [exact Hseg1 | exact Hseg2].
      * unfold kd_exit in *. rewrite Hoff2 in Hexit2.
        destruct (Z.eqb_spec (toVisitOffset s) 0) as [|Hnz]; [done |].
        destruct Hexit2 as (s3 & -> & Hoff3 & Hcur3 & Hlen3 & Hsame3).
        exists s3. split; [done |]. split; [done |].
        assert (Hbelow : forall k, Z.of_nat k < toVisitOffset s ->
                           nodesToVisit s2 !! k = nodesToVisit s !! k).
        { intros k Hk. rewrite Hsame2 by lia.
          apply list_lookup_insert_ne. lia. }
        split; [| split].
        -- apply rd_Ok in Hcur3 as [Hge Hlk]. apply rd_Ok. split; [done |].
           rewrite <- Hbelow by lia. done.
        -- congruence.
        -- intros k Hk. rewrite Hsame3 by done. apply Hbelow. done.
    + (* the ray misses the bounds: leave by the stack *)
      destruct (kd_pop_exit s (locals s)) as (out & Hpop & Hexit);
        [rewrite Hlen; lia | lia |].
      exists out. split; [| done].
      apply kd_seg_last; [lia |].
      unfold kd_step. rewrite Hcur, Hrd. simpl. rewrite Hhit. done.
Qed.

End Traversal.

(** C8.  For every ray and every well-formed flattened tree whose depth is
    below the capacity of the traversal stack (64), the iterative traversal
    terminates, and every state of the loop has its stack offset inside
    [0, 64): every push writes an in-bounds slot of nodesToVisit. *)
Theorem kd_traversal_stack_safe {F : Type} `{Externals F}
    (kdtree : list LinearKDNode) (geoms : list (Geom F)) (r : Ray F)
    (shape : KDShape) :
  well_formed_kdtree kdtree geoms shape ->
  kd_depth shape < nodesToVisit_capacity ->
  (exists fuel st, kd_loop fuel kdtree geoms r kd_init = Ok st) /\
  (forall s, kd_reaches kdtree geoms r kd_init s ->
             0 <= toVisitOffset s < nodesToVisit_capacity).
Proof.
  intros (Hwf & Hkd & Hgeoms) Hdepth.
  assert (Hsub : exists out, kd_seg kdtree geoms r (kd_depth shape) kd_init out /\
                             kd_exit kd_init out).
  { apply (kd_subtree kdtree geoms r (kd_depth shape) shape 0 kd_init);
      simpl; rewrite ?length_replicate; solve [done | lia]. }
  destruct Hsub as (out & Hseg & Hexit).
  - unfold kd_exit in Hexit. simpl in Hexit. destruct Hexit as [st ->].
    split.
    + destruct (kd_seg_loop _ _ _ _ _ _ Hseg) as [fuel Hrun]. eauto.
    + intros s Hreach.
      pose proof (kd_seg_bounds _ _ _ _ _ _ _ Hseg Hreach). lia.
Qed.

Lemma kd_traversal_stack_safe_witness :
  (exists fuel st,
      kd_loop fuel Scenes.small_tree Scenes.small_geoms Scenes.ray_up kd_init = Ok st) /\
  (forall s, kd_reaches Scenes.small_tree Scenes.small_geoms Scenes.ray_up kd_init s ->
             0 <= toVisitOffset s < nodesToVisit_capacity).
Proof.
  apply (kd_traversal_stack_safe Scenes.small_tree Scenes.small_geoms Scenes.ray_up
           (KDInterior KDLeaf KDLeaf)).
  - split; [| split; reflexivity].
    simpl. eexists. split; [reflexivity |]. split; [simpl; lia |]. split.
    + eexists. split; [reflexivity |]. simpl. lia.
    + eexists. split; [reflexivity |]. simpl. lia.
  - reflexivity.
Defined.

(** ** Ray generation *)

Section Generate.
Context {F : Type} `{Externals F}.

Lemma threads2d_ge (n : Z) : 0 <= n < 2 ^ 31 -> n <= threads2d n.
Proof.
  intros Hn. unfold threads2d, to_unsigned.
  rewrite Z.mod_small by lia.
  pose proof (Z.div_mod (n + 8 - 1) 8 ltac:(lia)).
  pose proof (Z.mod_pos_bound (n + 8 - 1) 8 ltac:(lia)). lia.
Qed.

Lemma pixelcount_of_valid (cam : Camera F) :
  valid_resolution cam ->
  pixelcount_of cam = resolution_x cam * resolution_y cam.
Proof.
  intros (Hx & Hy & Hxy). unfold pixelcount_of. apply wrap32_small. nia.
Qed.

(* a thread outside the image does nothing *)
Lemma generateRayFromCamera_thread_outside cam iter td x y paths :
  resolution_x cam <= x \/ resolution_y cam <= y ->
  generateRayFromCamera_thread cam iter td x y paths = Ok paths.
Proof.
  intros Hout. unfold generateRayFromCamera_thread.
  destruct (Z.ltb_spec x (resolution_x cam));
    destruct (Z.ltb_spec y (resolution_y cam)); simpl; try done; lia.
Qed.

(* a thread inside the image fills the slot x + y * width *)
Lemma generateRayFromCamera_thread_inside cam iter td x y paths :
  valid_resolution cam ->
  0 <= x < resolution_x cam -> 0 <= y < resolution_y cam ->
  Z.of_nat (length paths) = resolution_x cam * resolution_y cam ->
  exists p,
    generateRayFromCamera_thread cam iter td x y paths
    = Ok (<[Z.to_nat (x + y * resolution_x cam) := p]> paths) /\
    camera_path cam td (x + y * resolution_x cam) p.
Proof.
  intros (Hw & Hh & Hwh) Hx Hy Hlen. unfold generateRayFromCamera_thread.
  destruct (Z.ltb_spec x (resolution_x cam)); [| lia].
  destruct (Z.ltb_spec y (resolution_y cam)); [| lia]. simpl.
  assert (Hidx : 0 <= x + y * resolution_x cam < resolution_x cam * resolution_y cam)
    by nia.
  rewrite (wrap32_small (y * resolution_x cam)) by nia.
  rewrite (wrap32_small (x + y * resolution_x cam)) by lia.
  destruct (lookup_lt_is_Some_2 paths (Z.to_nat (x + y * resolution_x cam)))
    as [p0 Hp0]; [lia |].
  assert (Hrd : rd paths (x + y * resolution_x cam) = Ok p0)
    by (apply rd_Ok; split; [lia | done]).
  rewrite Hrd. simpl.
  destruct (u01 (makeSeededRandomEngine iter (x + y * resolution_x cam) 0))
    as [j1 rng1].
  destruct (u01 rng1) as [j2 rng2].
  eexists. split.
  - apply wr_Ok. split; [lia | reflexivity].
  - repeat split.
Qed.

(* one row of threads *)
Lemma generateRayFromCamera_row cam iter td nx y paths :
  valid_resolution cam ->
  resolution_x cam <= nx ->
  0 <= y < resolution_y cam ->
  Z.of_nat (length paths) = resolution_x cam * resolution_y cam ->
  camera_paths cam td (resolution_x cam * y) paths ->
  exists paths',
    launch nx (fun x s => generateRayFromCamera_thread cam iter td x y s) paths
    = Ok paths' /\
    Z.of_nat (length paths') = resolution_x cam * resolution_y cam /\
    camera_paths cam td (resolution_x cam * (y + 1)) paths'.
Proof.
  intros Hvalid Hnx Hy Hlen Hdone.
  pose proof Hvalid as (Hw & Hh & Hwh).
  set (I := fun (x : Z) (s : list (PathSegment F)) =>
              Z.of_nat (length s) = resolution_x cam * resolution_y cam /\
              camera_paths cam td
                (resolution_x cam * y + Z.min x (resolution_x cam)) s).
  destruct (launch_from_total I
              (fun x s => generateRayFromCamera_thread cam iter td x y s)
              (Z.to_nat nx) 0 paths) as (paths' & Hrun & Hlen' & Hdone').
  - split; [done |]. replace (Z.min 0 (resolution_x cam)) with 0 by lia.
    replace (resolution_x cam * y + 0) with (resolution_x cam * y) by lia. done.
  - intros x s Hx [Hls Hs].
    destruct (Z.lt_ge_cases x (resolution_x cam)) as [Hin|Hout].
    + destruct (generateRayFromCamera_thread_inside cam iter td x y s)
        as (p & Hthread & Hp); [done | lia | done | done |].
      eexists. split; [exact Hthread |]. split.
      * rewrite length_insert. done.
      * intros k Hk.
        destruct (decide (Z.of_nat k = x + y * resolution_x cam)) as [Heq|Hne].
        -- exists p. split.
           ++ replace (Z.to_nat (x + y * resolution_x cam)) with k by lia.
              apply list_lookup_insert_eq. nia.
           ++ rewrite Heq. done.
        -- destruct (Hs k) as (q & Hq & Hcq); [lia |].
           exists q. split; [| done].
           rewrite list_lookup_insert_ne by lia. done.
    + exists s. split.
      * apply generateRayFromCamera_thread_outside. lia.
      * split; [done |].
        replace (Z.min (x + 1) (resolution_x cam)) with (Z.min x (resolution_x cam))
          by lia. done.
  - exists paths'. split; [exact Hrun |]. split; [done |].
    replace (resolution_x cam * (y + 1))
      with (resolution_x cam * y + Z.min (0 + Z.of_nat (Z.to_nat nx)) (resolution_x cam))
      by lia. done.
Qed.

Lemma generateRayFromCamera_row_outside cam iter td nx y paths :
  resolution_y cam <= y ->
  launch nx (fun x s => generateRayFromCamera_thread cam iter td x y s) paths
  = Ok paths.
Proof.
  intros Hy.
  destruct (launch_from_total (fun _ s => s = paths)
              (fun x s => generateRayFromCamera_thread cam iter td x y s)
              (Z.to_nat nx) 0 paths) as (paths' & Hrun & ->); [done | | done].
  intros x s _ ->. exists paths. split; [| done].
  apply generateRayFromCamera_thread_outside. lia.
Qed.

Lemma generateRayFromCamera_spec (cam : Camera F) iter td (d : Device F) :
  valid_resolution cam ->
  Z.of_nat (length (dev_paths d)) = pixelcount_of cam ->
  exists d',
    generateRayFromCamera cam iter td d = Ok d' /\
    only_paths_changed d d' /\
    camera_paths cam td (pixelcount_of cam) (dev_paths d').
Proof.
  intros Hvalid Hlen. rewrite pixelcount_of_valid in * by done.
  pose proof Hvalid as (Hw & Hh & Hwh).
  unfold generateRayFromCamera, launch2d.
  set (I := fun (y : Z) (s : list (PathSegment F)) =>
              Z.of_nat (length s) = resolution_x cam * resolution_y cam /\
              camera_paths cam td
                (resolution_x cam * Z.min y (resolution_y cam)) s).
  destruct (launch_from_total I
              (fun y s1 =>
                 launch (threads2d (resolution_x cam))
                   (fun x s2 => generateRayFromCamera_thread cam iter td x y s2) s1)
              (Z.to_nat (threads2d (resolution_y cam))) 0 (dev_paths d))
    as (paths' & Hrun & Hlen' & Hdone').
  - split; [done |]. intros k Hk. lia.
  - intros y s Hy [Hls Hs].
    destruct (Z.lt_ge_cases y (resolution_y cam)) as [Hin|Hout].
    + destruct (generateRayFromCamera_row cam iter td
                  (threads2d (resolution_x cam)) y s)
        as (s' & Hrow & Hls' & Hs'); [done | | lia | done | |].
      * apply threads2d_ge. lia.
      * replace (Z.min y (resolution_y cam)) with y in Hs by lia. done.
      * exists s'. split; [exact Hrow |]. split; [done |].
        replace (Z.min (y + 1) (resolution_y cam)) with (y + 1) by lia. done.
    + exists s. split.
      * apply generateRayFromCamera_row_outside. done.
      * split; [done |].
        replace (Z.min (y + 1) (resolution_y cam))
          with (Z.min y (resolution_y cam)) by lia. done.
  - unfold launch at 1. rewrite Hrun. simpl. eexists. split; [done |]. split.
    + repeat split; simpl; try done. lia.
    + simpl.
      pose proof (threads2d_ge (resolution_y cam) ltac:(lia)).
      replace (resolution_x cam * resolution_y cam)
        with (resolution_x cam *
              Z.min (0 + Z.of_nat (Z.to_nat (threads2d (resolution_y cam))))
                (resolution_y cam)) by lia.
      done.
Qed.

End Generate.

(** ** Shading *)

Section Shading.
Context {F : Type} `{Externals F}.

Lemma only_paths_changed_refl (d : Device F) : only_paths_changed d d.
Proof. repeat split. Qed.

Lemma only_paths_changed_trans (d1 d2 d3 : Device F) :
  only_paths_changed d1 d2 -> only_paths_changed d2 d3 ->
  only_paths_changed d1 d3.
Proof.
  unfold only_paths_changed.
  intros (?&?&?&?&?&?&?) (?&?&?&?&?&?&?). repeat split; congruence.
Qed.

Lemma set_paths_same (d : Device F) : set_paths d (dev_paths d) = d.
Proof. destruct d. reflexivity. Qed.

Lemma only_paths_changed_eq (d d' : Device F) :
  only_paths_changed d d' -> dev_paths d' = dev_paths d -> d' = d.
Proof.
  destruct d, d'. unfold only_paths_changed. simpl.
  intros (?&?&?&?&?&?&?) ?. congruence.
Qed.

(* the texture-error branch of the shader: after the colour is forced to
   magenta and the counter to zero, control reaches scatterRay and the
   decrement *)
Lemma shadeHit_texture_error cfg iter index depth
    (intersection : ShadeableIntersection F) (material : Material F)
    textures (p : PathSegment F) :
  fltb fzero (emittance material) = false ->
  textureOffset material = -2 ->
  shadeHit cfg iter index depth intersection material textures p =
  Ok (let q := scatterRay
                 (with_remainingBounces (with_color p magenta) 0)
                 (getPointOnRay (ray p) (t intersection))
                 (surfaceNormal intersection) material
                 (makeSeededRandomEngine iter index depth) in
      with_remainingBounces q (wrap32 (remainingBounces q - 1))).
Proof.
  intros He Ht. unfold shadeHit. rewrite He, Ht. reflexivity.
Qed.

(* a light hit *)
Lemma shadeHit_light cfg iter index depth
    (intersection : ShadeableIntersection F) (material : Material F)
    textures (p : PathSegment F) :
  fltb fzero (emittance material) = true ->
  shadeHit cfg iter index depth intersection material textures p =
  Ok (with_remainingBounces
        (with_color p (vmul (color p)
                         (vscale (matColor material) (emittance material))))
        0).
Proof. intros He. unfold shadeHit. rewrite He. reflexivity. Qed.

Lemma shadeMaterials_thread_outside cfg iter n depth index (d : Device F) :
  n <= index -> shadeMaterials_thread cfg iter n depth index d = Ok d.
Proof.
  intros Hi. unfold shadeMaterials_thread.
  destruct (Z.leb_spec n index); [done | lia].
Qed.

Lemma shadeMaterials_thread_terminated cfg iter n depth (k : nat) (d : Device F) p :
  dev_paths d !! k = Some p ->
  remainingBounces p = 0 ->
  shadeMaterials_thread cfg iter n depth (Z.of_nat k) d = Ok d.
Proof.
  intros Hp Hrb. unfold shadeMaterials_thread.
  destruct (n <=? Z.of_nat k); [done |].
  rewrite (rd_lookup _ _ _ Hp). simpl. rewrite Hrb. done.
Qed.

Lemma shadeMaterials_thread_light cfg iter n depth (k : nat) (d : Device F)
    p intersection material :
  Z.of_nat k < n ->
  dev_paths d !! k = Some p ->
  remainingBounces p <> 0 ->
  dev_intersections d !! k = Some intersection ->
  fltb fzero (t intersection) = true ->
  rd (dev_materials d) (materialId intersection) = Ok material ->
  fltb fzero (emittance material) = true ->
  shadeMaterials_thread cfg iter n depth (Z.of_nat k) d =
  Ok (set_paths d
        (<[k := with_remainingBounces
                  (with_color p (vmul (color p)
                                   (vscale (matColor material) (emittance material))))
                  0]> (dev_paths d))).
Proof.
  intros Hk Hp Hrb Hi Ht Hm He. unfold shadeMaterials_thread.
  destruct (Z.leb_spec n (Z.of_nat k)); [lia |].
  rewrite (rd_lookup _ _ _ Hp). simpl.
  destruct (Z.eqb_spec (remainingBounces p) 0); [done |].
  rewrite (rd_lookup _ _ _ Hi). simpl. rewrite Ht, Hm. simpl.
  rewrite shadeHit_light by done. simpl.
  rewrite wr_in_range by (eapply lookup_lt_Some, Hp). done.
Qed.

(* the kernel, when every thread below [n] replaces its path by [g] of it *)
Lemma shadeMaterials_pointwise cfg iter n depth (d : Device F)
    (g : nat -> PathSegment F -> PathSegment F) :
  0 <= n <= Z.of_nat (length (dev_paths d)) ->
  (forall (k : nat) d' p,
      Z.of_nat k < n -> only_paths_changed d d' ->
      dev_paths d !! k = Some p -> dev_paths d' !! k = Some p ->
      shadeMaterials_thread cfg iter n depth (Z.of_nat k) d'
      = Ok (set_paths d' (<[k := g k p]> (dev_paths d')))) ->
  exists d',
    shadeMaterials cfg iter n depth d = Ok d' /\
    only_paths_changed d d' /\
    (forall (k : nat) p, Z.of_nat k < n -> dev_paths d !! k = Some p ->
                         dev_paths d' !! k = Some (g k p)) /\
    (forall k : nat, n <= Z.of_nat k -> dev_paths d' !! k = dev_paths d !! k).
Proof.
  intros Hn Hthread. unfold shadeMaterials, launch.
  set (I := fun (j : Z) (d' : Device F) =>
              only_paths_changed d d' /\
              (forall (k : nat) p, Z.of_nat k < Z.min j n ->
                                   dev_paths d !! k = Some p ->
                                   dev_paths d' !! k = Some (g k p)) /\
              (forall k : nat, Z.min j n <= Z.of_nat k ->
                               dev_paths d' !! k = dev_paths d !! k)).
  destruct (launch_from_total I (shadeMaterials_thread cfg iter n depth)
              (Z.to_nat (threads1d n)) 0 d) as (d' & Hrun & Hframe & Hdone & Hrest).
  - split; [apply only_paths_changed_refl |]. split; [intros k p Hk; lia | done].
  - intros j d1 Hj (Hframe & Hdone & Hrest).
    destruct (Z.lt_ge_cases j n) as [Hin|Hout].
    + destruct (lookup_lt_is_Some_2 (dev_paths d) (Z.to_nat j)) as [p Hp]; [lia |].
      assert (Hp1 : dev_paths d1 !! Z.to_nat j = Some p)
        by (rewrite Hrest by lia; done).
      pose proof (Hthread (Z.to_nat j) d1 p ltac:(lia) Hframe Hp Hp1) as Hrun.
      rewrite Z2Nat.id in Hrun by lia.
      eexists. split; [exact Hrun |]. split; [| split].
      * eapply only_paths_changed_trans; [exact Hframe |].
        repeat split. simpl. apply length_insert.
      * intros k q Hk Hq. simpl.
        destruct (decide (k = Z.to_nat j)) as [->|Hne].
        -- rewrite list_lookup_insert_eq by (eapply lookup_lt_Some, Hp1).
           congruence.
        -- rewrite list_lookup_insert_ne by done. apply Hdone; [lia | done].
      * intros k Hk. simpl. rewrite list_lookup_insert_ne by lia.
        apply Hrest. lia.
    + exists d1. split; [apply shadeMaterials_thread_outside; done |].
      split; [done |]. split.
      * intros k p Hk. apply Hdone. lia.
      * intros k Hk. apply Hrest. lia.
  - pose proof (threads1d_ge n ltac:(lia)).
    exists d'. split; [done |]. split; [done |]. split.
    + intros k p Hk. apply Hdone. lia.
    + intros k Hk. apply Hrest. lia.
Qed.

(* when no path of the range has bounces left the kernel changes nothing *)
Lemma shadeMaterials_all_terminated cfg iter n depth (d : Device F) :
  0 <= n <= Z.of_nat (length (dev_paths d)) ->
  (forall (k : nat) p, Z.of_nat k < n -> dev_paths d !! k = Some p ->
                       remainingBounces p = 0) ->
  shadeMaterials cfg iter n depth d = Ok d.
Proof.
  intros Hn Hall.
  destruct (shadeMaterials_pointwise cfg iter n depth d (fun _ p => p))
    as (d' & Hrun & Hframe & Hdone & Hrest); [done | |].
  - intros k d' p Hk Hframe Hp Hp'.
    rewrite (shadeMaterials_thread_terminated _ _ _ _ _ _ p) by eauto.
    rewrite list_insert_id by done. rewrite set_paths_same. done.
  - rewrite Hrun. f_equal. apply only_paths_changed_eq; [done |].
    apply list_eq. intros k.
    destruct (Z.lt_ge_cases (Z.of_nat k) n) as [Hin|Hout].
    + destruct (lookup_lt_is_Some_2 (dev_paths d) k) as [p Hp]; [lia |].
      rewrite Hp. eauto.
    + apply Hrest. done.
Qed.

End Shading.

(** ** Compaction and the final gather *)

Section CompactGather.
Context {F : Type} `{Externals F}.

Lemma rayDeath_false (p : PathSegment F) :
  rayDeath p = false <-> remainingBounces p <= 0.
Proof. unfold rayDeath. destruct (Z.ltb_spec 0 (remainingBounces p)); split; (done || lia). Qed.

Lemma rayDeath_true (p : PathSegment F) :
  rayDeath p = true <-> 0 < remainingBounces p.
Proof. unfold rayDeath. destruct (Z.ltb_spec 0 (remainingBounces p)); split; (done || lia). Qed.

Lemma compact_spec n (d : Device F) :
  partition_contract thrust_partition ->
  0 <= n <= Z.of_nat (length (dev_paths d)) ->
  forall d' k, compact n d = (d', k) ->
    only_paths_changed d d' /\
    0 <= k <= n /\
    take (Z.to_nat n) (dev_paths d') ≡ₚ take (Z.to_nat n) (dev_paths d) /\
    drop (Z.to_nat n) (dev_paths d') = drop (Z.to_nat n) (dev_paths d) /\
    Forall (fun p => 0 < remainingBounces p) (take (Z.to_nat k) (dev_paths d')) /\
    Forall (fun p => remainingBounces p <= 0)
      (drop (Z.to_nat k) (take (Z.to_nat n) (dev_paths d'))).
Proof.
  intros Hpart Hn d' k. unfold compact.
  specialize (Hpart rayDeath (take (Z.to_nat n) (dev_paths d))).
  destruct (thrust_partition rayDeath (take (Z.to_nat n) (dev_paths d)))
    as [live k'].
  destruct Hpart as (Hperm & Hk & Hlive & Hdead).
  intros [= <- <-]. simpl.
  assert (Hlen : length live = Z.to_nat n).
  { rewrite (Permutation_length Hperm), length_take. lia. }
  rewrite length_take in Hk.
  assert (Htake : take (Z.to_nat n) (live ++ drop (Z.to_nat n) (dev_paths d)) = live).
  { rewrite take_app_le by lia. apply take_ge. lia. }
  split; [| split; [| split; [| split; [| split]]]].
  - repeat split. simpl. rewrite length_app, length_drop. lia.
  - lia.
  - rewrite Htake. done.
  - rewrite drop_app_ge by lia. rewrite Hlen, Nat.sub_diag. done.
  - rewrite take_app_le by lia.
    eapply Forall_impl; [exact Hlive |]. intros p. apply rayDeath_true.
  - rewrite Htake.
    eapply Forall_impl; [exact Hdead |]. intros p. apply rayDeath_false.
Qed.

(* when no path of the range is alive, compaction reports an empty range *)
Lemma compact_all_dead n (d : Device F) :
  partition_contract thrust_partition ->
  0 <= n <= Z.of_nat (length (dev_paths d)) ->
  Forall (fun p => remainingBounces p <= 0) (take (Z.to_nat n) (dev_paths d)) ->
  forall d' k, compact n d = (d', k) -> k = 0.
Proof.
  intros Hpart Hn Hdead d' k Hc.
  destruct (compact_spec n d Hpart Hn d' k Hc)
    as (_ & Hk & Hperm & _ & Hlive & _).
  destruct (Z.eq_dec k 0) as [|Hnz]; [done |]. exfalso.
  destruct (lookup_lt_is_Some_2 (take (Z.to_nat k) (dev_paths d')) 0) as [p Hp].
  { rewrite length_take.
    pose proof (Permutation_length Hperm) as Hl. rewrite !length_take in Hl. lia. }
  pose proof (Forall_lookup_1 _ _ _ _ Hlive Hp) as Hpos. simpl in Hpos.
  assert (Hin : p ∈ take (Z.to_nat n) (dev_paths d)).
  { rewrite <- Hperm. apply list_elem_of_lookup. exists 0%nat.
    rewrite lookup_take_lt in Hp by lia. rewrite lookup_take_lt by lia. done. }
  rewrite Forall_forall in Hdead. specialize (Hdead p Hin). simpl in Hdead. lia.
Qed.

Lemma only_image_changed_refl (d : Device F) : only_image_changed d d.
Proof. repeat split. Qed.

Lemma only_image_changed_trans (d1 d2 d3 : Device F) :
  only_image_changed d1 d2 -> only_image_changed d2 d3 ->
  only_image_changed d1 d3.
Proof.
  unfold only_image_changed.
  intros (?&?&?&?&?&?&?) (?&?&?&?&?&?&?). repeat split; congruence.
Qed.

(* Each path adds its colour to the pixel it names; the pixel indices of
   the paths are pairwise different, so each pixel receives one term. *)
Lemma finalGather_spec n (d : Device F) :
  Z.of_nat (length (dev_paths d)) = n ->
  Z.of_nat (length (dev_image d)) = n ->
  (forall (k : nat) p, dev_paths d !! k = Some p -> 0 <= pixelIndex p < n) ->
  (forall (k1 k2 : nat) p1 p2,
      dev_paths d !! k1 = Some p1 -> dev_paths d !! k2 = Some p2 ->
      pixelIndex p1 = pixelIndex p2 -> k1 = k2) ->
  exists d',
    finalGather n n d = Ok d' /\
    only_image_changed d d' /\
    (forall (k : nat) p px,
        dev_paths d !! k = Some p ->
        dev_image d !! Z.to_nat (pixelIndex p) = Some px ->
        dev_image d' !! Z.to_nat (pixelIndex p) = Some (vadd px (color p))) /\
    (forall i : nat,
        (forall (k : nat) p, dev_paths d !! k = Some p ->
                             Z.to_nat (pixelIndex p) <> i) ->
        dev_image d' !! i = dev_image d !! i).
Proof.
  intros Hlp Hli Hrange Hinj. unfold finalGather, launch.
  set (I := fun (j : Z) (d' : Device F) =>
              only_image_changed d d' /\
              (forall (k : nat) p px,
                  dev_paths d !! k = Some p ->
                  dev_image d !! Z.to_nat (pixelIndex p) = Some px ->
                  dev_image d' !! Z.to_nat (pixelIndex p)
                  = Some (if Z.of_nat k <? j then vadd px (color p) else px)) /\
              (forall i : nat,
                  (forall (k : nat) p, dev_paths d !! k = Some p ->
                                       Z.to_nat (pixelIndex p) <> i) ->
                  dev_image d' !! i = dev_image d !! i)).
  destruct (launch_from_total I (finalGather_thread n)
              (Z.to_nat (threads1d n)) 0 d) as (d' & Hrun & Hframe & Hdone & Hrest).
  - split; [apply only_image_changed_refl |]. split; [| done].
    intros k p px Hp Hpx. destruct (Z.ltb_spec (Z.of_nat k) 0); [lia | done].
  - intros j d1 Hj (Hframe & Hdone & Hrest).
    pose proof Hframe as (_ & _ & Hpaths & _ & _ & _ & Hlen1).
    unfold finalGather_thread.
    destruct (Z.ltb_spec j n) as [Hin|Hout].
    + destruct (lookup_lt_is_Some_2 (dev_paths d) (Z.to_nat j)) as [p Hp]; [lia |].
      pose proof (Hrange _ _ Hp) as Hpi.
      destruct (lookup_lt_is_Some_2 (dev_image d) (Z.to_nat (pixelIndex p)))
        as [px Hpx]; [lia |].
      pose proof (Hdone _ _ _ Hp Hpx) as Hpx1.
      destruct (Z.ltb_spec (Z.of_nat (Z.to_nat j)) j); [lia |].
      assert (Hrdp : rd (dev_paths d1) j = Ok p)
        by (apply rd_Ok; rewrite Hpaths; split; [lia | done]).
      assert (Hrdi : rd (dev_image d1) (pixelIndex p) = Ok px)
        by (apply rd_Ok; split; [lia | done]).
      rewrite Hrdp. simpl. rewrite Hrdi. simpl.
      assert (Hw : wr (dev_image d1) (pixelIndex p) (vadd px (color p))
                   = Ok (<[Z.to_nat (pixelIndex p) := vadd px (color p)]>
                           (dev_image d1)))
        by (apply wr_Ok; split; [lia | done]).
      rewrite Hw. simpl. eexists. split; [done |]. split; [| split].
      * eapply only_image_changed_trans; [exact Hframe |].
        repeat split. simpl. apply length_insert.
      * intros k q qx Hq Hqx. simpl.
        destruct (decide (k = Z.to_nat j)) as [->|Hne].
        -- assert (q = p) by congruence. subst q.
           assert (qx = px) by congruence. subst qx.
           rewrite list_lookup_insert_eq by lia.
           destruct (Z.ltb_spec (Z.of_nat (Z.to_nat j)) (j + 1)); [done | lia].
        -- assert (Hpi' : pixelIndex q <> pixelIndex p).
           { intros Heq. apply Hne. eapply Hinj; eauto. }
           pose proof (Hrange _ _ Hq).
           rewrite list_lookup_insert_ne by lia.
           rewrite (Hdone _ _ _ Hq Hqx).
           destruct (Z.ltb_spec (Z.of_nat k) j);
             destruct (Z.ltb_spec (Z.of_nat k) (j + 1)); (done || lia).
      * intros i Hi. simpl.
        rewrite list_lookup_insert_ne by (eapply Hi, Hp).
        apply Hrest. done.
    + exists d1. split; [done |]. split; [done |]. split; [| done].
      intros k q qx Hq Hqx. rewrite (Hdone _ _ _ Hq Hqx).
      apply lookup_lt_Some in Hq.
      destruct (Z.ltb_spec (Z.of_nat k) j);
        destruct (Z.ltb_spec (Z.of_nat k) (j + 1)); (done || lia).
  - exists d'. split; [done |]. split; [done |]. split; [| done].
    intros k p px Hp Hpx. rewrite (Hdone _ _ _ Hp Hpx).
    pose proof (lookup_lt_Some _ _ _ Hp).
    assert (0 <= n) by lia.
    pose proof (threads1d_ge n ltac:(lia)).
    destruct (Z.ltb_spec (Z.of_nat k) (0 + Z.of_nat (Z.to_nat (threads1d n))));
      (done || lia).
Qed.

End CompactGather.

(** ** One iteration that ends after its first bounce *)

Section Iteration.
Context {F : Type} `{Externals F}.

Lemma shadeMaterials_thread_frame cfg iter n depth i (d d' : Device F) :
  shadeMaterials_thread cfg iter n depth i d = Ok d' -> only_paths_changed d d'.
Proof.
  unfold shadeMaterials_thread.
  destruct (n <=? i); [intros [= <-]; apply only_paths_changed_refl |].
  intros Hrun. apply bind_Ok in Hrun as (p & _ & Hrun).
  destruct (remainingBounces p =? 0);
    [injection Hrun as <-; apply only_paths_changed_refl |].
  apply bind_Ok in Hrun as (isect & _ & Hrun).
  destruct (fltb fzero (t isect)).
  - apply bind_Ok in Hrun as (m & _ & Hrun).
    apply bind_Ok in Hrun as (p' & _ & Hrun).
    apply bind_Ok in Hrun as (a & Hw & [= <-]).
    repeat split. simpl. eapply wr_length, Hw.
  - apply bind_Ok in Hrun as (a & Hw & [= <-]).
    repeat split. simpl. eapply wr_length, Hw.
Qed.

Lemma shadeMaterials_frame cfg iter n depth (d d' : Device F) :
  shadeMaterials cfg iter n depth d = Ok d' -> only_paths_changed d d'.
Proof.
  unfold shadeMaterials, launch.
  apply (launch_from_preserves (only_paths_changed d)).
  - intros i s s' Hs Hrun. eapply only_paths_changed_trans; [exact Hs |].
    eapply shadeMaterials_thread_frame, Hrun.
  - apply only_paths_changed_refl.
Qed.

Lemma clear_intersections_frame n (d d' : Device F) :
  0 <= n ->
  clear_intersections n d = Ok d' -> only_intersections_changed d d'.
Proof.
  intros Hn. unfold clear_intersections.
  destruct (Z.ltb_spec (Z.of_nat (length (dev_intersections d))) n); [done |].
  intros [= <-]. apply set_intersections_frame.
  rewrite length_app, length_replicate, length_drop. lia.
Qed.

Lemma clear_intersections_runs n (d : Device F) :
  n <= Z.of_nat (length (dev_intersections d)) ->
  exists d', clear_intersections n d = Ok d'.
Proof.
  intros Hn. unfold clear_intersections.
  destruct (Z.ltb_spec (Z.of_nat (length (dev_intersections d))) n); [lia |].
  eauto.
Qed.

(* The gather over a permutation of the paths [qs], where [qs] holds
   the path of pixel [i] in slot [i]. *)
Lemma finalGather_permuted n (d : Device F) (qs : list (PathSegment F)) :
  dev_paths d ≡ₚ qs ->
  Z.of_nat (length qs) = n ->
  Z.of_nat (length (dev_image d)) = n ->
  (forall (i : nat) q, qs !! i = Some q -> pixelIndex q = Z.of_nat i) ->
  exists d',
    finalGather n n d = Ok d' /\
    only_image_changed d d' /\
    (forall (i : nat) q px,
        qs !! i = Some q -> dev_image d !! i = Some px ->
        dev_image d' !! i = Some (vadd px (color q))).
Proof.
  intros Hperm Hlq Hli Hidx.
  assert (Hnodup : NoDup (pixelIndex <$> qs)).
  { apply NoDup_alt. intros i j x Hi Hj.
    rewrite list_lookup_fmap in Hi, Hj.
    destruct (qs !! i) as [qi|] eqn:Hqi; [| done].
    destruct (qs !! j) as [qj|] eqn:Hqj; [| done].
    simpl in Hi, Hj. injection Hi as Hi. injection Hj as Hj.
    rewrite (Hidx _ _ Hqi) in Hi. rewrite (Hidx _ _ Hqj) in Hj. lia. }
  assert (Hnodup' : NoDup (pixelIndex <$> dev_paths d)).
  { rewrite Hperm. done. }
  destruct (finalGather_spec n d) as (d' & Hrun & Hframe & Hsum & _).
  - rewrite (Permutation_length Hperm). done.
  - done.
  - intros k p Hp.
    assert (Hin : p ∈ qs) by (rewrite <- Hperm; eapply list_elem_of_lookup_2, Hp).
    apply list_elem_of_lookup in Hin as [i Hi].
    rewrite (Hidx _ _ Hi). apply lookup_lt_Some in Hi. lia.
  - intros k1 k2 p1 p2 Hk1 Hk2 Heq.
    eapply (NoDup_lookup _ _ _ _ Hnodup').
    + rewrite list_lookup_fmap, Hk1. reflexivity.
    + rewrite list_lookup_fmap, Hk2. simpl. congruence.
  - exists d'. split; [done |]. split; [done |].
    intros i q px Hq Hpx.
    assert (Hin : q ∈ dev_paths d)
      by (rewrite Hperm; eapply list_elem_of_lookup_2, Hq).
    apply list_elem_of_lookup in Hin as [k Hk].
    pose proof (Hsum k q px Hk) as Hs.
    rewrite (Hidx _ _ Hq), Nat2Z.id in Hs. auto.
Qed.

(* If the first bounce leaves every path terminated, with colour [c]
   and still naming its own pixel, the iteration ends after that bounce
   and adds [c] to every pixel. *)
Lemma pathtrace_single_pass cfg fuel kdfuel (scene : Scene F) iter (d : Device F)
    (c : vec3 F) :
  STREAMCOMP cfg = true -> MATSORT cfg = false ->
  partition_contract thrust_partition ->
  valid_resolution (camera scene) ->
  buffers_sized (camera scene) d ->
  (forall d1,
      generateRayFromCamera (camera scene) iter (traceDepth scene) d = Ok d1 ->
      camera_paths (camera scene) (traceDepth scene)
        (pixelcount_of (camera scene)) (dev_paths d1) ->
      only_paths_changed d d1 ->
      exists d2 d3 d4,
        clear_intersections (pixelcount_of (camera scene)) d1 = Ok d2 /\
        intersect cfg kdfuel scene 0 (pixelcount_of (camera scene)) d2 = Ok d3 /\
        shadeMaterials cfg iter (pixelcount_of (camera scene)) 0 d3 = Ok d4 /\
        forall k : nat, Z.of_nat k < pixelcount_of (camera scene) ->
          exists p, dev_paths d4 !! k = Some p /\ pixelIndex p = Z.of_nat k /\
                    remainingBounces p <= 0 /\ color p = c) ->
  exists d',
    pathtrace cfg (S fuel) kdfuel scene iter d = Ok d' /\
    dev_image d' = (fun px => vadd px c) <$> dev_image d.
Proof.
  intros Hsc Hms Hpart Hvalid (Hli & Hlp & Hlx) Hstage.
  set (n := pixelcount_of (camera scene)) in *.
  assert (Hn : 0 <= n) by (unfold n; rewrite pixelcount_of_valid by done;
                           destruct Hvalid as (? & ? & ?); nia).
  destruct (generateRayFromCamera_spec (camera scene) iter (traceDepth scene) d)
    as (d1 & Hgen & Hf1 & Hcam); [done | done |].
  destruct (Hstage d1 Hgen Hcam Hf1) as (d2 & d3 & d4 & Hclr & Hint & Hsh & Hres).
  pose proof (clear_intersections_frame _ _ _ Hn Hclr) as Hf2.
  pose proof (intersect_frame _ _ _ _ _ _ _ Hint) as Hf3.
  pose proof (shadeMaterials_frame _ _ _ _ _ _ Hsh) as Hf4.
  assert (Himg4 : dev_image d4 = dev_image d).
  { destruct Hf1 as (? & _), Hf2 as (? & _), Hf3 as (? & _), Hf4 as (? & _).
    congruence. }
  assert (Hlen4 : Z.of_nat (length (dev_paths d4)) = n).
  { destruct Hf1 as (_&_&_&_&_&_&?), Hf2 as (_&_&_&?&_), Hf3 as (_&_&_&?&_),
      Hf4 as (_&_&_&_&_&_&?). congruence. }
  destruct (compact n d4) as [d5 k] eqn:Hcompact.
  assert (Hdead : Forall (fun p => remainingBounces p <= 0)
                    (take (Z.to_nat n) (dev_paths d4))).
  { apply Forall_lookup. intros i p Hp.
    apply lookup_take_Some in Hp as [Hp Hi].
    destruct (Hres i) as (q & Hq & _ & Hrb & _); [lia |]. congruence. }
  pose proof (compact_all_dead n d4 Hpart ltac:(lia) Hdead d5 k Hcompact) as ->.
  destruct (compact_spec n d4 Hpart ltac:(lia) d5 0 Hcompact)
    as (Hf5 & _ & Hperm & _ & _ & _).
  assert (Hperm5 : dev_paths d5 ≡ₚ dev_paths d4).
  { destruct Hf5 as (_&_&_&_&_&_&Hl5).
    rewrite !take_ge in Hperm by lia. done. }
  destruct (finalGather_permuted n d5 (dev_paths d4)) as (d6 & Hgather & Hf6 & Hsum).
  - done.
  - done.
  - destruct Hf5 as (? & _). congruence.
  - intros i q Hq. pose proof (lookup_lt_Some _ _ _ Hq).
    destruct (Hres i) as (q' & Hq' & Hpi & _); [lia |]. congruence.
  - exists d6. split.
    + unfold pathtrace. fold n. rewrite Hgen. simpl.
      rewrite Hclr. simpl. rewrite Hint. simpl. rewrite Hms, Hsh. simpl.
      rewrite Hsc, Hcompact. simpl. done.
    + assert (Himg5 : dev_image d5 = dev_image d)
        by (destruct Hf5 as (? & _); congruence).
      apply list_eq. intros i. rewrite list_lookup_fmap.
      destruct (dev_image d !! i) as [px|] eqn:Hpx; simpl.
      * pose proof (lookup_lt_Some _ _ _ Hpx).
        destruct (Hres i) as (q & Hq & _ & _ & Hc); [lia |].
        rewrite (Hsum i q px Hq) by congruence. congruence.
      * apply lookup_ge_None. apply lookup_ge_None in Hpx.
        destruct Hf6 as (_&_&_&_&_&_&Hl6). congruence.
Qed.

End Iteration.

(** ** The sample partition obeys the contract of thrust::partition *)

Lemma stable_partition_contract {A : Type} :
  partition_contract (@Sample.stable_partition A).
Proof.
  intros pred l. unfold Sample.stable_partition.
  assert (Hperm : List.filter pred l ++ List.filter (fun x => negb (pred x)) l ≡ₚ l).
  { induction l as [|x l IH]; simpl; [done |].
    destruct (pred x); simpl.
    - by constructor.
    - rewrite <- Permutation_middle. by constructor. }
  split; [done |]. split.
  - pose proof (Permutation_length Hperm) as Hl. rewrite length_app in Hl. lia.
  - rewrite Nat2Z.id. rewrite take_app_length, drop_app_length. split.
    + apply Forall_forall. intros x Hx.
      apply list_elem_of_In, filter_In in Hx. tauto.
    + apply Forall_forall. intros x Hx.
      apply list_elem_of_In, filter_In in Hx as [_ Hx].
      by destruct (pred x).
Qed.

(** ** A zero bounce budget *)

(** C2, as the code has it.  With a bounce budget of zero the shader skips
    every path, and the gather then adds the throughput the ray generator
    stored, (1,1,1), to every pixel of the image. *)
Theorem zero_budget_adds_initial_throughput {F : Type} `{Externals F}
    (cfg : Config) (fuel kdfuel : nat) (scene : Scene F) (iter : Z) (d : Device F) :
  STREAMCOMP cfg = true -> MATSORT cfg = false ->
  partition_contract thrust_partition ->
  valid_resolution (camera scene) ->
  buffers_sized (camera scene) d ->
  traceDepth scene = 0 ->
  first_intersection_runs cfg kdfuel scene iter d ->
  exists d',
    pathtrace cfg (S fuel) kdfuel scene iter d = Ok d' /\
    dev_image d' = (fun px => vadd px (Vec3 fone fone fone)) <$> dev_image d.
Proof.
  intros Hsc Hms Hpart Hvalid Hsized Htd Hruns.
  apply pathtrace_single_pass; try done.
  intros d1 Hgen Hcam Hf1.
  destruct Hsized as (Hli & Hlp & Hlx).
  set (n := pixelcount_of (camera scene)) in *.
  assert (Hn : 0 <= n) by (unfold n; rewrite pixelcount_of_valid by done;
                           destruct Hvalid as (? & ? & ?); nia).
  destruct (clear_intersections_runs n d1) as [d2 Hclr].
  { destruct Hf1 as (_&_&_&Hx&_). rewrite Hx. lia. }
  destruct (Hruns d1 d2 Hgen Hclr) as [d3 Hint].
  pose proof (clear_intersections_frame _ _ _ Hn Hclr) as Hf2.
  pose proof (intersect_frame _ _ _ _ _ _ _ Hint) as Hf3.
  assert (Hpaths : dev_paths d3 = dev_paths d1).
  { destruct Hf2 as (_&_&_&?&_), Hf3 as (_&_&_&?&_). congruence. }
  assert (Hlen : Z.of_nat (length (dev_paths d3)) = n).
  { rewrite Hpaths. destruct Hf1 as (_&_&_&_&_&_&?). congruence. }
  exists d2, d3, d3. split; [done |]. split; [done |]. split.
  - apply shadeMaterials_all_terminated; [lia |].
    intros k p Hk Hp. rewrite Hpaths in Hp.
    destruct (Hcam k Hk) as (q & Hq & _ & _ & _ & Hrb). congruence.
  - intros k Hk. destruct (Hcam k Hk) as (q & Hq & _ & Hc & Hpi & Hrb).
    exists q. rewrite Hpaths. repeat split; try done. lia.
Qed.

Lemma zero_budget_adds_initial_throughput_witness :
  exists d',
    pathtrace source_config 1 1 (Scenes.two_walls 0) 0
      (pathtraceInit (Scenes.two_walls 0) Scenes.stale) = Ok d' /\
    dev_image d' =
    (fun px => vadd px (Vec3 fone fone fone))
      <$> dev_image (pathtraceInit (Scenes.two_walls 0) Scenes.stale).
Proof.
  apply (zero_budget_adds_initial_throughput source_config 0 1 (Scenes.two_walls 0) 0
           (pathtraceInit (Scenes.two_walls 0) Scenes.stale)).
  - reflexivity.
  - reflexivity.
  - apply stable_partition_contract.
  - vm_compute. intuition discriminate.
  - vm_compute. auto.
  - reflexivity.
  - intros d1 d2 Hgen Hclr.
    vm_compute in Hgen. injection Hgen as <-.
    vm_compute in Hclr. injection Hclr as <-.
    eexists. vm_compute. reflexivity.
Defined.

(** C2, counterexample.  Two pixels, budget zero, image initially black:
    after the iteration the image is not what it was. *)
Lemma zero_budget_iteration_changes_image :
  traceDepth (Scenes.two_walls 0) = 0 /\
  exists d',
    pathtrace source_config 1 1 (Scenes.two_walls 0) 0
      (pathtraceInit (Scenes.two_walls 0) Scenes.stale) = Ok d' /\
    dev_image d' <> dev_image (pathtraceInit (Scenes.two_walls 0) Scenes.stale).
Proof.
  split; [reflexivity |].
  eexists. split; [vm_compute; reflexivity |].
  vm_compute. discriminate.
Qed.

(** ** A light that fills the view *)

Section Emissive.
Context {F : Type} `{Externals F}.

(* the kernel, when every thread below [n] stores a record with [Q] *)
Lemma computeIntersectionsKD_pointwise fuel depth n (d : Device F)
    (Q : nat -> ShadeableIntersection F -> Prop) :
  0 <= n <= Z.of_nat (length (dev_intersections d)) ->
  (forall (k : nat) d',
      Z.of_nat k < n -> only_intersections_changed d d' ->
      exists r,
        computeIntersectionsKD_thread fuel depth n (Z.of_nat k) d'
        = Ok (set_intersections d' (<[k := r]> (dev_intersections d'))) /\ Q k r) ->
  exists d',
    computeIntersectionsKD fuel depth n d = Ok d' /\
    only_intersections_changed d d' /\
    (forall k : nat, Z.of_nat k < n ->
                     exists r, dev_intersections d' !! k = Some r /\ Q k r).
Proof.
  intros Hn Hthread. unfold computeIntersectionsKD, launch.
  set (I := fun (j : Z) (d' : Device F) =>
              only_intersections_changed d d' /\
              (forall k : nat, Z.of_nat k < Z.min j n ->
                               exists r, dev_intersections d' !! k = Some r /\ Q k r)).
  destruct (launch_from_total I (computeIntersectionsKD_thread fuel depth n)
              (Z.to_nat (threads1d n)) 0 d) as (d' & Hrun & Hframe & Hdone).
  - split; [apply only_intersections_changed_refl |]. intros k Hk. lia.
  - intros j d1 Hj (Hframe & Hdone).
    destruct (Z.lt_ge_cases j n) as [Hin|Hout].
    + destruct (Hthread (Z.to_nat j) d1 ltac:(lia) Hframe) as (r & Hrun & HQ).
      rewrite Z2Nat.id in Hrun by lia.
      eexists. split; [exact Hrun |].
      assert (Hlen1 : (Z.to_nat j < length (dev_intersections d1))%nat).
      { destruct Hframe as (_&_&_&_&_&_&Hl). lia. }
      split.
      * eapply only_intersections_changed_trans; [exact Hframe |].
        apply set_intersections_frame, length_insert.
      * intros k Hk. simpl.
        destruct (decide (k = Z.to_nat j)) as [->|Hne].
        -- exists r. split; [| done]. apply list_lookup_insert_eq. done.
        -- rewrite list_lookup_insert_ne by done. apply Hdone. lia.
    + exists d1. split.
      * unfold computeIntersectionsKD_thread.
        destruct (Z.ltb_spec j n); [lia | done].
      * split; [done |]. intros k Hk. apply Hdone. lia.
  - pose proof (threads1d_ge n ltac:(lia)).
    exists d'. split; [done |]. split; [done |].
    intros k Hk. apply Hdone. lia.
Qed.

(* one thread of the accelerated kernel in such a scene *)
Lemma computeIntersectionsKD_thread_sphere fuel depth n (k : nat) (d : Device F)
    (cam_position : vec3 F) g m node p :
  dev_geoms d = [g] -> type g = SPHERE -> materialid g = 0 ->
  dev_materials d = [m] -> normMapOffset m = -1 ->
  dev_kdtree d = [node] -> nPrimitives node = 1 -> primitivesOffset node = 0 ->
  (forall (r : Ray F) (q nrm : vec3 F),
      origin r = cam_position ->
      feqb (boundsIntersectionTest (bounds node) r) (flit (-1) 1) = false /\
      fltb fzero (sphereIntersectionTest g r q nrm).1.1 = true /\
      fltb (sphereIntersectionTest g r q nrm).1.1 FLT_MAX = true) ->
  Z.of_nat k < n ->
  dev_paths d !! k = Some p ->
  origin (ray p) = cam_position ->
  (k < length (dev_intersections d))%nat ->
  exists r,
    computeIntersectionsKD_thread (S fuel) depth n (Z.of_nat k) d
    = Ok (set_intersections d (<[k := r]> (dev_intersections d))) /\
    fltb fzero (t r) = true /\ materialId r = 0.
Proof.
  intros Hg Hty Hmid Hm Hnm Hkd Hnp Hpo Hhit Hk Hp Horigin Hlen.
  unfold computeIntersectionsKD_thread.
  destruct (Z.ltb_spec (Z.of_nat k) n); [| lia].
  rewrite (rd_lookup _ _ _ Hp). cbn [bind].
  destruct (Hhit (ray p) (l_tmp_intersect init_locals) (l_tmp_normal init_locals)
              Horigin) as (Hb & Hpos & Hfin).
  destruct (sphereIntersectionTest g (ray p) (l_tmp_intersect init_locals)
              (l_tmp_normal init_locals)) as [[x px] nx] eqn:Htest.
  simpl in Hpos, Hfin.
  assert (Hloop : exists s,
             kd_loop (S fuel) (dev_kdtree d) (dev_geoms d) (ray p) kd_init = Ok s /\
             l_hit_geom_index (locals s) = 0 /\ l_t_min (locals s) = x).
  { simpl. unfold kd_step. rewrite Hkd, Hg. simpl. rewrite Hb. simpl.
    rewrite Hnp, Hpo. simpl.
    unfold testPrimitiveKD. rewrite Hty, Htest. simpl.
    unfold keep_nearest. simpl. rewrite Hpos, Hfin. simpl.
    eexists. split; [reflexivity |]. simpl. done. }
  destruct Hloop as (s & -> & Hidx & Htmin). cbn [bind].
  destruct (lookup_lt_is_Some_2 (dev_intersections d) k Hlen) as [r0 Hr0].
  rewrite (rd_lookup _ _ _ Hr0). cbn [bind]. rewrite Hidx. simpl.
  rewrite Hg. simpl. rewrite Hmid, Hm. simpl.
  unfold applyNormalMap. rewrite Hnm. simpl.
  rewrite wr_in_range by done. simpl.
  eexists. split; [reflexivity |]. simpl. rewrite Htmin. done.
Qed.

(* The whole iteration in such a scene, when the material is a light:
   every path ends at its first hit with the colour below. *)
Lemma pathtrace_sphere_light cfg fuel kdfuel (scene : Scene F) iter uninit g m node :
  STREAMCOMP cfg = true -> MATSORT cfg = false -> ACCELSTRUCT cfg = true ->
  partition_contract thrust_partition ->
  valid_resolution (camera scene) ->
  traceDepth scene <> 0 ->
  sphere_fills_view scene g m node ->
  fltb fzero (emittance m) = true ->
  exists d',
    pathtrace cfg (S fuel) (S kdfuel) scene iter (pathtraceInit scene uninit) = Ok d' /\
    dev_image d' =
    replicate (Z.to_nat (pixelcount_of (camera scene)))
      (vadd (splat fzero)
         (vmul (Vec3 fone fone fone) (vscale (matColor m) (emittance m)))).
Proof.
  intros Hsc Hms Hacc Hpart Hvalid Htd
    (Hg & Hty & Hmid & Hm & Hnm & Hkd & Hnp & Hpo & Hhit) He.
  set (n := pixelcount_of (camera scene)).
  assert (Hn : 0 <= n) by (unfold n; rewrite pixelcount_of_valid by done;
                           destruct Hvalid as (? & ? & ?); nia).
  set (d := pathtraceInit scene uninit).
  assert (Hsized : buffers_sized (camera scene) d).
  { unfold buffers_sized, d, pathtraceInit. simpl. fold n.
    rewrite !length_replicate. lia. }
  destruct (pathtrace_single_pass cfg fuel (S kdfuel) scene iter d
              (vmul (Vec3 fone fone fone) (vscale (matColor m) (emittance m))))
    as (d' & Hrun & Himg); try done.
  - intros d1 Hgen Hcam Hf1. fold n in Hcam |- *.
    destruct Hsized as (Hli & Hlp & Hlx). fold n in Hli, Hlp, Hlx.
    destruct (clear_intersections_runs n d1) as [d2 Hclr].
    { destruct Hf1 as (_&_&_&Hx&_). rewrite Hx. lia. }
    pose proof (clear_intersections_frame _ _ _ Hn Hclr) as Hf2.
    pose proof Hf1 as (_ & Hg1 & Hm1 & Hx1 & _ & Hk1 & Hl1).
    pose proof Hf2 as (_ & Hg2 & Hm2 & Hp2 & _ & Hk2 & Hl2).
    destruct (computeIntersectionsKD_pointwise (S kdfuel) 0 n d2
                (fun _ r => fltb fzero (t r) = true /\ materialId r = 0))
      as (d3 & Hint & Hf3 & Hrec).
    { rewrite Hl2, Hx1. lia. }
    { intros k d' Hk Hf'.
      pose proof Hf' as (_ & Hg' & Hm' & Hp' & _ & Hk' & Hl').
      destruct (Hcam k Hk) as (p & Hp & Ho & _).
      eapply (computeIntersectionsKD_thread_sphere kdfuel 0 n k d'
                (position (camera scene)) g m node p); try done.
      - rewrite Hg', Hg2, Hg1. done.
      - rewrite Hm', Hm2, Hm1. done.
      - rewrite Hk', Hk2, Hk1. done.
      - rewrite Hp', Hp2. done.
      - rewrite Hl', Hl2, Hx1. lia. }
    pose proof Hf3 as (_ & Hg3 & Hm3 & Hp3 & _ & Hk3 & Hl3).
    destruct (shadeMaterials_pointwise cfg iter n 0 d3
                (fun _ p =>
                   with_remainingBounces
                     (with_color p
                        (vmul (color p) (vscale (matColor m) (emittance m)))) 0))
      as (d4 & Hsh & Hf4 & Hdone & _).
    { rewrite Hp3, Hp2, Hl1. lia. }
    { intros k d' p Hk Hf' Hp Hp'.
      pose proof Hf' as (_ & _ & Hm' & Hx' & _).
      destruct (Hrec k Hk) as (r & Hr & Ht & Hid).
      rewrite Hp3, Hp2 in Hp.
      destruct (Hcam k Hk) as (q & Hq & _ & _ & _ & Hrb).
      apply (shadeMaterials_thread_light cfg iter n 0 k d' p r m); try done.
      - congruence.
      - rewrite Hx'. done.
      - rewrite Hid, Hm', Hm3, Hm2, Hm1. unfold d. simpl. rewrite Hm. done. }
    exists d2, d3, d4. unfold intersect. rewrite Hacc.
    split; [done |]. split; [done |]. split; [done |].
    intros k Hk. destruct (Hcam k Hk) as (q & Hq & _ & Hc & Hpi & _).
    eexists. split.
    + apply Hdone; [done |]. rewrite Hp3, Hp2. exact Hq.
    + simpl. rewrite Hc. repeat split; try done.
  - exists d'. split; [done |]. rewrite Himg. unfold d, pathtraceInit. simpl.
    fold n. rewrite fmap_replicate. done.
Qed.

End Emissive.



(** ** The texture-error branch *)

(** C6, evaluated on the code.  For a hit on a non-emissive material whose
    textureOffset is -2 the shader forces the colour to magenta and the
    counter to zero, and then still hands the path to scatterRay and
    decrements the counter: the stored path is the scattered one. *)
Theorem texture_error_path_is_scattered {F : Type} `{Externals F}
    cfg iter index depth (intersection : ShadeableIntersection F)
    (material : Material F) textures (p : PathSegment F) :
  fltb fzero (emittance material) = false ->
  textureOffset material = -2 ->
  shadeHit cfg iter index depth intersection material textures p =
  Ok (let q := scatterRay
                 {| ray := ray p; color := Vec3 fone fzero fone;
                    pixelIndex := pixelIndex p; remainingBounces := 0 |}
                 (getPointOnRay (ray p) (t intersection))
                 (surfaceNormal intersection) material
                 (makeSeededRandomEngine iter index depth) in
      with_remainingBounces q (wrap32 (remainingBounces q - 1))).
Proof. apply shadeHit_texture_error. Qed.

Lemma texture_error_path_is_scattered_witness :
  shadeHit source_config 0 0 0 (Scenes.hit fone 0) Scenes.broken []
    (Scenes.path Scenes.ray_up 0 2) =
  Ok (let q := scatterRay
                 {| ray := Scenes.ray_up; color := Vec3 fone fzero fone;
                    pixelIndex := 0; remainingBounces := 0 |}
                 (getPointOnRay Scenes.ray_up fone)
                 (Vec3 fzero fone fzero) Scenes.broken
                 (makeSeededRandomEngine 0 0 0) in
      with_remainingBounces q (wrap32 (remainingBounces q - 1))).
Proof.
  apply (texture_error_path_is_scattered source_config 0 0 0 (Scenes.hit fone 0)
           Scenes.broken [] (Scenes.path Scenes.ray_up 0 2)); reflexivity.
Defined.

(* with the sample scatterRay the colour that reaches the image is half
   magenta, not magenta *)
Example texture_error_sample_colour :
  color <$> (match shadeHit source_config 0 0 0 (Scenes.hit fone 0) Scenes.broken []
                     (Scenes.path Scenes.ray_up 0 2) with
             | Ok q => Some q
             | Err _ => None
             end)
  = Some (Vec3 (flit 5 10) fzero (flit 5 10)).
Proof. vm_compute. reflexivity. Qed.

(** C3, evaluated on the code.  On the texture-error branch the counter is
    set to zero and then decremented: a scatterRay that leaves the counter
    alone yields a terminated path whose counter is -1. *)
Theorem texture_error_counter_is_minus_one {F : Type} `{Externals F}
    cfg iter index depth (intersection : ShadeableIntersection F)
    (material : Material F) textures (p : PathSegment F) :
  (forall q x n m e, remainingBounces (scatterRay q x n m e) = remainingBounces q) ->
  fltb fzero (emittance material) = false ->
  textureOffset material = -2 ->
  exists q,
    shadeHit cfg iter index depth intersection material textures p = Ok q /\
    remainingBounces q = -1.
Proof.
  intros Hkeep He Ht. rewrite shadeHit_texture_error by done.
  eexists. split; [reflexivity |]. simpl. rewrite Hkeep. reflexivity.
Qed.

Lemma texture_error_counter_is_minus_one_witness :
  exists q,
    shadeHit source_config 0 0 0 (Scenes.hit fone 0) Scenes.broken []
      (Scenes.path Scenes.ray_up 0 2) = Ok q /\
    remainingBounces q = -1.
Proof.
  apply (texture_error_counter_is_minus_one source_config 0 0 0 (Scenes.hit fone 0)
           Scenes.broken [] (Scenes.path Scenes.ray_up 0 2)); reflexivity.
Defined.

(** ** The random stream of the shader *)

(** The engine of the shader is seeded with the array position of the
    path.  After ray generation that position is the
    pixel index; the shading of a path at two positions agrees when the two
    seeded engines agree, and always on a light hit, which draws nothing. *)
Theorem shading_depends_on_position_through_seed {F : Type} `{Externals F} :
  (forall (cam : Camera F) iter depth (d : Device F),
      valid_resolution cam ->
      Z.of_nat (length (dev_paths d)) = pixelcount_of cam ->
      exists d', generateRayFromCamera cam iter depth d = Ok d' /\
                 forall (k : nat) p, dev_paths d' !! k = Some p ->
                                     pixelIndex p = Z.of_nat k) /\
  (forall cfg iter depth i j (intersection : ShadeableIntersection F)
          (material : Material F) textures (p : PathSegment F),
      makeSeededRandomEngine iter i depth = makeSeededRandomEngine iter j depth \/
      fltb fzero (emittance material) = true ->
      shadeHit cfg iter i depth intersection material textures p =
      shadeHit cfg iter j depth intersection material textures p).
Proof.
  split.
  - intros cam iter depth d Hvalid Hlen.
    destruct (generateRayFromCamera_spec cam iter depth d Hvalid Hlen)
      as (d' & Hgen & Hframe & Hcam).
    exists d'. split; [done |]. intros k p Hp.
    destruct (Hcam k) as (q & Hq & _ & _ & Hpi & _).
    + destruct Hframe as (_&_&_&_&_&_&Hl). apply lookup_lt_Some in Hp. lia.
    + congruence.
  - intros cfg iter depth i j intersection material textures p [Hseed|Hlight].
    + unfold shadeHit. rewrite Hseed. reflexivity.
    + rewrite !shadeHit_light by done. reflexivity.
Qed.

Lemma shading_depends_on_position_through_seed_witness :
  shadeHit source_config 0 0 0 (Scenes.hit fone 0) Scenes.light []
    (Scenes.path Scenes.ray_up 0 2) =
  shadeHit source_config 0 1 0 (Scenes.hit fone 0) Scenes.light []
    (Scenes.path Scenes.ray_up 0 2).
Proof.
  destruct (@shading_depends_on_position_through_seed float _ _ Sample.externals)
    as [_ Hshade].
  apply Hshade. right. reflexivity.
Defined.


(** ** The two intersection kernels *)

(** C10.  The brute-force kernel changes nothing but the contents of the
    intersection records: the path segments, the image and the scene
    arrays are what they were.  A thread multiplies the colour of its own
    copy of the path segment on a hit; the copy is dropped, and the stored
    segment keeps its colour. *)
Theorem brute_force_kernel_writes_only_records {F : Type} `{Externals F}
    depth num_paths gsize (d d' : Device F) :
  computeIntersections depth num_paths gsize d = Ok d' ->
  only_intersections_changed d d' /\
  dev_paths d' = dev_paths d /\
  (forall i d1 local,
      computeIntersections_thread_local depth num_paths gsize i d = Ok (d1, Some local) ->
      exists p, rd (dev_paths d) i = Ok p /\
                rd (dev_paths d1) i = Ok p /\
                (color local = color p \/ color local = vmul (color p) magenta)).
Proof.
  intros Hrun.
  pose proof (computeIntersections_frame _ _ _ _ _ Hrun) as Hframe.
  split; [done |]. split; [apply Hframe |].
  intros i d1 local Hthread.
  pose proof (computeIntersections_thread_local_frame _ _ _ _ _ _ _ Hthread)
    as (_ & _ & _ & Hpaths & _).
  unfold computeIntersections_thread_local in Hthread.
  destruct (i <? num_paths); [| discriminate].
  apply bind_Ok in Hthread as (p & Hp & Hthread).
  exists p. split; [done |]. split; [rewrite Hpaths; done |].
  apply bind_Ok in Hthread as (l & _ & Hthread).
  apply bind_Ok in Hthread as (r & _ & Hthread).
  destruct (l_hit_geom_index l =? -1).
  - apply bind_Ok in Hthread as (a & _ & [= _ <-]). left. done.
  - apply bind_Ok in Hthread as (g & _ & Hthread).
    apply bind_Ok in Hthread as (m & _ & Hthread).
    apply bind_Ok in Hthread as (r3 & _ & Hthread).
    apply bind_Ok in Hthread as (a & _ & [= _ <-]). right. done.
Qed.

Lemma brute_force_kernel_writes_only_records_witness :
  exists d',
    computeIntersections 0 1 2 Scenes.wall_device = Ok d' /\
    dev_paths d' = dev_paths Scenes.wall_device /\
    dev_intersections d' <> dev_intersections Scenes.wall_device.
Proof.
  eexists. split; [vm_compute; reflexivity |]. split.
  - eapply (brute_force_kernel_writes_only_records 0 1 2 Scenes.wall_device).
    vm_compute. reflexivity.
  - vm_compute. discriminate.
Defined.

Lemma keep_nearest_miss {F : Type} `{Externals F} (l : IsectLocals F) (i : Z) :
  fltb fzero (l_t l) = false -> keep_nearest l i = l.
Proof. intros Hm. unfold keep_nearest. rewrite Hm. done. Qed.

Lemma keep_nearest_hit {F : Type} `{Externals F} (l : IsectLocals F) (i : Z) :
  fltb fzero (l_t l) = true -> fltb (l_t l) (l_t_min l) = true ->
  l_hit_geom_index (keep_nearest l i) = i /\ l_t_min (keep_nearest l i) = l_t l.
Proof. intros Hp Hf. unfold keep_nearest. rewrite Hp, Hf. done. Qed.

(** C4, evaluated on the code.  A leaf holds a sphere the ray misses and a
    diamond it hits at distance [x].  The brute-force loop reports the
    diamond; the traversal has no case for a diamond, tests it with the
    stale t of the sphere and reports no hit. *)
Theorem accelerated_kernel_skips_diamond {F : Type} `{Externals F}
    (fuel : nat) (g1 g2 : Geom F) (node : LinearKDNode) (r : Ray F) (x : F) :
  type g1 = SPHERE -> type g2 = DIAMOND ->
  nPrimitives node = 2 -> primitivesOffset node = 0 ->
  feqb (boundsIntersectionTest (bounds node) r) (flit (-1) 1) = false ->
  (forall p n, fltb fzero (sphereIntersectionTest g1 r p n).1.1 = false) ->
  (forall p n, (diamondIntersectionTest g2 r p n).1.1 = x) ->
  fltb fzero x = true -> fltb x FLT_MAX = true ->
  (exists l, testRange testPrimitive [g1; g2] r 0 0 2 init_locals = Ok l /\
             l_hit_geom_index l = 1 /\ l_t_min l = x) /\
  (exists s, kd_loop (S fuel) [node] [g1; g2] r kd_init = Ok s /\
             l_hit_geom_index (locals s) = -1).
Proof.
  intros Hty1 Hty2 Hnp Hpo Hb Hmiss Hhit Hpos Hfin.
  pose proof (Hmiss (l_tmp_intersect init_locals) (l_tmp_normal init_locals)) as Hm.
  destruct (sphereIntersectionTest g1 r (l_tmp_intersect init_locals)
              (l_tmp_normal init_locals)) as [[x1 p1] n1] eqn:Hs.
  simpl in Hm.
  pose proof (Hhit p1 n1) as Hd.
  destruct (diamondIntersectionTest g2 r p1 n1) as [[x2 p2] n2] eqn:Hdt.
  simpl in Hd. subst x2.
  assert (Hfirst : forall l0 : IsectLocals F,
             l_t l0 = x1 -> keep_nearest l0 (wrap32 (0 + 0)) = l0).
  { intros l0 Hl0. apply keep_nearest_miss. rewrite Hl0. exact Hm. }
  split.
  - simpl. unfold testPrimitive. rewrite Hty1, Hty2, Hs. simpl set_test.
    rewrite Hfirst by reflexivity. simpl. rewrite Hdt. simpl set_test.
    eexists. split; [reflexivity |].
    apply keep_nearest_hit; simpl; done.
  - simpl. unfold kd_step. simpl. rewrite Hb. simpl. rewrite Hnp, Hpo. simpl.
    unfold testPrimitiveKD. rewrite Hty1, Hty2, Hs. simpl set_test.
    rewrite Hfirst by reflexivity.
    rewrite keep_nearest_miss by exact Hm. simpl.
    eexists. split; [reflexivity |]. done.
Qed.

Lemma accelerated_kernel_skips_diamond_witness :
  (exists l, testRange testPrimitive Scenes.diamond_geoms Scenes.ray_up 0 0 2
               init_locals = Ok l /\
             l_hit_geom_index l = 1 /\ l_t_min l = f_of_int 2) /\
  (exists s, kd_loop 1 [Scenes.leaf 2 0] Scenes.diamond_geoms Scenes.ray_up kd_init
             = Ok s /\
             l_hit_geom_index (locals s) = -1).
Proof.
  apply (accelerated_kernel_skips_diamond 0 (Scenes.wall SPHERE 0 (-1) 1)
           (Scenes.wall DIAMOND 1 0 2) (Scenes.leaf 2 0) Scenes.ray_up (f_of_int 2));
    try reflexivity; intros; vm_compute; reflexivity.
Defined.

(* the records the two kernels store for that path *)
Example diamond_kernels_disagree :
  (match computeIntersections 0 1 2 Scenes.diamond_device with
   | Ok d => (fun r => (t r, materialId r)) <$> dev_intersections d
   | Err _ => []
   end) = [(f_of_int 2, 1)] /\
  (match computeIntersectionsKD 1 0 1 Scenes.diamond_device with
   | Ok d => (fun r => (t r, materialId r)) <$> dev_intersections d
   | Err _ => []
   end) = [(flit (-1) 1, 0)].
Proof. split; vm_compute; reflexivity. Qed.

(** ** Compaction *)

(** C5, as the code has it.  Compaction keeps the paths of the active
    range as they are, up to their order; the new count is at most the old
    one; the paths before it have a positive counter; the paths it removes
    have a counter that is not positive, and exactly zero when no counter
    of the range was negative. *)
Theorem compaction_keeps_live_paths {F : Type} `{Externals F}
    (n : Z) (d d' : Device F) (k : Z) :
  partition_contract thrust_partition ->
  0 <= n <= Z.of_nat (length (dev_paths d)) ->
  compact n d = (d', k) ->
  0 <= k <= n /\
  only_paths_changed d d' /\
  take (Z.to_nat n) (dev_paths d') ≡ₚ take (Z.to_nat n) (dev_paths d) /\
  drop (Z.to_nat n) (dev_paths d') = drop (Z.to_nat n) (dev_paths d) /\
  Forall (fun p => 0 < remainingBounces p) (take (Z.to_nat k) (dev_paths d')) /\
  Forall (fun p => remainingBounces p <= 0)
    (drop (Z.to_nat k) (take (Z.to_nat n) (dev_paths d'))) /\
  (Forall (fun p => 0 <= remainingBounces p) (take (Z.to_nat n) (dev_paths d)) ->
   Forall (fun p => remainingBounces p = 0)
     (drop (Z.to_nat k) (take (Z.to_nat n) (dev_paths d')))).
Proof.
  intros Hpart Hn Hc.
  destruct (compact_spec n d Hpart Hn d' k Hc)
    as (Hframe & Hk & Hperm & Hrest & Hlive & Hdead).
  repeat (split; [done |]).
  intros Hnonneg. apply Forall_forall. intros p Hp.
  assert (Hle : remainingBounces p <= 0).
  { rewrite Forall_forall in Hdead. apply Hdead. done. }
  assert (Hge : 0 <= remainingBounces p).
  { rewrite Forall_forall in Hnonneg. apply Hnonneg. rewrite <- Hperm.
    eapply subseteq_drop, Hp. }
  lia.
Qed.

Lemma compaction_keeps_live_paths_witness :
  exists d' k,
    compact 2 Scenes.spent_device = (d', k) /\
    0 <= k <= 2 /\
    Forall (fun p => 0 < remainingBounces p) (take (Z.to_nat k) (dev_paths d')) /\
    Forall (fun p => remainingBounces p <= 0)
      (drop (Z.to_nat k) (take 2 (dev_paths d'))).
Proof.
  eexists. eexists. split; [vm_compute; reflexivity |].
  destruct (compaction_keeps_live_paths 2 Scenes.spent_device
              (fst (compact 2 Scenes.spent_device))
              (snd (compact 2 Scenes.spent_device)))
    as (Hk & _ & _ & _ & Hlive & Hdead & _).
  - apply stable_partition_contract.
  - vm_compute. intuition discriminate.
  - reflexivity.
  - split; [exact Hk |]. split; [exact Hlive | exact Hdead].
Defined.

(** C5, counterexample.  The active range holds a path whose counter is -1
    (the texture-error branch produces such paths) and a live one;
    compaction removes the first, whose counter is not zero. *)
Lemma compaction_removes_negative_counter :
  exists d' k p,
    compact 2 Scenes.spent_device = (d', k) /\
    drop (Z.to_nat k) (take 2 (dev_paths d')) = [p] /\
    p ∈ take 2 (dev_paths Scenes.spent_device) /\
    remainingBounces p <> 0.
Proof.
  eexists. eexists. eexists.
  split; [vm_compute; reflexivity |].
  split; [vm_compute; reflexivity |].
  split; [apply list_elem_of_here |].
  vm_compute. discriminate.
Qed.

(** ** The diffuse sampler *)




(** ** Kernels that rewrite one array slot by slot *)

Lemma launch_from_app {St} (body : Z -> St -> Res St) (a b : nat) (i : Z) (s : St) :
  launch_from body i (a + b) s =
  do s1 <- launch_from body i a s; launch_from body (i + Z.of_nat a) b s1.
Proof.
  revert i s. induction a as [|a IH]; intros i s; simpl launch_from.
  - simpl. replace (i + Z.of_nat 0) with i by lia. done.
  - destruct (body i s) as [s1|e]; simpl; [| done].
    rewrite IH. replace (i + 1 + Z.of_nat a) with (i + Z.of_nat (S a)) by lia. done.
Qed.

Lemma launch_from_idle {St} (body : Z -> St -> Res St) (lo : Z) (m : nat) :
  (forall i s, lo <= i -> body i s = Ok s) ->
  forall i s, lo <= i -> launch_from body i m s = Ok s.
Proof.
  intros Hidle. induction m as [|m IH]; intros i s Hi; simpl; [done |].
  rewrite Hidle by done. simpl. apply IH. lia.
Qed.

(* [get]/[set] select the array the kernel writes; thread [k] below [n]
   replaces slot [k], holding [x], by [f k s x], which does not look at the
   array being written; the other threads do nothing.  The launch then
   succeeds exactly when every [f k s x] does, and stores their results. *)
Lemma launch_slotwise {St A} (get : St -> list A) (set : St -> list A -> St)
    (f : Z -> St -> A -> Res A) (body : Z -> St -> Res St) (n T : nat) :
  (forall s a, get (set s a) = a) ->
  (forall s a b, set (set s a) b = set s b) ->
  (forall s, set s (get s) = s) ->
  (forall k s a x, f k (set s a) x = f k s x) ->
  (forall (k : nat) s x,
      (k < n)%nat -> get s !! k = Some x ->
      body (Z.of_nat k) s =
      do y <- f (Z.of_nat k) s x; Ok (set s (<[k := y]> (get s)))) ->
  (forall i s, Z.of_nat n <= i -> body i s = Ok s) ->
  forall s s',
    (n <= length (get s))%nat -> (n <= T)%nat ->
    launch_from body 0 T s = Ok s' <->
    exists ys,
      length ys = n /\
      (forall (k : nat) x, get s !! k = Some x -> (k < n)%nat ->
                           exists y, ys !! k = Some y /\ f (Z.of_nat k) s x = Ok y) /\
      s' = set s (ys ++ drop n (get s)).
Proof.
  intros Hgs Hss Hsg Hframe Hin Hout s s' Hlen HT.
  assert (Haux : forall m ys,
             (length ys + m = n)%nat ->
             launch_from body (Z.of_nat (length ys)) m
               (set s (ys ++ drop (length ys) (get s))) = Ok s' <->
             exists zs,
               length zs = m /\
               (forall (j : nat) x,
                   (j < m)%nat -> get s !! (length ys + j)%nat = Some x ->
                   exists y, zs !! j = Some y /\
                             f (Z.of_nat (length ys + j)) s x = Ok y) /\
               s' = set s (ys ++ zs ++ drop n (get s))).
  { induction m as [|m IH]; intros ys Hm.
    - simpl. replace (length ys) with n by lia. split.
      + intros [= <-]. exists []. split; [done |]. split; [intros; lia | done].
      + intros (zs & Hz & _ & ->). destruct zs; [done | discriminate].
    - destruct (lookup_lt_is_Some_2 (get s) (length ys)) as [x Hx]; [lia |].
      assert (Hslot : get (set s (ys ++ drop (length ys) (get s))) !! length ys
                      = Some x).
      { rewrite Hgs, lookup_app_r by lia.
        rewrite Nat.sub_diag, lookup_drop, Nat.add_0_r. done. }
      simpl launch_from.
      rewrite (Hin (length ys) _ x ltac:(lia) Hslot), Hframe.
      destruct (f (Z.of_nat (length ys)) s x) as [y|e] eqn:Hf; simpl.
      + assert (Hnext :
            set (set s (ys ++ drop (length ys) (get s)))
              (<[length ys := y]> (get (set s (ys ++ drop (length ys) (get s)))))
            = set s ((ys ++ [y]) ++ drop (length (ys ++ [y])) (get s))).
        { rewrite Hss, Hgs. f_equal.
          rewrite insert_app_r_alt by lia. rewrite Nat.sub_diag.
          rewrite (drop_S _ _ _ Hx). simpl.
          rewrite length_app. simpl. rewrite <- app_assoc. simpl.
          replace (length ys + 1)%nat with (S (length ys)) by lia. done. }
        rewrite Hnext.
        replace (Z.of_nat (length ys) + 1) with (Z.of_nat (length (ys ++ [y])))
          by (rewrite length_app; simpl; lia).
        rewrite (IH (ys ++ [y])) by (rewrite length_app; simpl; lia).
        rewrite length_app. simpl. split.
        * intros (zs & Hz & Hall & ->). exists (y :: zs).
          split; [simpl; lia |]. split.
          -- intros [|j] x' Hj Hx'.
             ++ rewrite Nat.add_0_r in Hx' |- *. exists y. split; [done |]. congruence.
             ++ simpl. destruct (Hall j x') as (y' & Hy' & Hfy'); [lia | |].
                { replace (length ys + 1 + j)%nat with (length ys + S j)%nat by lia.
                  done. }
                exists y'. split; [done |].
                replace (length ys + S j)%nat with (length ys + 1 + j)%nat by lia.
                done.
          -- rewrite <- app_assoc. done.
        * intros (zs & Hz & Hall & ->).
          destruct zs as [|y0 zs]; [discriminate |].
          destruct (Hall 0%nat x) as (y' & Hy' & Hfy'); [lia | |].
          { rewrite Nat.add_0_r. done. }
          rewrite Nat.add_0_r in Hfy'. simpl in Hy'.
          assert (y0 = y) by congruence. subst y0.
          exists zs. split; [simpl in Hz; lia |]. split.
          -- intros j x' Hj Hx'.
             destruct (Hall (S j) x') as (y'' & Hy'' & Hfy''); [lia | |].
             { replace (length ys + S j)%nat with (length ys + 1 + j)%nat by lia.
               done. }
             exists y''. split; [done |].
             replace (length ys + 1 + j)%nat with (length ys + S j)%nat by lia.
             done.
          -- rewrite <- app_assoc. done.
      + split; [discriminate |].
        intros (zs & Hz & Hall & _).
        destruct (Hall 0%nat x) as (y' & _ & Hfy'); [lia | |].
        { rewrite Nat.add_0_r. done. }
        rewrite Nat.add_0_r in Hfy'. congruence. }
  replace T with (n + (T - n))%nat by lia.
  rewrite launch_from_app.
  assert (Heq : (do s1 <- launch_from body 0 n s;
                 launch_from body (0 + Z.of_nat n) (T - n) s1)
                = launch_from body 0 n s).
  { destruct (launch_from body 0 n s) as [s1|e]; simpl; [| done].
    apply launch_from_idle with (lo := Z.of_nat n); [done | lia]. }
  rewrite Heq.
  specialize (Haux n [] ltac:(simpl; lia)). simpl in Haux.
  rewrite drop_0, Hsg in Haux. rewrite Haux.
  split; intros (zs & Hz & Hall & ->); exists zs; (split; [done |]); (split; [| done]).
  - intros k x Hx Hk. apply Hall; done.
  - intros j x Hj Hx. apply Hall; done.
Qed.

(** ** The intersection and shading kernels, slot by slot *)

Section KernelsSlotwise.
Context {F : Type} `{Externals F}.

Lemma set_intersections_same (d : Device F) :
  set_intersections d (dev_intersections d) = d.
Proof. destruct d. reflexivity. Qed.

Lemma computeIntersectionsKD_thread_record fuel depth n (k : nat) (d : Device F) r :
  Z.of_nat k < n ->
  dev_intersections d !! k = Some r ->
  computeIntersectionsKD_thread fuel depth n (Z.of_nat k) d =
  do y <- (do p <- rd (dev_paths d) (Z.of_nat k); recordKD fuel d p r);
  Ok (set_intersections d (<[k := y]> (dev_intersections d))).
Proof.
  intros Hk Hr. unfold computeIntersectionsKD_thread, recordKD.
  destruct (Z.ltb_spec (Z.of_nat k) n); [| lia].
  pose proof (lookup_lt_Some _ _ _ Hr) as Hlen.
  destruct (rd (dev_paths d) (Z.of_nat k)) as [p|e]; [| done]. cbn [bind].
  destruct (kd_loop fuel (dev_kdtree d) (dev_geoms d) (ray p) kd_init)
    as [s|e]; [| done]. cbn [bind].
  rewrite (rd_lookup _ _ _ Hr). cbn [bind].
  destruct (l_hit_geom_index (locals s) =? -1).
  - rewrite wr_in_range by done. done.
  - destruct (rd (dev_geoms d) (l_hit_geom_index (locals s))) as [g|e]; [| done].
    cbn [bind].
    destruct (rd (dev_materials d) (materialid g)) as [m|e]; [| done]. cbn [bind].
    destruct (applyNormalMap _ _ _ _ _ _) as [r3|e]; [| done]. cbn [bind].
    rewrite wr_in_range by done. done.
Qed.

Lemma computeIntersections_thread_record depth n gsize (k : nat) (d : Device F) r :
  Z.of_nat k < n ->
  dev_intersections d !! k = Some r ->
  computeIntersections_thread depth n gsize (Z.of_nat k) d =
  do y <- (do p <- rd (dev_paths d) (Z.of_nat k); recordBrute gsize d p r);
  Ok (set_intersections d (<[k := y]> (dev_intersections d))).
Proof.
  intros Hk Hr.
  unfold computeIntersections_thread, computeIntersections_thread_local, recordBrute.
  destruct (Z.ltb_spec (Z.of_nat k) n); [| lia].
  pose proof (lookup_lt_Some _ _ _ Hr) as Hlen.
  destruct (rd (dev_paths d) (Z.of_nat k)) as [p|e]; [| done]. cbn [bind].
  destruct (testRange testPrimitive (dev_geoms d) (ray p) 0 0 (Z.to_nat gsize)
              init_locals) as [l|e]; [| done]. cbn [bind].
  rewrite (rd_lookup _ _ _ Hr). cbn [bind].
  destruct (l_hit_geom_index l =? -1).
  - rewrite wr_in_range by done. done.
  - destruct (rd (dev_geoms d) (l_hit_geom_index l)) as [g|e]; [| done].
    cbn [bind].
    destruct (rd (dev_materials d) _) as [m|e]; [| done]. cbn [bind].
    destruct (applyNormalMap _ _ _ _ _ _) as [r3|e]; [| done]. cbn [bind].
    rewrite wr_in_range by done. done.
Qed.

Lemma shadeMaterials_thread_path cfg iter n depth (k : nat) (d : Device F) p :
  Z.of_nat k < n ->
  dev_paths d !! k = Some p ->
  shadeMaterials_thread cfg iter n depth (Z.of_nat k) d =
  do y <- (if remainingBounces p =? 0 then Ok p
           else do intersection <- rd (dev_intersections d) (Z.of_nat k);
                shadeWith cfg iter (Z.of_nat k) depth d intersection p);
  Ok (set_paths d (<[k := y]> (dev_paths d))).
Proof.
  intros Hk Hp. unfold shadeMaterials_thread, shadeWith.
  destruct (Z.leb_spec n (Z.of_nat k)); [lia |].
  pose proof (lookup_lt_Some _ _ _ Hp) as Hlen.
  rewrite (rd_lookup _ _ _ Hp). cbn [bind].
  destruct (remainingBounces p =? 0) eqn:Hrb.
  - cbn [bind]. rewrite list_insert_id by done. rewrite set_paths_same. done.
  - destruct (rd (dev_intersections d) (Z.of_nat k)) as [isect|e]; [| done].
    cbn [bind].
    destruct (fltb fzero (t isect)).
    + destruct (rd (dev_materials d) (materialId isect)) as [m|e]; [| done].
      cbn [bind].
      destruct (shadeHit _ _ _ _ _ _ _ _) as [p'|e]; [| done]. cbn [bind].
      rewrite wr_in_range by done. done.
    + cbn [bind]. rewrite wr_in_range by done. done.
Qed.

End KernelsSlotwise.

Lemma pointwise_results {A B} (l : list A) (n : nat) (f : nat -> A -> Res B) :
  (n <= length l)%nat ->
  (forall (k : nat) x, (k < n)%nat -> l !! k = Some x -> exists y, f k x = Ok y) ->
  exists ys, length ys = n /\
             forall (k : nat) x, l !! k = Some x -> (k < n)%nat ->
                                 exists y, ys !! k = Some y /\ f k x = Ok y.
Proof.
  induction n as [|n IH]; intros Hn Hall.
  - exists []. split; [done |]. intros; lia.
  - destruct IH as (ys & Hlen & Hys); [lia | intros; eapply Hall; [lia | done] |].
    destruct (lookup_lt_is_Some_2 l n) as [x Hx]; [lia |].
    destruct (Hall n x) as [y Hy]; [lia | done |].
    exists (ys ++ [y]). split; [rewrite length_app; simpl; lia |].
    intros k x' Hx' Hk.
    destruct (decide (k = n)) as [->|Hne].
    + exists y. split; [| congruence].
      rewrite lookup_app_r by lia. rewrite Hlen, Nat.sub_diag. done.
    + destruct (Hys k x') as (y' & Hy' & Hf'); [done | lia |].
      exists y'. split; [| done]. rewrite lookup_app_l by lia. done.
Qed.

Section KernelResults.
Context {F : Type} `{Externals F}.

Lemma intersect_slots cfg fuel scene depth n (d d' : Device F) :
  0 <= n <= Z.of_nat (length (dev_intersections d)) ->
  intersect cfg fuel scene depth n d = Ok d' <->
  exists rs,
    length rs = Z.to_nat n /\
    (forall (k : nat) r,
        dev_intersections d !! k = Some r -> (k < Z.to_nat n)%nat ->
        exists y, rs !! k = Some y /\
                  (do p <- rd (dev_paths d) (Z.of_nat k);
                   record cfg fuel scene d p r) = Ok y) /\
    d' = set_intersections d (rs ++ drop (Z.to_nat n) (dev_intersections d)).
Proof.
  intros Hn.
  pose proof (threads1d_ge n ltac:(lia)) as HT.
  unfold intersect, record. destruct (ACCELSTRUCT cfg).
  - unfold computeIntersectionsKD, launch.
    apply (launch_slotwise dev_intersections set_intersections
             (fun k s r => do p <- rd (dev_paths s) k; recordKD fuel s p r)
             (computeIntersectionsKD_thread fuel depth n)
             (Z.to_nat n) (Z.to_nat (threads1d n))); try done; try lia.
    + apply set_intersections_same.
    + intros k s r Hk Hr.
      apply computeIntersectionsKD_thread_record; [lia | done].
    + intros i s Hi. unfold computeIntersectionsKD_thread.
      destruct (Z.ltb_spec i n); [lia | done].
  - unfold computeIntersections, launch.
    apply (launch_slotwise dev_intersections set_intersections
             (fun k s r => do p <- rd (dev_paths s) k;
                           recordBrute (geoms_size scene) s p r)
             (computeIntersections_thread depth n (geoms_size scene))
             (Z.to_nat n) (Z.to_nat (threads1d n))); try done; try lia.
    + apply set_intersections_same.
    + intros k s r Hk Hr.
      apply computeIntersections_thread_record; [lia | done].
    + intros i s Hi.
      unfold computeIntersections_thread, computeIntersections_thread_local.
      destruct (Z.ltb_spec i n); [lia | done].
Qed.

Lemma shadeMaterials_slots cfg iter n depth (d d' : Device F) :
  0 <= n <= Z.of_nat (length (dev_paths d)) ->
  shadeMaterials cfg iter n depth d = Ok d' <->
  exists ps,
    length ps = Z.to_nat n /\
    (forall (k : nat) p,
        dev_paths d !! k = Some p -> (k < Z.to_nat n)%nat ->
        exists y, ps !! k = Some y /\
                  (if remainingBounces p =? 0 then Ok p
                   else do intersection <- rd (dev_intersections d) (Z.of_nat k);
                        shadeWith cfg iter (Z.of_nat k) depth d intersection p)
                  = Ok y) /\
    d' = set_paths d (ps ++ drop (Z.to_nat n) (dev_paths d)).
Proof.
  intros Hn.
  pose proof (threads1d_ge n ltac:(lia)) as HT.
  unfold shadeMaterials, launch.
  apply (launch_slotwise dev_paths set_paths
           (fun k s p =>
              if remainingBounces p =? 0 then Ok p
              else do intersection <- rd (dev_intersections s) k;
                   shadeWith cfg iter k depth s intersection p)
           (shadeMaterials_thread cfg iter n depth)
           (Z.to_nat n) (Z.to_nat (threads1d n))); try done; try lia.
  - apply set_paths_same.
  - intros k s p Hk Hp. apply shadeMaterials_thread_path; [lia | done].
  - intros i s Hi. apply shadeMaterials_thread_outside. lia.
Qed.

End KernelResults.

(** ** One pass of intersection, sorting and shading *)

Section ShadePass.
Context {F : Type} `{Externals F}.

Lemma same_scene_refl (d : Device F) : same_scene d d.
Proof. repeat split. Qed.

Lemma same_scene_trans (d1 d2 d3 : Device F) :
  same_scene d1 d2 -> same_scene d2 d3 -> same_scene d1 d3.
Proof.
  unfold same_scene. intros (?&?&?&?) (?&?&?&?). repeat split; congruence.
Qed.

Lemma record_same_scene cfg fuel scene (d d' : Device F) p r :
  same_scene d d' ->
  record cfg fuel scene d' p r = record cfg fuel scene d p r.
Proof.
  intros (Hg & Hm & Ht & Hk).
  unfold record, recordKD, recordBrute. rewrite Hg, Hm, Ht, Hk. done.
Qed.

Lemma shadeWith_same_scene cfg iter index depth (d d' : Device F) r p :
  same_scene d d' ->
  shadeWith cfg iter index depth d' r p = shadeWith cfg iter index depth d r p.
Proof.
  intros (Hg & Hm & Ht & Hk). unfold shadeWith. rewrite Hm, Ht. done.
Qed.

Lemma shadeWith_index cfg iter i j depth (d : Device F) r p :
  seed_ignores_position ->
  shadeWith cfg iter i depth d r p = shadeWith cfg iter j depth d r p.
Proof.
  intros Hseed. unfold shadeWith, shadeHit. rewrite (Hseed iter depth i j). done.
Qed.

Lemma bounce_path_same_scene cfg fuel scene iter depth (d d' : Device F) p :
  same_scene d d' ->
  bounce_path cfg fuel scene iter depth d' p =
  bounce_path cfg fuel scene iter depth d p.
Proof.
  intros Hs. unfold bounce_path. rewrite (record_same_scene _ _ _ d d') by done.
  destruct (record cfg fuel scene d p zero_intersection); simpl; [| done].
  apply shadeWith_same_scene. done.
Qed.

Lemma clear_intersections_result N (d d1 : Device F) :
  0 <= N ->
  clear_intersections N d = Ok d1 ->
  N <= Z.of_nat (length (dev_intersections d)) /\
  d1 = set_intersections d
         (replicate (Z.to_nat N) zero_intersection
          ++ drop (Z.to_nat N) (dev_intersections d)).
Proof.
  intros HN. unfold clear_intersections.
  destruct (Z.ltb_spec (Z.of_nat (length (dev_intersections d))) N); [done |].
  intros [= <-]. done.
Qed.

(* the optional sorting stage *)
Lemma sort_stage cfg n (d : Device F) :
  sort_permutes_pairs thrust_sort_by_key ->
  0 <= n ->
  n <= Z.of_nat (length (dev_intersections d)) ->
  n <= Z.of_nat (length (dev_paths d)) ->
  exists ks vs,
    length ks = Z.to_nat n /\ length vs = Z.to_nat n /\
    zip ks vs ≡ₚ zip (take (Z.to_nat n) (dev_intersections d))
                     (take (Z.to_nat n) (dev_paths d)) /\
    (if MATSORT cfg then sortByMaterial n d else d) =
    set_paths
      (set_intersections d (ks ++ drop (Z.to_nat n) (dev_intersections d)))
      (vs ++ drop (Z.to_nat n) (dev_paths d)).
Proof.
  intros Hsort Hn Hli Hlp.
  destruct (MATSORT cfg).
  - unfold sortByMaterial.
    destruct (Hsort materialCmp (take (Z.to_nat n) (dev_intersections d))
                (take (Z.to_nat n) (dev_paths d))) as (Hl1 & Hl2 & Hperm).
    { rewrite !length_take. lia. }
    destruct (thrust_sort_by_key materialCmp
                (take (Z.to_nat n) (dev_intersections d))
                (take (Z.to_nat n) (dev_paths d))) as [ks vs].
    simpl in *. exists ks, vs.
    rewrite length_take in Hl1. rewrite length_take in Hl2.
    split; [lia |]. split; [lia |]. split; done.
  - exists (take (Z.to_nat n) (dev_intersections d)),
           (take (Z.to_nat n) (dev_paths d)).
    rewrite !length_take. split; [lia |]. split; [lia |]. split; [done |].
    rewrite !take_drop. destruct d. reflexivity.
Qed.

(* What a pass leaves: the active range holds the bounced paths of a
   permutation of what it held, the rest of the array is untouched. *)
Lemma shade_pass_result cfg kdfuel scene iter N depth n (d d' : Device F) :
  seed_ignores_position ->
  sort_permutes_pairs thrust_sort_by_key ->
  0 <= n <= Z.of_nat (length (dev_paths d)) -> n <= N ->
  shade_pass cfg kdfuel scene iter N depth n d = Ok d' ->
  exists vs ps,
    vs ≡ₚ take (Z.to_nat n) (dev_paths d) /\
    bounce_path cfg kdfuel scene iter depth d <$> vs = Ok <$> ps /\
    dev_paths d' = ps ++ drop (Z.to_nat n) (dev_paths d) /\
    same_scene d d' /\ dev_image d' = dev_image d /\
    length (dev_intersections d') = length (dev_intersections d).
Proof.
  intros Hseed Hsort Hn HnN Hrun. unfold shade_pass in Hrun.
  apply bind_Ok in Hrun as (d1 & Hclr & Hrun).
  apply bind_Ok in Hrun as (d2 & Hint & Hsh).
  apply clear_intersections_result in Hclr as [HN ->]; [| lia].
  set (zs := replicate (Z.to_nat N) zero_intersection
             ++ drop (Z.to_nat N) (dev_intersections d)) in *.
  assert (Hzl : length zs = length (dev_intersections d)).
  { unfold zs. rewrite length_app, length_replicate, length_drop. lia. }
  assert (Hzero : forall k : nat, (k < Z.to_nat n)%nat ->
                                  zs !! k = Some zero_intersection).
  { intros k Hk. unfold zs. rewrite lookup_app_l by (rewrite length_replicate; lia).
    apply lookup_replicate. split; [done | lia]. }
  apply intersect_slots in Hint as (rs & Hrl & Hrs & ->);
    [| simpl; rewrite Hzl; lia].
  simpl in Hrs.
  match type of Hsh with
  | context [sortByMaterial n ?dd] =>
      destruct (sort_stage cfg n dd Hsort) as (ks & vs & Hkl & Hvl & Hperm & Hd3)
  end.
  { lia. }
  { simpl. rewrite length_app, length_drop. lia. }
  { simpl. lia. }
  rewrite Hd3 in Hsh. clear Hd3. simpl in Hperm.
  rewrite take_app_length' in Hperm by lia.
  apply shadeMaterials_slots in Hsh as (ps & Hpl & Hps & ->);
    [| simpl; rewrite length_app, length_drop; lia].
  simpl in Hps |- *.
  assert (Hvs : vs ≡ₚ take (Z.to_nat n) (dev_paths d)).
  { rewrite <- (snd_zip ks vs) by lia.
    rewrite <- (snd_zip rs (take (Z.to_nat n) (dev_paths d)))
      by (rewrite length_take; lia).
    rewrite Hperm. done. }
  assert (Hrest : same_scene d
                    (set_paths
                       (set_paths
                          (set_intersections
                             (set_intersections (set_intersections d zs)
                                (rs ++ drop (Z.to_nat n) zs))
                             (ks ++ drop (Z.to_nat n) (rs ++ drop (Z.to_nat n) zs)))
                          (vs ++ drop (Z.to_nat n) (dev_paths d)))
                       (ps ++ drop (Z.to_nat n)
                                (vs ++ drop (Z.to_nat n) (dev_paths d)))) /\
                  length (ks ++ drop (Z.to_nat n) (rs ++ drop (Z.to_nat n) zs))
                  = length (dev_intersections d)).
  { split; [repeat split |].
    rewrite !length_app, !length_drop, length_app, length_drop. lia. }
  destruct Hrest as [Hscene Hlen'].
  exists vs, ps. split; [done |]. split; [| split; [| done]].
  - apply list_eq. intros k. rewrite !list_lookup_fmap.
    destruct (vs !! k) as [v|] eqn:Hv; simpl.
    + pose proof (lookup_lt_Some _ _ _ Hv) as Hk.
      destruct (lookup_lt_is_Some_2 ks k) as [r Hr]; [lia |].
      destruct (Hps k v) as (y & Hy & Hfy); [| lia |].
      { rewrite lookup_app_l by lia. done. }
      rewrite Hy. simpl. f_equal.
      (* the record of the slot is the record of its path *)
      assert (Hrec : record cfg kdfuel scene d v zero_intersection = Ok r).
      { assert (Hin : (r, v) ∈ zip rs (take (Z.to_nat n) (dev_paths d))).
        { rewrite <- Hperm. apply list_elem_of_lookup. exists k.
          apply lookup_zip_Some. done. }
        apply list_elem_of_lookup in Hin as [j Hj].
        apply lookup_zip_Some in Hj as [Hrj Hvj].
        apply lookup_take_Some in Hvj as [Hvj Hjn].
        destruct (Hrs j zero_intersection) as (r' & Hr' & Hfr');
          [apply Hzero; lia | lia |].
        assert (r' = r) by congruence. subst r'.
        rewrite (rd_lookup _ _ _ Hvj) in Hfr'. cbn [bind] in Hfr'.
        rewrite (record_same_scene _ _ _ d) in Hfr' by (repeat split). done. }
      unfold bounce_path. rewrite Hrec. cbn [bind].
      destruct (remainingBounces v =? 0) eqn:Hrb.
      * injection Hfy as <-. unfold shadeWith. rewrite Hrb. done.
      * rewrite (rd_lookup _ k r) in Hfy by (rewrite lookup_app_l by lia; done).
        cbn [bind] in Hfy.
        rewrite (shadeWith_same_scene _ _ _ _ d) in Hfy by (repeat split).
        rewrite (shadeWith_index _ _ _ 0) in Hfy by done. done.
    + apply lookup_ge_None in Hv. symmetry. rewrite fmap_None.
      apply lookup_ge_None. lia.
  - rewrite drop_app_length' by lia. done.
Qed.

(* A pass runs as soon as every path of the active range can be
   bounced. *)
Lemma shade_pass_runs cfg kdfuel scene iter N depth n (d : Device F) :
  seed_ignores_position ->
  sort_permutes_pairs thrust_sort_by_key ->
  0 <= n <= Z.of_nat (length (dev_paths d)) -> n <= N ->
  N <= Z.of_nat (length (dev_intersections d)) ->
  (forall p, p ∈ take (Z.to_nat n) (dev_paths d) ->
             exists q, bounce_path cfg kdfuel scene iter depth d p = Ok q) ->
  exists d', shade_pass cfg kdfuel scene iter N depth n d = Ok d'.
Proof.
  intros Hseed Hsort Hn HnN HN Hall. unfold shade_pass.
  destruct (clear_intersections_runs N d HN) as [d1 Hclr].
  rewrite Hclr. cbn [bind].
  apply clear_intersections_result in Hclr as [_ ->]; [| lia].
  set (zs := replicate (Z.to_nat N) zero_intersection
             ++ drop (Z.to_nat N) (dev_intersections d)) in *.
  assert (Hzl : length zs = length (dev_intersections d)).
  { unfold zs. rewrite length_app, length_replicate, length_drop. lia. }
  assert (Hzero : forall (k : nat) r, (k < Z.to_nat n)%nat ->
                                      zs !! k = Some r -> r = zero_intersection).
  { intros k r Hk. unfold zs.
    rewrite lookup_app_l by (rewrite length_replicate; lia).
    intros [-> _]%lookup_replicate. done. }
  assert (Hscene1 : same_scene d (set_intersections d zs)) by (repeat split).
  (* the intersection stage *)
  destruct (pointwise_results zs (Z.to_nat n)
              (fun k r => do p <- rd (dev_paths d) (Z.of_nat k);
                          record cfg kdfuel scene (set_intersections d zs) p r))
    as (rs & Hrl & Hrs).
  { lia. }
  { intros k r Hk Hr. rewrite (Hzero k r Hk Hr).
    destruct (lookup_lt_is_Some_2 (dev_paths d) k) as [p Hp]; [lia |].
    rewrite (rd_lookup _ _ _ Hp). cbn [bind].
    rewrite (record_same_scene _ _ _ d) by done.
    destruct (Hall p) as [q Hq].
    { apply list_elem_of_lookup. exists k. apply lookup_take_Some. done. }
    unfold bounce_path in Hq. apply bind_Ok in Hq as (r' & Hr' & _). eauto. }
  assert (Hint : intersect cfg kdfuel scene depth n (set_intersections d zs)
                 = Ok (set_intersections (set_intersections d zs)
                         (rs ++ drop (Z.to_nat n) zs))).
  { apply intersect_slots; [simpl; lia |]. exists rs. done. }
  rewrite Hint. cbn [bind].
  (* the sorting stage *)
  match goal with
  | |- context [sortByMaterial n ?dd] =>
      destruct (sort_stage cfg n dd Hsort) as (ks & vs & Hkl & Hvl & Hperm & Hd3)
  end.
  { lia. }
  { simpl. rewrite length_app, length_drop. lia. }
  { simpl. lia. }
  rewrite Hd3. clear Hd3. simpl in Hperm.
  rewrite take_app_length' in Hperm by lia.
  (* the shading stage *)
  match goal with
  | |- context [shadeMaterials cfg iter n depth ?dd] => set (d3 := dd)
  end.
  assert (Hscene3 : same_scene d d3) by (repeat split).
  destruct (pointwise_results (dev_paths d3) (Z.to_nat n)
              (fun k p =>
                 if remainingBounces p =? 0 then Ok p
                 else do intersection <- rd (dev_intersections d3) (Z.of_nat k);
                      shadeWith cfg iter (Z.of_nat k) depth d3 intersection p))
    as (ps & Hpl & Hps).
  { simpl. rewrite length_app, length_drop. lia. }
  { intros k v Hk Hv. simpl in Hv. rewrite lookup_app_l in Hv by lia.
    destruct (remainingBounces v =? 0) eqn:Hrb; [eauto |].
    destruct (lookup_lt_is_Some_2 ks k) as [r Hr]; [lia |].
    assert (Hrdk : rd (dev_intersections d3) (Z.of_nat k) = Ok r).
    { apply rd_lookup. simpl. rewrite lookup_app_l by lia. done. }
    rewrite Hrdk. cbn [bind].
    rewrite (shadeWith_same_scene _ _ _ _ d) by done.
    rewrite (shadeWith_index _ _ _ 0) by done.
    assert (Hin : (r, v) ∈ zip rs (take (Z.to_nat n) (dev_paths d))).
    { rewrite <- Hperm. apply list_elem_of_lookup. exists k.
      apply lookup_zip_Some. done. }
    apply list_elem_of_lookup in Hin as [j Hj].
    apply lookup_zip_Some in Hj as [Hrj Hvj].
    pose proof Hvj as Hvj'. apply lookup_take_Some in Hvj' as [Hvj' Hjn].
    destruct (lookup_lt_is_Some_2 zs j) as [z Hz]; [lia |].
    destruct (Hrs j z Hz Hjn) as (r' & Hr' & Hfr').
    assert (r' = r) by congruence. subst r'.
    rewrite (Hzero j z Hjn Hz) in Hfr'.
    rewrite (rd_lookup _ _ _ Hvj') in Hfr'. cbn [bind] in Hfr'.
    rewrite (record_same_scene _ _ _ d) in Hfr' by done.
    destruct (Hall v) as [q Hq].
    { apply list_elem_of_lookup. eauto. }
    unfold bounce_path in Hq. rewrite Hfr' in Hq. cbn [bind] in Hq. eauto. }
  eexists. apply shadeMaterials_slots.
  { simpl. rewrite length_app, length_drop. lia. }
  exists ps. split; [done |]. split; [| reflexivity]. done.
Qed.

End ShadePass.

(** ** Sorting by material does not show in the image *)

Lemma fmap_Permutation_inj {A B} (f : A -> B) (l1 l2 : list A) :
  (forall x y, f x = f y -> x = y) ->
  f <$> l1 ≡ₚ f <$> l2 -> l1 ≡ₚ l2.
Proof.
  intros Hinj. revert l2. induction l1 as [|x l1 IH]; intros l2 Hperm.
  - simpl in Hperm. symmetry in Hperm. apply Permutation_nil_r in Hperm.
    apply fmap_nil_inv in Hperm. by subst.
  - assert (Hin : f x ∈ f <$> l2).
    { rewrite <- Hperm. simpl. apply list_elem_of_here. }
    apply list_elem_of_fmap in Hin as (y & Hxy & Hy).
    apply Hinj in Hxy. subst y.
    apply elem_of_Permutation in Hy as [l2' Hl2'].
    rewrite Hl2' in Hperm |- *. simpl in Hperm.
    apply Permutation_cons_inv in Hperm. constructor. apply IH. done.
Qed.

Lemma filter_all {A} (pred : A -> bool) (l : list A) :
  Forall (fun x => pred x = true) l -> List.filter pred l = l.
Proof.
  induction 1 as [|x l Hx _ IH]; simpl; [done |]. rewrite Hx, IH. done.
Qed.

Lemma filter_none {A} (pred : A -> bool) (l : list A) :
  Forall (fun x => pred x = false) l -> List.filter pred l = [].
Proof.
  induction 1 as [|x l Hx _ IH]; simpl; [done |]. rewrite Hx, IH. done.
Qed.

Lemma filter_Permutation_bool {A} (pred : A -> bool) (l1 l2 : list A) :
  l1 ≡ₚ l2 -> List.filter pred l1 ≡ₚ List.filter pred l2.
Proof.
  induction 1 as [|x l1 l2 _ IH|x y l|l1 l2 l3 _ IH1 _ IH2]; simpl.
  - done.
  - destruct (pred x); [constructor |]; done.
  - destruct (pred x), (pred y); try done. apply perm_swap.
  - etrans; done.
Qed.

(* a partitioned list is its two filters *)
Lemma partitioned_filters {A} (pred : A -> bool) (l : list A) (k : nat) :
  Forall (fun x => pred x = true) (take k l) ->
  Forall (fun x => pred x = false) (drop k l) ->
  take k l = List.filter pred l /\
  drop k l = List.filter (fun x => negb (pred x)) l.
Proof.
  intros Ht Hd. rewrite <- (take_drop k l) at 2 4. rewrite !List.filter_app.
  rewrite (filter_all pred (take k l)) by done.
  rewrite (filter_none pred (drop k l)) by done.
  rewrite (filter_none (fun x => negb (pred x)) (take k l)).
  2:{ eapply Forall_impl; [exact Ht |]. simpl. intros x ->. done. }
  rewrite (filter_all (fun x => negb (pred x)) (drop k l)).
  2:{ eapply Forall_impl; [exact Hd |]. simpl. intros x ->. done. }
  rewrite app_nil_r. done.
Qed.

Section Sorting.
Context {F : Type} `{Externals F}.

(* compaction of two arrays that agree up to order, inside and outside
   the active range *)
Lemma compact_related n (e1 e2 e1' e2' : Device F) k1 k2 :
  partition_contract thrust_partition ->
  0 <= n <= Z.of_nat (length (dev_paths e1)) ->
  length (dev_paths e2) = length (dev_paths e1) ->
  take (Z.to_nat n) (dev_paths e1) ≡ₚ take (Z.to_nat n) (dev_paths e2) ->
  drop (Z.to_nat n) (dev_paths e1) ≡ₚ drop (Z.to_nat n) (dev_paths e2) ->
  compact n e1 = (e1', k1) -> compact n e2 = (e2', k2) ->
  k1 = k2 /\ 0 <= k1 <= n /\
  take (Z.to_nat k1) (dev_paths e1') ≡ₚ take (Z.to_nat k1) (dev_paths e2') /\
  drop (Z.to_nat k1) (dev_paths e1') ≡ₚ drop (Z.to_nat k1) (dev_paths e2') /\
  dev_paths e1' ≡ₚ dev_paths e1 /\
  only_paths_changed e1 e1' /\ only_paths_changed e2 e2'.
Proof.
  intros Hpart Hn Hlen Htake Hdrop Hc1 Hc2.
  destruct (compact_spec n e1 Hpart Hn e1' k1 Hc1)
    as (Hf1 & Hk1 & Hp1 & Hr1 & Hl1 & Hd1).
  destruct (compact_spec n e2 Hpart ltac:(lia) e2' k2 Hc2)
    as (Hf2 & Hk2 & Hp2 & Hr2 & Hl2 & Hd2).
  pose proof Hf1 as (_&_&_&_&_&_&Hlen1).
  pose proof Hf2 as (_&_&_&_&_&_&Hlen2).
  set (a1 := take (Z.to_nat n) (dev_paths e1')) in *.
  set (a2 := take (Z.to_nat n) (dev_paths e2')) in *.
  assert (Ha : a1 ≡ₚ a2) by (rewrite Hp1, Hp2; done).
  assert (Hla1 : length a1 = Z.to_nat n) by (unfold a1; rewrite length_take; lia).
  assert (Hla2 : length a2 = Z.to_nat n) by (unfold a2; rewrite length_take; lia).
  assert (Ht1 : take (Z.to_nat k1) (dev_paths e1') = take (Z.to_nat k1) a1).
  { unfold a1. rewrite take_take. f_equal. lia. }
  assert (Ht2 : take (Z.to_nat k2) (dev_paths e2') = take (Z.to_nat k2) a2).
  { unfold a2. rewrite take_take. f_equal. lia. }
  rewrite Ht1 in Hl1. rewrite Ht2 in Hl2.
  destruct (partitioned_filters rayDeath a1 (Z.to_nat k1)) as [Hfa1 Hfb1].
  { eapply Forall_impl; [exact Hl1 |]. intros p. apply rayDeath_true. }
  { eapply Forall_impl; [exact Hd1 |]. intros p. apply rayDeath_false. }
  destruct (partitioned_filters rayDeath a2 (Z.to_nat k2)) as [Hfa2 Hfb2].
  { eapply Forall_impl; [exact Hl2 |]. intros p. apply rayDeath_true. }
  { eapply Forall_impl; [exact Hd2 |]. intros p. apply rayDeath_false. }
  assert (Hlive : take (Z.to_nat k1) a1 ≡ₚ take (Z.to_nat k2) a2).
  { rewrite Hfa1, Hfa2. apply filter_Permutation_bool. done. }
  assert (Hk : k1 = k2).
  { apply Permutation_length in Hlive. rewrite !length_take in Hlive. lia. }
  subst k2.
  assert (Hwhole : forall (e e' : Device F),
             (Z.to_nat n <= length (dev_paths e'))%nat ->
             drop (Z.to_nat k1) (dev_paths e') =
             drop (Z.to_nat k1) (take (Z.to_nat n) (dev_paths e'))
             ++ drop (Z.to_nat n) (dev_paths e')).
  { intros e e' Hle. rewrite <- (take_drop (Z.to_nat n) (dev_paths e')) at 1.
    rewrite drop_app_le by (rewrite length_take; lia). done. }
  split; [done |]. split; [lia |]. split; [| split; [| split]].
  - rewrite Ht1, Ht2. done.
  - rewrite (Hwhole e1 e1') by lia. rewrite (Hwhole e2 e2') by lia.
    fold a1 a2. rewrite Hfb1, Hfb2, Hr1, Hr2.
    apply Permutation_app; [| done]. apply filter_Permutation_bool. done.
  - rewrite <- (take_drop (Z.to_nat n) (dev_paths e1')).
    rewrite <- (take_drop (Z.to_nat n) (dev_paths e1)).
    rewrite Hr1. fold a1. rewrite Hp1. done.
  - done.
Qed.

Lemma bounces_unfold cfg fuel kdfuel scene iter N depth n (d : Device F) :
  bounces cfg (S fuel) kdfuel scene iter N depth n d =
  do d4 <- shade_pass cfg kdfuel scene iter N depth n d;
  if STREAMCOMP cfg then
    let '(d5, n') := compact n d4 in
    if (n' =? 0) || (wrap32 (depth + 1) =? traceDepth scene) then Ok d5
    else bounces cfg fuel kdfuel scene iter N (wrap32 (depth + 1)) n' d5
  else
    if wrap32 (depth + 1) =? traceDepth scene then Ok d4
    else bounces cfg fuel kdfuel scene iter N (wrap32 (depth + 1)) n d4.
Proof.
  unfold shade_pass. simpl bounces.
  destruct (clear_intersections N d) as [d1|e]; [| done]. cbn [bind].
  destruct (intersect cfg kdfuel scene depth n d1) as [d2|e]; [| done]. done.
Qed.

Lemma fmap_Ok_lookup {A B} (g : A -> Res B) (vs : list A) (ps : list B) i p :
  g <$> vs = Ok <$> ps -> vs !! i = Some p ->
  exists q, ps !! i = Some q /\ g p = Ok q.
Proof.
  intros Heq Hp.
  assert (Hi : (g <$> vs) !! i = Some (g p)) by (rewrite list_lookup_fmap, Hp; done).
  rewrite Heq, list_lookup_fmap in Hi.
  destruct (ps !! i) as [q|]; [| done]. simpl in Hi. exists q. split; congruence.
Qed.

Lemma fmap_Ok_length {A B} (g : A -> Res B) (vs : list A) (ps : list B) :
  g <$> vs = Ok <$> ps -> length ps = length vs.
Proof. intros Heq. apply (f_equal length) in Heq. rewrite !length_fmap in Heq. done. Qed.

Lemma bounce_path_pixel cfg fuel scene iter depth (d : Device F) p q :
  scatter_keeps_pixel ->
  bounce_path cfg fuel scene iter depth d p = Ok q ->
  pixelIndex q = pixelIndex p.
Proof.
  intros Hpix. unfold bounce_path, shadeWith, shadeHit. intros Hrun.
  apply bind_Ok in Hrun as (r & _ & Hrun).
  destruct (remainingBounces p =? 0); [congruence |].
  destruct (fltb fzero (t r)); [| injection Hrun as <-; done].
  apply bind_Ok in Hrun as (m & _ & Hrun).
  destruct (fltb fzero (emittance m)); [injection Hrun as <-; done |].
  apply bind_Ok in Hrun as (p2 & Hp2 & [= <-]). simpl. rewrite Hpix.
  destruct (-1 <? textureOffset m).
  - apply bind_Ok in Hp2 as (c & _ & [= <-]). simpl.
    destruct (textureOffset m =? -2); done.
  - injection Hp2 as <-. destruct (textureOffset m =? -2); done.
Qed.

Lemma bounce_paths_pixels cfg fuel scene iter depth (d : Device F)
    (vs ps : list (PathSegment F)) :
  scatter_keeps_pixel ->
  bounce_path cfg fuel scene iter depth d <$> vs = Ok <$> ps ->
  pixelIndex <$> ps = pixelIndex <$> vs.
Proof.
  intros Hpix Heq. apply list_eq. intros i. rewrite !list_lookup_fmap.
  pose proof (fmap_Ok_length _ _ _ Heq) as Hlen.
  destruct (vs !! i) as [p|] eqn:Hp.
  - destruct (fmap_Ok_lookup _ _ _ _ _ Heq Hp) as (q & -> & Hq). simpl.
    f_equal. eapply bounce_path_pixel; done.
  - apply lookup_ge_None in Hp. rewrite (proj2 (lookup_ge_None ps i)) by lia. done.
Qed.

Lemma bounce_path_with_matsort cfg b fuel scene iter depth (d : Device F) p :
  bounce_path (with_matsort cfg b) fuel scene iter depth d p =
  bounce_path cfg fuel scene iter depth d p.
Proof. reflexivity. Qed.

(* the loop of pathtrace, run with and without sorting from related
   devices *)
Lemma bounces_matsort cfg b1 b2 kdfuel scene iter N :
  seed_ignores_position ->
  scatter_keeps_pixel ->
  sort_permutes_pairs thrust_sort_by_key ->
  partition_contract thrust_partition ->
  STREAMCOMP cfg = true ->
  forall fuel depth n (d1 d2 d1' : Device F),
    related N n d1 d2 ->
    0 <= n <= Z.of_nat (length (dev_paths d1)) -> n <= N ->
    bounces (with_matsort cfg b1) fuel kdfuel scene iter N depth n d1 = Ok d1' ->
    exists d2',
      bounces (with_matsort cfg b2) fuel kdfuel scene iter N depth n d2 = Ok d2' /\
      dev_paths d1' ≡ₚ dev_paths d2' /\
      dev_image d2' = dev_image d1' /\
      dev_image d1' = dev_image d1 /\
      pixelIndex <$> dev_paths d1' ≡ₚ pixelIndex <$> dev_paths d1.
Proof.
  intros Hseed Hpix Hsort Hpart Hsc.
  induction fuel as [|fuel IH]; intros depth n d1 d2 d1' Hrel Hn HnN Hrun;
    [discriminate |].
  destruct Hrel as (Hscene & Himg & Hlen & HN1 & HN2 & Htake & Hdrop).
  rewrite bounces_unfold in Hrun |- *.
  apply bind_Ok in Hrun as (e1 & Hpass1 & Hrest1).
  destruct (shade_pass_result _ _ _ _ _ _ _ _ _ Hseed Hsort Hn HnN Hpass1)
    as (vs1 & ps1 & Hvs1 & Hps1 & Hpaths1 & Hscene1 & Himg1 & Hlx1).
  (* the second run can bounce its paths, which are those of the first *)
  destruct (shade_pass_runs (with_matsort cfg b2) kdfuel scene iter N depth n d2
              Hseed Hsort) as [e2 Hpass2]; [lia | done | done | |].
  { intros p Hp. rewrite <- Htake, <- Hvs1 in Hp.
    apply list_elem_of_lookup in Hp as [i Hi].
    destruct (fmap_Ok_lookup _ _ _ _ _ Hps1 Hi) as (q & _ & Hq).
    exists q. rewrite bounce_path_with_matsort in Hq |- *.
    rewrite (bounce_path_same_scene _ _ _ _ _ d1 d2) by done. exact Hq. }
  assert (Hn' : 0 <= n <= Z.of_nat (length (dev_paths d2))) by lia.
  destruct (shade_pass_result _ _ _ _ _ _ _ _ _ Hseed Hsort Hn' HnN Hpass2)
    as (vs2 & ps2 & Hvs2 & Hps2 & Hpaths2 & Hscene2 & Himg2 & Hlx2).
  rewrite Hpass2. cbn [bind].
  assert (Hps : ps1 ≡ₚ ps2).
  { apply (fmap_Permutation_inj (@Ok (PathSegment F))); [congruence |].
    rewrite <- Hps1, <- Hps2.
    rewrite (list_fmap_ext (bounce_path (with_matsort cfg b2) kdfuel scene iter
                              depth d2)
               (bounce_path (with_matsort cfg b1) kdfuel scene iter depth d1) vs2).
    2:{ intros i p _. rewrite !bounce_path_with_matsort.
        apply (bounce_path_same_scene _ _ _ _ _ d1 d2). done. }
    apply fmap_Permutation. rewrite Hvs1, Hvs2. done. }
  pose proof (fmap_Ok_length _ _ _ Hps1) as Hl1.
  pose proof (fmap_Ok_length _ _ _ Hps2) as Hl2.
  rewrite (Permutation_length Hvs1), length_take in Hl1.
  rewrite (Permutation_length Hvs2), length_take in Hl2.
  assert (Hn1 : length ps1 = Z.to_nat n) by lia.
  assert (Hn2 : length ps2 = Z.to_nat n) by lia.
  assert (Hpix1 : pixelIndex <$> dev_paths e1 ≡ₚ pixelIndex <$> dev_paths d1).
  { rewrite Hpaths1, fmap_app.
    rewrite (bounce_paths_pixels _ _ _ _ _ _ _ _ Hpix Hps1), Hvs1.
    rewrite <- fmap_app, take_drop. done. }
  (* compaction *)
  simpl STREAMCOMP in *. rewrite Hsc in *.
  destruct (compact n e1) as [e1' k1] eqn:Hc1.
  destruct (compact n e2) as [e2' k2] eqn:Hc2.
  destruct (compact_related n e1 e2 e1' e2' k1 k2 Hpart)
    as (<- & Hk & Htake' & Hdrop' & Hperm1 & Hf1 & Hf2); try done.
  { rewrite Hpaths1, length_app, length_drop. lia. }
  { rewrite Hpaths1, Hpaths2, !length_app, !length_drop. lia. }
  { rewrite Hpaths1, Hpaths2, !take_app_length' by done. done. }
  { rewrite Hpaths1, Hpaths2, !drop_app_length' by done. done. }
  pose proof Hf1 as (Hi1 & Hg1 & Hm1 & Hx1 & Ht1 & Hkd1 & Hlp1).
  pose proof Hf2 as (Hi2 & Hg2 & Hm2 & Hx2 & Ht2 & Hkd2 & Hlp2).
  destruct ((k1 =? 0) || (wrap32 (depth + 1) =? traceDepth scene)).
  - injection Hrest1 as <-. exists e2'. split; [done |]. split; [| split; [| split]].
    + rewrite <- (take_drop (Z.to_nat k1) (dev_paths e1')).
      rewrite <- (take_drop (Z.to_nat k1) (dev_paths e2')).
      rewrite Htake', Hdrop'. done.
    + congruence.
    + congruence.
    + rewrite Hperm1. done.
  - destruct (IH (wrap32 (depth + 1)) k1 e1' e2' d1') as (d2' & Hrun2 & Hres);
      [| | lia | done |].
    + destruct Hscene as (?&?&?&?), Hscene1 as (?&?&?&?), Hscene2 as (?&?&?&?).
      split; [repeat split; congruence |].
      split; [congruence |]. split.
      { rewrite Hlp1, Hlp2, Hpaths1, Hpaths2, !length_app, !length_drop. lia. }
      split; [rewrite Hx1; lia |]. split; [rewrite Hx2; lia |]. done.
    + rewrite Hlp1, Hpaths1, length_app, length_drop. lia.
    + destruct Hres as (Hp' & Hi' & Hi'' & Hpx').
      exists d2'. split; [done |]. split; [done |]. split; [done |].
      split; [congruence |].
      rewrite Hpx', Hperm1. done.
Qed.

End Sorting.

(** ** The gather over permuted paths *)

Section GatherSorted.
Context {F : Type} `{Externals F}.

(* the gather does not see the order of the paths when no two of them
   name the same pixel *)
Lemma finalGather_Permutation n (e1 e2 e1' : Device F) :
  dev_paths e1 ≡ₚ dev_paths e2 ->
  dev_image e2 = dev_image e1 ->
  Z.of_nat (length (dev_paths e1)) = n ->
  Z.of_nat (length (dev_image e1)) = n ->
  NoDup (pixelIndex <$> dev_paths e1) ->
  (forall p, p ∈ dev_paths e1 -> 0 <= pixelIndex p < n) ->
  finalGather n n e1 = Ok e1' ->
  exists e2', finalGather n n e2 = Ok e2' /\ dev_image e2' = dev_image e1'.
Proof.
  intros Hperm Himg Hlp Hli Hnodup Hrange Hrun.
  assert (Hinj : forall (e : Device F), dev_paths e1 ≡ₚ dev_paths e ->
             forall (k1 k2 : nat) p1 p2,
               dev_paths e !! k1 = Some p1 -> dev_paths e !! k2 = Some p2 ->
               pixelIndex p1 = pixelIndex p2 -> k1 = k2).
  { intros e He k1 k2 p1 p2 Hq1 Hq2 Heq.
    assert (Hnd : NoDup (pixelIndex <$> dev_paths e)) by (rewrite <- He; done).
    apply (proj1 (NoDup_alt _) Hnd k1 k2 (pixelIndex p1)).
    - rewrite list_lookup_fmap, Hq1. done.
    - rewrite list_lookup_fmap, Hq2. simpl. congruence. }
  destruct (finalGather_spec n e1) as (d1 & Hrun1 & Hframe1 & Hsum1 & Hrest1);
    [done | done | | |].
  { intros k p Hp. apply Hrange. eapply list_elem_of_lookup_2. done. }
  { apply Hinj. done. }
  assert (d1 = e1') by congruence. subst d1.
  destruct (finalGather_spec n e2) as (e2' & Hrun2 & Hframe2 & Hsum2 & Hrest2).
  { rewrite <- (Permutation_length Hperm). done. }
  { congruence. }
  { intros k p Hp. apply Hrange. rewrite Hperm. eapply list_elem_of_lookup_2. done. }
  { apply Hinj. done. }
  exists e2'. split; [done |]. apply list_eq. intros i.
  destruct Hframe1 as (_&_&_&_&_&_&Hl1). destruct Hframe2 as (_&_&_&_&_&_&Hl2).
  destruct (decide (Z.of_nat i ∈ pixelIndex <$> dev_paths e1)) as [Hin|Hout].
  - apply list_elem_of_fmap in Hin as (p & Hpi & Hp).
    assert (Hp2 : p ∈ dev_paths e2) by (rewrite <- Hperm; done).
    apply list_elem_of_lookup in Hp as [k1 Hk1].
    apply list_elem_of_lookup in Hp2 as [k2 Hk2].
    assert (Hi : i = Z.to_nat (pixelIndex p)) by lia. subst i.
    destruct (dev_image e1 !! Z.to_nat (pixelIndex p)) as [px|] eqn:Hpx.
    + rewrite (Hsum1 _ _ _ Hk1 Hpx).
      rewrite <- Himg in Hpx. rewrite (Hsum2 _ _ _ Hk2 Hpx). done.
    + apply lookup_ge_None in Hpx.
      rewrite (proj2 (lookup_ge_None (dev_image e1') _)) by lia.
      rewrite (proj2 (lookup_ge_None (dev_image e2') _)) by (rewrite Hl2, Himg; lia).
      done.
  - rewrite Hrest1, Hrest2; [congruence | |].
    + intros k p Hp Hi. apply Hout. apply list_elem_of_fmap. exists p.
      assert (Hpe : p ∈ dev_paths e1).
      { rewrite Hperm. eapply list_elem_of_lookup_2. done. }
      split; [| done]. specialize (Hrange p Hpe). lia.
    + intros k p Hp Hi. apply Hout. apply list_elem_of_fmap. exists p.
      assert (Hpe : p ∈ dev_paths e1).
      { eapply list_elem_of_lookup_2. done. }
      split; [| done]. specialize (Hrange p Hpe). lia.
Qed.

(* the paths the generator leaves name each pixel once *)
Lemma camera_paths_pixels (cam : Camera F) td (paths : list (PathSegment F)) :
  camera_paths cam td (Z.of_nat (length paths)) paths ->
  NoDup (pixelIndex <$> paths) /\
  forall p, p ∈ paths -> 0 <= pixelIndex p < Z.of_nat (length paths).
Proof.
  intros Hcam.
  assert (Hidx : forall (k : nat) p, paths !! k = Some p -> pixelIndex p = Z.of_nat k).
  { intros k p Hp. destruct (Hcam k) as (q & Hq & _ & _ & Hpi & _).
    - apply lookup_lt_Some in Hp. lia.
    - congruence. }
  split.
  - apply NoDup_alt. intros i j x Hi Hj. rewrite list_lookup_fmap in Hi, Hj.
    destruct (paths !! i) as [pi|] eqn:Hpi; [| done].
    destruct (paths !! j) as [pj|] eqn:Hpj; [| done].
    simpl in Hi, Hj. injection Hi as Hi. injection Hj as Hj.
    rewrite (Hidx _ _ Hpi) in Hi. rewrite (Hidx _ _ Hpj) in Hj. lia.
  - intros p Hp. apply list_elem_of_lookup in Hp as [k Hk].
    rewrite (Hidx _ _ Hk). apply lookup_lt_Some in Hk. lia.
Qed.

Lemma related_refl N n (d : Device F) :
  N <= Z.of_nat (length (dev_intersections d)) -> related N n d d.
Proof. intros Hl. unfold related, same_scene. repeat split; done. Qed.

(* one call of pathtrace with and without sorting *)
Lemma pathtrace_matsort cfg b1 b2 fuel kdfuel (scene : Scene F) iter
    (d d1' : Device F) :
  seed_ignores_position ->
  scatter_keeps_pixel ->
  sort_permutes_pairs thrust_sort_by_key ->
  partition_contract thrust_partition ->
  STREAMCOMP cfg = true ->
  valid_resolution (camera scene) ->
  buffers_sized (camera scene) d ->
  pathtrace (with_matsort cfg b1) fuel kdfuel scene iter d = Ok d1' ->
  exists d2',
    pathtrace (with_matsort cfg b2) fuel kdfuel scene iter d = Ok d2' /\
    dev_image d2' = dev_image d1'.
Proof.
  intros Hseed Hpix Hsort Hpart Hsc Hvalid (Hli & Hlp & Hlx) Hrun.
  unfold pathtrace in *. set (n := pixelcount_of (camera scene)) in *.
  assert (Hn : 0 <= n) by lia.
  apply bind_Ok in Hrun as (g & Hgen & Hrun).
  apply bind_Ok in Hrun as (e1 & Hloop & Hgather).
  destruct (generateRayFromCamera_spec (camera scene) iter (traceDepth scene) d
              Hvalid Hlp) as (g' & Hgen' & Hframe & Hcam).
  assert (g' = g) by congruence. subst g'. fold n in Hcam.
  destruct Hframe as (Hgi & _ & _ & Hgx & _ & _ & Hgl).
  rewrite Hgen. cbn [bind].
  destruct (bounces_matsort cfg b1 b2 kdfuel scene iter n Hseed Hpix Hsort Hpart Hsc
              fuel 0 n g g e1) as (e2 & Hloop2 & Hperm & Hi2 & Hi1 & Hpx);
    [| lia | lia | done |].
  { apply related_refl. rewrite Hgx. lia. }
  rewrite Hloop2. cbn [bind].
  assert (Hgn : Z.of_nat (length (dev_paths g)) = n) by lia.
  rewrite <- Hgn in Hcam.
  destruct (camera_paths_pixels _ _ _ Hcam) as [Hnd Hrange].
  apply (finalGather_Permutation n e1 e2 d1'); try done.
  - apply Permutation_length in Hpx. rewrite !length_fmap in Hpx. lia.
  - rewrite Hi1, Hgi. done.
  - rewrite Hpx. done.
  - intros p Hp.
    assert (Hin : pixelIndex p ∈ pixelIndex <$> dev_paths g).
    { rewrite <- Hpx. apply list_elem_of_fmap. exists p. done. }
    apply list_elem_of_fmap in Hin as (q & -> & Hq).
    specialize (Hrange q Hq). lia.
Qed.

End GatherSorted.

(** ** The sample externals meet the contracts *)

Lemma insert_by_key_Permutation {K V} (lt : K -> K -> bool) (x : K * V) l :
  Sample.insert_by_key lt x l ≡ₚ x :: l.
Proof.
  induction l as [|y l IH]; simpl; [done |].
  destruct (lt y.1 x.1); [rewrite IH; apply perm_swap |].
  destruct (lt x.1 y.1); [done |]. rewrite IH. apply perm_swap.
Qed.

Lemma foldl_insert_by_key_Permutation {K V} (lt : K -> K -> bool)
    (l acc : list (K * V)) :
  foldl (fun acc x => Sample.insert_by_key lt x acc) acc l ≡ₚ acc ++ l.
Proof.
  revert acc. induction l as [|x l IH]; intros acc; simpl.
  - rewrite app_nil_r. done.
  - rewrite IH, insert_by_key_Permutation. rewrite <- Permutation_middle. done.
Qed.

Lemma sort_by_key_permutes_pairs :
  sort_permutes_pairs (F := float) (@Sample.sort_by_key _ _).
Proof.
  intros lt ks vs Hlen. unfold Sample.sort_by_key. cbn [fst snd].
  set (sorted := foldl _ _ _).
  assert (Hperm : sorted ≡ₚ zip ks vs).
  { unfold sorted. rewrite foldl_insert_by_key_Permutation. done. }
  assert (Hl : length sorted = length ks).
  { rewrite (Permutation_length Hperm), length_zip. lia. }
  rewrite !length_fmap, zip_fst_snd. split; [done |]. split; [lia | done].
Qed.

Lemma bounce_keeps_pixel (engine : Z -> Z) :
  @scatter_keeps_pixel float _ _ (Sample.externals_with engine).
Proof. intros q x n m e. reflexivity. Qed.

Lemma unseeded_ignores_position :
  @seed_ignores_position float _ _ Sample.externals_unseeded.
Proof. intros iter depth i j. reflexivity. Qed.

(** ** Material sorting and the image *)



(** ** Faults of a launch *)

(* every fault of a launch is a fault of one of its threads *)
Lemma launch_from_fault_kind {St} (I : St -> Prop) (body : Z -> St -> Res St)
    (e0 : Fault) :
  (forall j s s', I s -> body j s = Ok s' -> I s') ->
  (forall j s e, I s -> body j s = Err e -> e = e0) ->
  forall n i s e, I s -> launch_from body i n s = Err e -> e = e0.
Proof.
  intros Hkeep Hkind. induction n as [|n IH]; intros i s e Hs Hrun; simpl in Hrun.
  - discriminate.
  - destruct (body i s) as [s1|e1] eqn:Hstep; simpl in Hrun.
    + eapply IH; [eapply Hkeep; eauto | exact Hrun].
    + injection Hrun as <-. eapply Hkind; eauto.
Qed.

(* a thread that faults on every state it can be started in makes the
   launch fault *)
Lemma launch_from_faults {St} (I : St -> Prop) (body : Z -> St -> Res St) (j0 : Z) :
  (forall j s s', I s -> body j s = Ok s' -> I s') ->
  (forall s, I s -> exists e, body j0 s = Err e) ->
  forall n i s, I s -> i <= j0 < i + Z.of_nat n ->
    exists e, launch_from body i n s = Err e.
Proof.
  intros Hkeep Hbad. induction n as [|n IH]; intros i s Hs Hj; simpl.
  - lia.
  - destruct (body i s) as [s1|e1] eqn:Hstep; simpl; [| eauto].
    destruct (decide (i = j0)) as [->|Hne].
    + destruct (Hbad s Hs) as [e He]. congruence.
    + apply IH; [eapply Hkeep; eauto | lia].
Qed.

Section GatherMore.
Context {F : Type} `{Externals F}.

Lemma finalGather_thread_keeps nPaths (d0 : Device F) j (d d' : Device F) :
  dev_paths d = dev_paths d0 /\ length (dev_image d) = length (dev_image d0) ->
  finalGather_thread nPaths j d = Ok d' ->
  dev_paths d' = dev_paths d0 /\ length (dev_image d') = length (dev_image d0).
Proof.
  intros [Hp Hl] Hrun. unfold finalGather_thread in Hrun.
  destruct (j <? nPaths); [| injection Hrun as <-; done].
  apply bind_Ok in Hrun as (p & _ & Hrun).
  apply bind_Ok in Hrun as (px & _ & Hrun).
  apply bind_Ok in Hrun as (a & Hw & [= <-]). simpl.
  apply wr_length in Hw. split; [done | congruence].
Qed.

Lemma finalGather_thread_fault_kind nPaths j (d : Device F) e :
  finalGather_thread nPaths j d = Err e -> e = OutOfBounds.
Proof.
  unfold finalGather_thread, rd, wr. intros Hrun.
  repeat match type of Hrun with
         | context [if ?c then _ else _] => destruct c; simpl in Hrun
         | context [match ?l !! ?i with _ => _ end] => destruct (l !! i); simpl in Hrun
         end; congruence.
Qed.

End GatherMore.

(** The gather adds the colour of each of the first n paths to the pixel
    the path names and leaves the other pixels, and everything but the
    image, as they were.  The paths must name pixels of the image, and no
    two of them the same pixel: the threads add to the image without
    synchronisation. *)
Theorem finalGather_adds_each_path_to_its_pixel {F : Type} `{Externals F}
    n (d : Device F) :
  Z.of_nat (length (dev_paths d)) = n ->
  Z.of_nat (length (dev_image d)) = n ->
  (forall (k : nat) p, dev_paths d !! k = Some p -> 0 <= pixelIndex p < n) ->
  (forall (k1 k2 : nat) p1 p2,
      dev_paths d !! k1 = Some p1 -> dev_paths d !! k2 = Some p2 ->
      pixelIndex p1 = pixelIndex p2 -> k1 = k2) ->
  exists d',
    finalGather n n d = Ok d' /\
    only_image_changed d d' /\
    (forall (k : nat) p px,
        dev_paths d !! k = Some p ->
        dev_image d !! Z.to_nat (pixelIndex p) = Some px ->
        dev_image d' !! Z.to_nat (pixelIndex p) = Some (vadd px (color p))) /\
    (forall i : nat,
        (forall (k : nat) p, dev_paths d !! k = Some p ->
                             Z.to_nat (pixelIndex p) <> i) ->
        dev_image d' !! i = dev_image d !! i).
Proof. apply finalGather_spec. Qed.

Lemma finalGather_adds_each_path_to_its_pixel_witness :
  exists d',
    finalGather 2 2 Scenes.swapped_device = Ok d' /\
    dev_image d' !! 1%nat = Some (vadd Scenes.black Scenes.white).
Proof.
  destruct (finalGather_adds_each_path_to_its_pixel 2 Scenes.swapped_device)
    as (d' & Hrun & _ & Hsum & _).
  - reflexivity.
  - reflexivity.
  - intros [|[|k]] p; simpl; intros [= <-]; simpl; lia.
  - intros [|[|k1]] [|[|k2]] p1 p2; simpl; intros [= <-] [= <-]; simpl;
      (done || lia).
  - exists d'. split; [done |].
    apply (Hsum 0%nat (Scenes.path Scenes.ray_up 1 0) Scenes.black); reflexivity.
Defined.

(** The gather reads the image at the pixel index a path carries without
    checking it: a path among the first nPaths whose pixel index lies
    outside the image makes the kernel fault. *)
Theorem finalGather_faults_on_stray_pixel {F : Type} `{Externals F}
    pixelcount nPaths (d : Device F) (k : nat) p :
  dev_paths d !! k = Some p ->
  Z.of_nat k < nPaths -> Z.of_nat k < pixelcount ->
  pixelIndex p < 0 \/ Z.of_nat (length (dev_image d)) <= pixelIndex p ->
  finalGather pixelcount nPaths d = Err OutOfBounds.
Proof.
  intros Hp Hk Hkp Hstray. unfold finalGather, launch.
  set (I := fun d1 : Device F =>
              dev_paths d1 = dev_paths d /\
              length (dev_image d1) = length (dev_image d)).
  assert (Hkeep : forall j (s s' : Device F),
             I s -> finalGather_thread nPaths j s = Ok s' -> I s').
  { intros j s s'. apply finalGather_thread_keeps. }
  destruct (launch_from_faults I (finalGather_thread nPaths) (Z.of_nat k) Hkeep)
    with (n := Z.to_nat (threads1d pixelcount)) (i := 0) (s := d) as [e He].
  - intros s [Hps Hli]. unfold finalGather_thread.
    destruct (Z.ltb_spec (Z.of_nat k) nPaths); [| lia].
    rewrite (rd_lookup (dev_paths s) k p) by (rewrite Hps; done). cbn [bind].
    exists OutOfBounds. unfold rd.
    destruct (Z.ltb_spec (pixelIndex p) 0); [done |].
    rewrite (proj2 (lookup_ge_None _ _)) by lia. done.
  - done.
  - pose proof (threads1d_ge pixelcount ltac:(lia)). lia.
  - rewrite He. f_equal.
    eapply (launch_from_fault_kind I (finalGather_thread nPaths) OutOfBounds Hkeep);
      [| | exact He].
    + intros j s e' _. apply finalGather_thread_fault_kind.
    + done.
Qed.

Lemma finalGather_faults_on_stray_pixel_witness :
  finalGather 2 2 (pathtraceInit (Scenes.two_walls 0) Scenes.stale) = Err OutOfBounds.
Proof.
  apply (finalGather_faults_on_stray_pixel 2 2
           (pathtraceInit (Scenes.two_walls 0) Scenes.stale) 0 Scenes.stale).
  - reflexivity.
  - lia.
  - lia.
  - right. vm_compute. discriminate.
Defined.

(** ** What the shader does to a slot *)

Section ShadeMore.
Context {F : Type} `{Externals F}.

(* the slot [k] of the active range after the shader *)
Lemma shadeMaterials_slot cfg iter n depth (d d' : Device F) (k : nat) p :
  0 <= n <= Z.of_nat (length (dev_paths d)) ->
  shadeMaterials cfg iter n depth d = Ok d' ->
  Z.of_nat k < n -> dev_paths d !! k = Some p ->
  exists y,
    dev_paths d' !! k = Some y /\
    (if remainingBounces p =? 0 then Ok p
     else do intersection <- rd (dev_intersections d) (Z.of_nat k);
          shadeWith cfg iter (Z.of_nat k) depth d intersection p) = Ok y.
Proof.
  intros Hn Hrun Hk Hp.
  apply shadeMaterials_slots in Hrun as (ps & Hlen & Hslots & ->); [| done].
  destruct (Hslots k p Hp ltac:(lia)) as (y & Hy & Hval).
  exists y. split; [| done]. simpl.
  rewrite lookup_app_l by lia. done.
Qed.

Lemma shadeMaterials_tail cfg iter n depth (d d' : Device F) (k : nat) :
  0 <= n <= Z.of_nat (length (dev_paths d)) ->
  shadeMaterials cfg iter n depth d = Ok d' ->
  n <= Z.of_nat k -> dev_paths d' !! k = dev_paths d !! k.
Proof.
  intros Hn Hrun Hk.
  apply shadeMaterials_slots in Hrun as (ps & Hlen & Hslots & ->); [| done].
  simpl. rewrite lookup_app_r by lia. rewrite lookup_drop. f_equal. lia.
Qed.

(* the counter the shader leaves on a hit *)
Lemma shadeHit_counter cfg iter index depth (intersection : ShadeableIntersection F)
    (material : Material F) textures (p q : PathSegment F) :
  (forall (s : PathSegment F) x nrm m e,
      remainingBounces (scatterRay s x nrm m e) = remainingBounces s) ->
  shadeHit cfg iter index depth intersection material textures p = Ok q ->
  remainingBounces q = 0 \/ remainingBounces q = -1 \/
  remainingBounces q = wrap32 (remainingBounces p - 1).
Proof.
  intros Hkeep. unfold shadeHit. intros Hrun.
  destruct (fltb fzero (emittance material)); [injection Hrun as <-; left; done |].
  apply bind_Ok in Hrun as (p2 & Hp2 & [= <-]). simpl. rewrite Hkeep.
  assert (Hrb : remainingBounces p2 = 0 \/ remainingBounces p2 = remainingBounces p).
  { destruct (-1 <? textureOffset material).
    - apply bind_Ok in Hp2 as (c & _ & [= <-]). simpl.
      destruct (textureOffset material =? -2); simpl; auto.
    - injection Hp2 as <-. destruct (textureOffset material =? -2); simpl; auto. }
  destruct Hrb as [-> | ->]; [right; left; reflexivity | right; right; done].
Qed.

End ShadeMore.

(** The shader writes dev_paths only, and of it only the active range.
    It leaves a path whose counter is zero as it is, and turns a path
    whose record is not a hit (t > 0 does not hold: a miss, t = 0, a NaN)
    into a black path with counter zero. *)
Theorem shader_skips_finished_and_blackens_misses {F : Type} `{Externals F}
    cfg iter n depth (d d' : Device F) :
  0 <= n <= Z.of_nat (length (dev_paths d)) ->
  shadeMaterials cfg iter n depth d = Ok d' ->
  only_paths_changed d d' /\
  (forall k : nat, n <= Z.of_nat k -> dev_paths d' !! k = dev_paths d !! k) /\
  (forall (k : nat) p,
      Z.of_nat k < n -> dev_paths d !! k = Some p -> remainingBounces p = 0 ->
      dev_paths d' !! k = Some p) /\
  (forall (k : nat) p r,
      Z.of_nat k < n -> dev_paths d !! k = Some p -> remainingBounces p <> 0 ->
      dev_intersections d !! k = Some r -> fltb fzero (t r) = false ->
      dev_paths d' !! k =
      Some {| ray := ray p; color := splat fzero; pixelIndex := pixelIndex p;
              remainingBounces := 0 |}).
Proof.
  intros Hn Hrun. split; [eapply shadeMaterials_frame; exact Hrun |].
  split; [intros k Hk; eapply shadeMaterials_tail; eauto |]. split.
  - intros k p Hk Hp Hz.
    destruct (shadeMaterials_slot _ _ _ _ _ _ _ _ Hn Hrun Hk Hp) as (y & Hy & Hval).
    rewrite Hz in Hval. simpl in Hval. congruence.
  - intros k p r Hk Hp Hnz Hr Hmiss.
    destruct (shadeMaterials_slot _ _ _ _ _ _ _ _ Hn Hrun Hk Hp) as (y & Hy & Hval).
    destruct (Z.eqb_spec (remainingBounces p) 0) as [|_]; [done |].
    rewrite (rd_lookup _ _ _ Hr) in Hval. cbn [bind] in Hval.
    unfold shadeWith in Hval.
    destruct (Z.eqb_spec (remainingBounces p) 0) as [|_]; [done |].
    rewrite Hmiss in Hval. injection Hval as <-. exact Hy.
Qed.

Lemma shader_skips_finished_and_blackens_misses_witness :
  exists d',
    shadeMaterials source_config 0 1 0 Scenes.wall_device = Ok d' /\
    dev_paths d' !! 0%nat =
    Some {| ray := Scenes.ray_up; color := splat fzero; pixelIndex := 0;
            remainingBounces := 0 |}.
Proof.
  assert (Hrun : exists d', shadeMaterials source_config 0 1 0 Scenes.wall_device = Ok d')
    by (eexists; vm_compute; reflexivity).
  destruct Hrun as [d' Hrun]. exists d'. split; [done |].
  destruct (shader_skips_finished_and_blackens_misses source_config 0 1 0
              Scenes.wall_device d') as (_ & _ & _ & Hmiss).
  - simpl. lia.
  - exact Hrun.
  - apply (Hmiss 0%nat (Scenes.path Scenes.ray_up 0 2) zero_intersection);
      (reflexivity || lia || discriminate).
Defined.

(** One pass of the shader strictly lowers the counter of every live path
    of the active range, to -1 at the least, for a scatterRay that leaves
    the counter alone: a path is shaded at most as many times as its
    counter says. *)
Theorem shader_lowers_live_counters {F : Type} `{Externals F}
    cfg iter n depth (d d' : Device F) :
  (forall (s : PathSegment F) x nrm m e,
      remainingBounces (scatterRay s x nrm m e) = remainingBounces s) ->
  0 <= n <= Z.of_nat (length (dev_paths d)) ->
  shadeMaterials cfg iter n depth d = Ok d' ->
  forall (k : nat) p,
    Z.of_nat k < n -> dev_paths d !! k = Some p ->
    0 < remainingBounces p < 2 ^ 31 ->
    exists p', dev_paths d' !! k = Some p' /\
               -1 <= remainingBounces p' < remainingBounces p.
Proof.
  intros Hkeep Hn Hrun k p Hk Hp Hlive.
  destruct (shadeMaterials_slot _ _ _ _ _ _ _ _ Hn Hrun Hk Hp) as (y & Hy & Hval).
  exists y. split; [done |].
  destruct (Z.eqb_spec (remainingBounces p) 0) as [|_]; [lia |].
  apply bind_Ok in Hval as (r & _ & Hval). unfold shadeWith in Hval.
  destruct (Z.eqb_spec (remainingBounces p) 0) as [|_]; [lia |].
  destruct (fltb fzero (t r)).
  - apply bind_Ok in Hval as (m & _ & Hval).
    destruct (shadeHit_counter _ _ _ _ _ _ _ _ _ Hkeep Hval) as [-> | [-> | ->]];
      [lia | lia |].
    rewrite wrap32_small by lia. lia.
  - injection Hval as <-. simpl. lia.
Qed.

Lemma shader_lowers_live_counters_witness :
  exists d' p',
    shadeMaterials source_config 0 1 0 Scenes.hit_device = Ok d' /\
    dev_paths d' !! 0%nat = Some p' /\ -1 <= remainingBounces p' < 2.
Proof.
  assert (Hrun : exists d', shadeMaterials source_config 0 1 0 Scenes.hit_device = Ok d')
    by (eexists; vm_compute; reflexivity).
  destruct Hrun as [d' Hrun].
  destruct (shader_lowers_live_counters source_config 0 1 0 Scenes.hit_device d')
    with (k := 0%nat) (p := Scenes.path Scenes.ray_up 0 2) as (p' & Hp' & Hrb).
  - intros s x nrm m e. reflexivity.
  - simpl. lia.
  - exact Hrun.
  - lia.
  - reflexivity.
  - simpl. lia.
  - exists d', p'. done.
Defined.

(** ** What the intersection kernels store *)

Section IntersectMore.
Context {F : Type} `{Externals F}.

Lemma computeIntersectionsKD_slots fuel depth n (d d' : Device F) :
  0 <= n <= Z.of_nat (length (dev_intersections d)) ->
  computeIntersectionsKD fuel depth n d = Ok d' <->
  exists rs,
    length rs = Z.to_nat n /\
    (forall (k : nat) r,
        dev_intersections d !! k = Some r -> (k < Z.to_nat n)%nat ->
        exists y, rs !! k = Some y /\
                  (do p <- rd (dev_paths d) (Z.of_nat k); recordKD fuel d p r)
                  = Ok y) /\
    d' = set_intersections d (rs ++ drop (Z.to_nat n) (dev_intersections d)).
Proof.
  intros Hn.
  pose proof (threads1d_ge n ltac:(lia)) as HT.
  unfold computeIntersectionsKD, launch.
  apply (launch_slotwise dev_intersections set_intersections
           (fun k s r => do p <- rd (dev_paths s) k; recordKD fuel s p r)
           (computeIntersectionsKD_thread fuel depth n)
           (Z.to_nat n) (Z.to_nat (threads1d n))); try done; try lia.
  - apply set_intersections_same.
  - intros k s r Hk Hr.
    apply computeIntersectionsKD_thread_record; [lia | done].
  - intros i s Hi. unfold computeIntersectionsKD_thread.
    destruct (Z.ltb_spec i n); [lia | done].
Qed.

Lemma computeIntersections_slots depth n gsize (d d' : Device F) :
  0 <= n <= Z.of_nat (length (dev_intersections d)) ->
  computeIntersections depth n gsize d = Ok d' <->
  exists rs,
    length rs = Z.to_nat n /\
    (forall (k : nat) r,
        dev_intersections d !! k = Some r -> (k < Z.to_nat n)%nat ->
        exists y, rs !! k = Some y /\
                  (do p <- rd (dev_paths d) (Z.of_nat k); recordBrute gsize d p r)
                  = Ok y) /\
    d' = set_intersections d (rs ++ drop (Z.to_nat n) (dev_intersections d)).
Proof.
  intros Hn.
  pose proof (threads1d_ge n ltac:(lia)) as HT.
  unfold computeIntersections, launch.
  apply (launch_slotwise dev_intersections set_intersections
           (fun k s r => do p <- rd (dev_paths s) k; recordBrute gsize s p r)
           (computeIntersections_thread depth n gsize)
           (Z.to_nat n) (Z.to_nat (threads1d n))); try done; try lia.
  - apply set_intersections_same.
  - intros k s r Hk Hr.
    apply computeIntersections_thread_record; [lia | done].
  - intros i s Hi.
    unfold computeIntersections_thread, computeIntersections_thread_local.
    destruct (Z.ltb_spec i n); [lia | done].
Qed.

(* the first thread of a launch over a non-empty range *)
Lemma launch_first_fault {St} (n : Z) (body : Z -> St -> Res St) (s : St) e :
  0 < n -> body 0 s = Err e -> launch (threads1d n) body s = Err e.
Proof.
  intros Hn Hbody. unfold launch.
  pose proof (threads1d_ge n ltac:(lia)).
  destruct (Z.to_nat (threads1d n)) as [|m] eqn:Hm; [lia |].
  simpl. rewrite Hbody. done.
Qed.

(** *** The nearest hit so far *)

Lemma set_test_nearest (l : IsectLocals F) x :
  l_hit_geom_index (set_test l x) = l_hit_geom_index l /\
  l_t_min (set_test l x) = l_t_min l.
Proof. destruct x as [[? ?] ?]. done. Qed.

Lemma keep_nearest_ok (l : IsectLocals F) i :
  nearest_ok l -> nearest_ok (keep_nearest l i).
Proof.
  unfold nearest_ok, keep_nearest. intros Hl.
  destruct (fltb fzero (l_t l)) eqn:Hpos; simpl; [| done].
  destruct (fltb (l_t l) (l_t_min l)); simpl; [right |]; done.
Qed.

Lemma testPrimitiveKD_ok geom r (l : IsectLocals F) :
  nearest_ok l -> nearest_ok (testPrimitiveKD geom r l).
Proof.
  unfold nearest_ok, testPrimitiveKD. intros Hl.
  destruct (type geom); try done;
    match goal with |- context [set_test l ?x] =>
      destruct (set_test_nearest l x) as [-> ->] end; done.
Qed.

Lemma testPrimitive_ok geom r (l : IsectLocals F) :
  nearest_ok l -> nearest_ok (testPrimitive geom r l).
Proof.
  unfold nearest_ok, testPrimitive. intros Hl.
  destruct (type geom);
    try (match goal with |- context [set_test l ?x] =>
           destruct (set_test_nearest l x) as [-> ->] end; done).
  destruct (mandelbulbIntersectionTest _ _ _ _ _) as [[[x q] nrm] c]. done.
Qed.

Lemma testRange_ok test geoms r offset n :
  (forall geom (l : IsectLocals F), nearest_ok l -> nearest_ok (test geom r l)) ->
  forall i l l',
    nearest_ok l -> testRange test geoms r offset i n l = Ok l' -> nearest_ok l'.
Proof.
  intros Htest. induction n as [|n IH]; intros i l l' Hl Hrun; simpl in Hrun.
  - congruence.
  - apply bind_Ok in Hrun as (geom & _ & Hrun).
    eapply IH; [| exact Hrun]. apply keep_nearest_ok, Htest, Hl.
Qed.

Lemma kd_step_ok kdtree geoms r (s : KDState F) out :
  nearest_ok (locals s) ->
  kd_step kdtree geoms r s = Ok out ->
  match out with
  | Continue s' | Break s' => nearest_ok (locals s')
  end.
Proof.
  intros Hl Hstep. unfold kd_step in Hstep.
  apply bind_Ok in Hstep as (node & _ & Hstep).
  assert (Hpop : forall l o, nearest_ok l -> kd_pop s l = Ok o ->
                   match o with Continue s' | Break s' => nearest_ok (locals s') end).
  { intros l o Hok. unfold kd_pop.
    destruct (toVisitOffset s =? 0); [intros [= <-]; done |].
    intros Hp. apply bind_Ok in Hp as (next & _ & [= <-]). done. }
  destruct (negb _); [| eapply Hpop; eauto].
  destruct (0 <? nPrimitives node).
  - apply bind_Ok in Hstep as (l & Hl' & Hstep).
    eapply Hpop; [| exact Hstep].
    eapply testRange_ok; [| exact Hl | exact Hl'].
    intros. apply testPrimitiveKD_ok. done.
  - unfold kd_push in Hstep.
    apply bind_Ok in Hstep as (stack & _ & [= <-]). done.
Qed.

Lemma kd_loop_ok kdtree geoms r fuel : forall (s s' : KDState F),
  nearest_ok (locals s) ->
  kd_loop fuel kdtree geoms r s = Ok s' -> nearest_ok (locals s').
Proof.
  induction fuel as [|fuel IH]; intros s s' Hl Hrun; simpl in Hrun; [done |].
  apply bind_Ok in Hrun as (out & Hstep & Hrun).
  pose proof (kd_step_ok _ _ _ _ _ Hl Hstep) as Hout.
  destruct out as [s1|s1]; [eapply IH; eauto | congruence].
Qed.

Lemma applyNormalMap_t geom material pt normal textures
    (r y : ShadeableIntersection F) :
  applyNormalMap geom material pt normal textures r = Ok y -> t y = t r.
Proof.
  unfold applyNormalMap. destruct (-1 <? normMapOffset material); [| congruence].
  destruct (computeSphereTBN geom pt normal) as [tg b].
  intros Hrun. apply bind_Ok in Hrun as (texel & _ & [= <-]). done.
Qed.

Lemma record_distance cfg fuel scene (d : Device F) p (r y : ShadeableIntersection F) :
  record cfg fuel scene d p r = Ok y ->
  t y = flit (-1) 1 \/ fltb fzero (t y) = true.
Proof.
  unfold record, recordKD, recordBrute. destruct (ACCELSTRUCT cfg); intros Hrun.
  - apply bind_Ok in Hrun as (s & Hloop & Hrun).
    assert (Hok : nearest_ok (locals s)).
    { eapply kd_loop_ok; [| exact Hloop]. left. done. }
    destruct (Z.eqb_spec (l_hit_geom_index (locals s)) (-1)) as [|Hhit].
    + injection Hrun as <-. left. done.
    + apply bind_Ok in Hrun as (geom & _ & Hrun).
      apply bind_Ok in Hrun as (material & _ & Hrun).
      apply applyNormalMap_t in Hrun. simpl in Hrun. right. rewrite Hrun.
      destruct Hok; [done | done].
  - apply bind_Ok in Hrun as (l & Hl & Hrun).
    assert (Hok : nearest_ok l).
    { eapply testRange_ok; [| | exact Hl]; [| left; done].
      intros. apply testPrimitive_ok. done. }
    destruct (Z.eqb_spec (l_hit_geom_index l) (-1)) as [|Hhit].
    + injection Hrun as <-. left. done.
    + apply bind_Ok in Hrun as (geom & _ & Hrun).
      apply bind_Ok in Hrun as (material & _ & Hrun).
      apply applyNormalMap_t in Hrun. simpl in Hrun. right. rewrite Hrun.
      destruct Hok; [done | done].
Qed.

(* the brute-force loop runs off the end of a short primitive array *)
Lemma testRange_overrun test geoms r n : forall i (l : IsectLocals F),
  0 <= i <= Z.of_nat (length geoms) ->
  Z.of_nat (length geoms) < i + Z.of_nat n ->
  i + Z.of_nat n < 2 ^ 31 ->
  testRange test geoms r 0 i n l = Err OutOfBounds.
Proof.
  induction n as [|n IH]; intros i l Hi Hover Hsmall; simpl; [lia |].
  rewrite Z.add_0_l, wrap32_small by lia.
  destruct (rd geoms i) as [g|e] eqn:Hrd; cbn [bind].
  - apply rd_Ok in Hrd as [_ Hlk]. apply lookup_lt_Some in Hlk.
    apply IH; lia.
  - unfold rd in Hrd. destruct (i <? 0); [congruence |].
    destruct (geoms !! Z.to_nat i); congruence.
Qed.

End IntersectMore.



(** Every record either intersection kernel stores in the active range
    has t equal to -1.0f, for no hit, or t > 0: the nearest distance is
    only ever replaced by a positive one. *)
Theorem recorded_distance_is_minus_one_or_positive {F : Type} `{Externals F}
    cfg fuel scene depth n (d d' : Device F) :
  0 <= n <= Z.of_nat (length (dev_intersections d)) ->
  intersect cfg fuel scene depth n d = Ok d' ->
  forall (k : nat) r,
    Z.of_nat k < n -> dev_intersections d' !! k = Some r ->
    t r = flit (-1) 1 \/ fltb fzero (t r) = true.
Proof.
  intros Hn Hrun k r Hk Hr.
  apply intersect_slots in Hrun as (rs & Hlen & Hslots & ->); [| done].
  simpl in Hr. rewrite lookup_app_l in Hr by lia.
  destruct (lookup_lt_is_Some_2 (dev_intersections d) k) as [r0 Hr0]; [lia |].
  destruct (Hslots k r0 Hr0 ltac:(lia)) as (y & Hy & Hval).
  assert (y = r) by congruence. subst y.
  apply bind_Ok in Hval as (p & _ & Hval).
  eapply record_distance. exact Hval.
Qed.

Lemma recorded_distance_is_minus_one_or_positive_witness :
  exists d' r,
    intersect source_config 1 (Scenes.two_walls 2) 0 1 Scenes.wall_device = Ok d' /\
    dev_intersections d' !! 0%nat = Some r /\
    (t r = flit (-1) 1 \/ fltb fzero (t r) = true).
Proof.
  assert (Hrun : exists d' r,
             intersect source_config 1 (Scenes.two_walls 2) 0 1 Scenes.wall_device
             = Ok d' /\ dev_intersections d' !! 0%nat = Some r).
  { eexists. eexists. split; [vm_compute; reflexivity |]. vm_compute. reflexivity. }
  destruct Hrun as (d' & r & Hrun & Hr). exists d', r.
  split; [done |]. split; [done |].
  apply (recorded_distance_is_minus_one_or_positive source_config 1
           (Scenes.two_walls 2) 0 1 Scenes.wall_device d') with (k := 0%nat).
  - simpl. lia.
  - exact Hrun.
  - lia.
  - exact Hr.
Defined.

(** The traversal reads the root of the flattened tree before any test:
    on an empty tree the accelerated kernel reads dev_kdtree out of bounds
    as soon as there is an active path. *)
Theorem accelerated_kernel_faults_on_empty_tree {F : Type} `{Externals F}
    fuel depth n (d : Device F) p :
  dev_kdtree d = [] ->
  0 < n -> dev_paths d !! 0%nat = Some p ->
  computeIntersectionsKD (S fuel) depth n d = Err OutOfBounds.
Proof.
  intros Hkd Hn Hp. unfold computeIntersectionsKD.
  apply launch_first_fault; [done |].
  unfold computeIntersectionsKD_thread.
  destruct (Z.ltb_spec 0 n); [| lia].
  assert (Hrd : rd (dev_paths d) 0 = Ok p) by (apply (rd_lookup _ 0%nat); done).
  rewrite Hrd. cbn [bind].
  simpl. unfold kd_step. rewrite Hkd. done.
Qed.

Lemma accelerated_kernel_faults_on_empty_tree_witness :
  computeIntersectionsKD 1 0 2 Scenes.spent_device = Err OutOfBounds.
Proof.
  apply (accelerated_kernel_faults_on_empty_tree 0 0 2 Scenes.spent_device
           (Scenes.path Scenes.ray_up 0 (-1))).
  - reflexivity.
  - lia.
  - reflexivity.
Defined.

(** With no primitive to test (geoms_size is zero or less) the brute-force
    kernel records a miss in every active slot: t becomes -1.0f and the
    other fields of the record keep what they held. *)
Theorem brute_force_without_geometry_records_misses {F : Type} `{Externals F}
    depth n gsize (d : Device F) :
  gsize <= 0 ->
  0 <= n <= Z.of_nat (length (dev_intersections d)) ->
  n <= Z.of_nat (length (dev_paths d)) ->
  computeIntersections depth n gsize d =
  Ok (set_intersections d
        (((fun r => with_t r (flit (-1) 1)) <$> take (Z.to_nat n) (dev_intersections d))
         ++ drop (Z.to_nat n) (dev_intersections d))).
Proof.
  intros Hg Hn Hp. apply computeIntersections_slots; [done |].
  eexists. split; [| split; [| reflexivity]].
  - rewrite length_fmap, length_take. lia.
  - intros k r Hr Hk.
    exists (with_t r (flit (-1) 1)). split.
    + rewrite list_lookup_fmap, lookup_take_lt by lia. rewrite Hr. done.
    + destruct (lookup_lt_is_Some_2 (dev_paths d) k) as [q Hq]; [lia |].
      rewrite (rd_lookup _ _ _ Hq). cbn [bind]. unfold recordBrute.
      replace (Z.to_nat gsize) with 0%nat by lia. done.
Qed.

Lemma brute_force_without_geometry_records_misses_witness :
  computeIntersections 0 2 0 Scenes.spent_device =
  Ok (set_intersections Scenes.spent_device
        (replicate 2 (with_t zero_intersection (flit (-1) 1)))).
Proof.
  rewrite (brute_force_without_geometry_records_misses 0 2 0 Scenes.spent_device);
    [reflexivity | lia | simpl; lia | simpl; lia].
Defined.

(** The brute-force kernel trusts its geoms_size argument (pathtrace
    passes hst_scene->geoms.size(), pathtraceInit uploads sortedGeoms):
    when it exceeds the number of primitives in dev_geoms the loop reads
    dev_geoms out of bounds as soon as there is an active path. *)
Theorem brute_force_overruns_short_geometry {F : Type} `{Externals F}
    depth n gsize (d : Device F) p :
  Z.of_nat (length (dev_geoms d)) < gsize < 2 ^ 31 ->
  0 < n -> dev_paths d !! 0%nat = Some p ->
  computeIntersections depth n gsize d = Err OutOfBounds.
Proof.
  intros Hg Hn Hp. unfold computeIntersections.
  apply launch_first_fault; [done |].
  unfold computeIntersections_thread, computeIntersections_thread_local.
  destruct (Z.ltb_spec 0 n); [| lia].
  assert (Hrd : rd (dev_paths d) 0 = Ok p) by (apply (rd_lookup _ 0%nat); done).
  rewrite Hrd. cbn [bind].
  rewrite testRange_overrun by lia. done.
Qed.

Lemma brute_force_overruns_short_geometry_witness :
  computeIntersections 0 1 3 Scenes.wall_device = Err OutOfBounds.
Proof.
  apply (brute_force_overruns_short_geometry 0 1 3 Scenes.wall_device
           (Scenes.path Scenes.ray_up 0 2)).
  - simpl. lia.
  - lia.
  - reflexivity.
Defined.

(** ** The loop of the traversal and the recursive traversal *)

Section Visit.
Context {F : Type} `{Externals F}.
Variables (kdtree : list LinearKDNode) (geoms : list (Geom F)) (r : Ray F).

(* leaving a node by the stack takes one turn *)
Lemma kd_pop_leaves (s : KDState F) l :
  0 <= toVisitOffset s <= Z.of_nat (length (nodesToVisit s)) ->
  toVisitOffset s < 2 ^ 31 ->
  kd_step kdtree geoms r s = kd_pop s l ->
  kd_leaves kdtree geoms r s l 1.
Proof.
  intros Hoff Hsmall Hstep. unfold kd_leaves.
  destruct (Z.eqb_spec (toVisitOffset s) 0) as [Hz|Hnz].
  - eexists. split; [| intros fuel; simpl; rewrite Hstep; unfold kd_pop;
                      destruct (Z.eqb_spec (toVisitOffset s) 0); [| lia];
                      reflexivity].
    reflexivity.
  - destruct (lookup_lt_is_Some_2 (nodesToVisit s) (Z.to_nat (toVisitOffset s - 1)))
      as [x Hx]; [lia |].
    assert (Hrd : rd (nodesToVisit s) (toVisitOffset s - 1) = Ok x)
      by (apply rd_Ok; split; [lia | done]).
    exists {| toVisitOffset := toVisitOffset s - 1; currentNodeIndex := x;
              nodesToVisit := nodesToVisit s; locals := l |}.
    simpl. repeat split; try done.
    intros fuel. rewrite Hstep. unfold kd_pop.
    destruct (Z.eqb_spec (toVisitOffset s) 0); [lia |].
    rewrite wrap32_small by lia. rewrite Hrd. reflexivity.
Qed.

(* Entered with [off] entries on the stack, the loop spends at most one
   turn per node of the subtree and leaves it with the locals of the
   recursive traversal. *)
Lemma kd_loop_subtree shape : forall i (s : KDState F),
  Z.of_nat (length kdtree) < 2 ^ 31 ->
  Z.of_nat (length geoms) < 2 ^ 31 ->
  kd_wf kdtree (Z.of_nat (length geoms)) shape i ->
  currentNodeIndex s = i ->
  length (nodesToVisit s) = Z.to_nat nodesToVisit_capacity ->
  0 <= toVisitOffset s ->
  toVisitOffset s + kd_depth shape < nodesToVisit_capacity ->
  exists l' m,
    (1 <= m <= kd_nodes shape)%nat /\
    kd_visit kdtree geoms r shape i (locals s) = Ok l' /\
    kd_leaves kdtree geoms r s l' m.
Proof.
  unfold nodesToVisit_capacity.
  induction shape as [|near IHnear far IHfar];
    intros i s Hkd Hgeoms Hwf Hcur Hlen Hoff Hfit; simpl in Hwf, Hfit.
  - destruct Hwf as (node & Hrd & Hn & Hpo & Hrange).
    simpl kd_visit. rewrite Hrd. cbn [bind].
    destruct (negb (feqb (boundsIntersectionTest (bounds node) r) (flit (-1) 1)))
      eqn:Hhit.
    + destruct (testRange_total geoms r testPrimitiveKD (primitivesOffset node)
                  (Z.to_nat (nPrimitives node)) 0 (locals s)) as [l' Hl'];
        [lia .. |].
      exists l', 1%nat. split; [simpl; lia |]. split; [done |].
      apply kd_pop_leaves; [rewrite Hlen; lia | lia |].
      unfold kd_step. rewrite Hcur, Hrd. cbn [bind]. rewrite Hhit.
      destruct (Z.ltb_spec 0 (nPrimitives node)); [| lia].
      rewrite Hl'. done.
    + exists (locals s), 1%nat. split; [simpl; lia |]. split; [done |].
      apply kd_pop_leaves; [rewrite Hlen; lia | lia |].
      unfold kd_step. rewrite Hcur, Hrd. cbn [bind]. rewrite Hhit. done.
  - destruct Hwf as (node & Hrd & Hn & Hnear & Hfar).
    pose proof (kd_depth_nonneg near) as Hdn.
    pose proof (kd_depth_nonneg far) as Hdf.
    assert (Hi : 0 <= i < Z.of_nat (length kdtree)).
    { apply rd_Ok in Hrd as [Hi Hlk]. apply lookup_lt_Some in Hlk. lia. }
    simpl kd_visit. rewrite Hrd. cbn [bind].
    destruct (negb (feqb (boundsIntersectionTest (bounds node) r) (flit (-1) 1)))
      eqn:Hhit.
    + set (s1 := {| toVisitOffset := toVisitOffset s + 1;
                    currentNodeIndex := i + 1;
                    nodesToVisit :=
                      <[Z.to_nat (toVisitOffset s) := secondChildOffset node]>
                        (nodesToVisit s);
                    locals := locals s |}).
      assert (Hstep : kd_step kdtree geoms r s = Ok (Continue s1)).
      { unfold kd_step. rewrite Hcur, Hrd. cbn [bind]. rewrite Hhit.
        destruct (Z.ltb_spec 0 (nPrimitives node)); [lia |].
        unfold kd_push.
        assert (Hw : wr (nodesToVisit s) (toVisitOffset s) (secondChildOffset node)
                     = Ok (nodesToVisit s1)).
        { apply wr_Ok. rewrite Hlen. split; [lia | done]. }
        rewrite Hw. cbn [bind]. rewrite Hcur, !wrap32_small by lia. done. }
      destruct (IHnear (i + 1) s1) as (l1 & m1 & Hm1 & Hvisit1 & Hleave1);
        [done | done | done | done | | simpl; lia | simpl; lia |].
      { simpl. rewrite length_insert. done. }
      unfold kd_leaves in Hleave1. simpl in Hleave1, Hvisit1.
      destruct (Z.eqb_spec (toVisitOffset s + 1) 0) as [|_]; [lia |].
      destruct Hleave1 as (s2 & Hoff2 & Hcur2 & Hlen2 & Hsame2 & Hl2 & Hrun1).
      replace (toVisitOffset s + 1 - 1) with (toVisitOffset s) in * by lia.
      assert (Hsec : currentNodeIndex s2 = secondChildOffset node).
      { apply rd_Ok in Hcur2 as [_ Hlk].
        rewrite list_lookup_insert_eq in Hlk by lia. congruence. }
      rewrite length_insert in Hlen2.
      destruct (IHfar (secondChildOffset node) s2)
        as (l2 & m2 & Hm2 & Hvisit2 & Hleave2);
        [done | done | done | done | lia | lia | lia |].
      rewrite Hl2 in Hvisit2.
      exists l2, (S (m1 + m2)). split; [simpl; lia |]. split.
      { rewrite Hvisit1. cbn [bind]. done. }
      assert (Hturns : forall fuel,
                 kd_loop (S (m1 + m2) + fuel) kdtree geoms r s =
                 kd_loop (m2 + fuel) kdtree geoms r s2).
      { intros fuel. replace (S (m1 + m2) + fuel)%nat with (S (m1 + (m2 + fuel)))
          by lia.
        simpl. rewrite Hstep. cbn [bind]. apply Hrun1. }
      unfold kd_leaves in *. rewrite Hoff2 in Hleave2.
      destruct (Z.eqb_spec (toVisitOffset s) 0) as [|Hnz].
      * destruct Hleave2 as (st & Hst & Hrun2).
        exists st. split; [done |]. intros fuel. rewrite Hturns. apply Hrun2.
      * destruct Hleave2 as (s3 & Hoff3 & Hcur3 & Hlen3 & Hsame3 & Hl3 & Hrun2).
        assert (Hbelow : forall k, Z.of_nat k < toVisitOffset s ->
                           nodesToVisit s2 !! k = nodesToVisit s !! k).
        { intros k Hk. rewrite Hsame2 by lia.
          apply list_lookup_insert_ne. lia. }
        exists s3. split; [done |]. split; [| split; [| split; [| split]]].
        -- apply rd_Ok in Hcur3 as [Hge Hlk]. apply rd_Ok. split; [done |].
           rewrite <- Hbelow by lia. done.
        -- congruence.
        -- intros k Hk. rewrite Hsame3 by done. apply Hbelow. done.
        -- done.
        -- intros fuel. rewrite Hturns. apply Hrun2.
    + exists (locals s), 1%nat. split; [simpl; lia |]. split; [done |].
      apply kd_pop_leaves; [rewrite Hlen; lia | lia |].
      unfold kd_step. rewrite Hcur, Hrd. cbn [bind]. rewrite Hhit. done.
Qed.

(* the whole traversal *)
Lemma kd_loop_visit shape :
  well_formed_kdtree kdtree geoms shape ->
  kd_depth shape < nodesToVisit_capacity ->
  exists l,
    kd_visit kdtree geoms r shape 0 init_locals = Ok l /\
    forall fuel, (kd_nodes shape <= fuel)%nat ->
                 exists st, kd_loop fuel kdtree geoms r kd_init = Ok st /\
                            locals st = l.
Proof.
  intros (Hwf & Hkd & Hgeoms) Hdepth.
  destruct (kd_loop_subtree shape 0 kd_init) as (l & m & Hm & Hvisit & Hleave);
    simpl; rewrite ?length_replicate; try solve [done | lia].
  exists l. split; [done |]. intros fuel Hfuel.
  unfold kd_leaves in Hleave. simpl in Hleave.
  destruct Hleave as (st & Hst & Hrun). exists st. split; [| done].
  replace fuel with (m + (fuel - m))%nat by lia. apply Hrun.
Qed.

End Visit.

(** On a well-formed tree whose depth is below the capacity of the stack
    the loop of the accelerated kernel computes what the recursive
    depth-first traversal computes (near child first, a node whose bounds
    the ray misses skipped with its subtree), in at most one turn per node
    of the tree. *)
Theorem kd_traversal_is_depth_first_visit {F : Type} `{Externals F}
    (kdtree : list LinearKDNode) (geoms : list (Geom F)) (r : Ray F)
    (shape : KDShape) :
  well_formed_kdtree kdtree geoms shape ->
  kd_depth shape < nodesToVisit_capacity ->
  exists l,
    kd_visit kdtree geoms r shape 0 init_locals = Ok l /\
    forall fuel, (kd_nodes shape <= fuel)%nat ->
                 exists st, kd_loop fuel kdtree geoms r kd_init = Ok st /\
                            locals st = l.
Proof. apply kd_loop_visit. Qed.

Lemma kd_traversal_is_depth_first_visit_witness :
  exists l,
    kd_visit Scenes.small_tree Scenes.small_geoms Scenes.ray_up
      (KDInterior KDLeaf KDLeaf) 0 init_locals = Ok l /\
    l_hit_geom_index l = 0 /\
    exists st, kd_loop 3 Scenes.small_tree Scenes.small_geoms Scenes.ray_up kd_init
               = Ok st /\ locals st = l.
Proof.
  destruct (kd_traversal_is_depth_first_visit Scenes.small_tree Scenes.small_geoms
              Scenes.ray_up (KDInterior KDLeaf KDLeaf)) as (l & Hvisit & Hloop).
  - split; [| split; reflexivity].
    simpl. eexists. split; [reflexivity |]. split; [simpl; lia |]. split.
    + eexists. split; [reflexivity |]. simpl. lia.
    + eexists. split; [reflexivity |]. simpl. lia.
  - reflexivity.
  - exists l. split; [done |]. split.
    + vm_compute in Hvisit. injection Hvisit as <-. reflexivity.
    + apply (Hloop 3%nat). simpl. lia.
Defined.

(** ** The two kernels on boxes, spheres and triangles *)

Lemma launch_from_ext {St} (I : St -> Prop) (body1 body2 : Z -> St -> Res St) :
  (forall j s s', I s -> body1 j s = Ok s' -> I s') ->
  (forall j s, I s -> body1 j s = body2 j s) ->
  forall n i s, I s -> launch_from body1 i n s = launch_from body2 i n s.
Proof.
  intros Hkeep Hext. induction n as [|n IH]; intros i s Hs; simpl; [done |].
  rewrite <- (Hext i s Hs).
  destruct (body1 i s) as [s1|e] eqn:Hstep; simpl; [| done].
  apply IH. eapply Hkeep; eauto.
Qed.

Section KDBrute.
Context {F : Type} `{Externals F}.

Lemma testRange_shift test (geoms : list (Geom F)) r a n : forall b l,
  testRange test geoms r a b n l = testRange test geoms r 0 (a + b) n l.
Proof.
  induction n as [|n IH]; intros b l; simpl; [done |].
  rewrite Z.add_0_l.
  destruct (rd geoms (wrap32 (a + b))) as [g|e]; simpl; [| done].
  rewrite IH. f_equal. lia.
Qed.

Lemma testRange_app test (geoms : list (Geom F)) r n1 n2 : forall i l,
  testRange test geoms r 0 i (n1 + n2) l =
  do l1 <- testRange test geoms r 0 i n1 l;
  testRange test geoms r 0 (i + Z.of_nat n1) n2 l1.
Proof.
  induction n1 as [|n1 IH]; intros i l; simpl.
  - rewrite Z.add_0_r. done.
  - destruct (rd geoms (wrap32 (0 + i))) as [g|e]; simpl; [| done].
    rewrite IH. replace (i + 1 + Z.of_nat n1) with (i + Z.pos (Pos.of_succ_nat n1))
      by lia. done.
Qed.

Lemma testPrimitive_supported (g : Geom F) r l :
  box_sphere_or_triangle g -> testPrimitiveKD g r l = testPrimitive g r l.
Proof.
  unfold box_sphere_or_triangle, testPrimitiveKD, testPrimitive.
  intros [-> | [-> | ->]]; done.
Qed.

Lemma testRange_supported (geoms : list (Geom F)) r offset n : forall i l,
  Forall box_sphere_or_triangle geoms ->
  testRange testPrimitiveKD geoms r offset i n l =
  testRange testPrimitive geoms r offset i n l.
Proof.
  induction n as [|n IH]; intros i l Hall; simpl; [done |].
  destruct (rd geoms (wrap32 (offset + i))) as [g|e] eqn:Hrd; simpl; [| done].
  rewrite testPrimitive_supported.
  - apply IH. done.
  - apply rd_Ok in Hrd as [_ Hlk].
    eapply Forall_lookup_1; eauto.
Qed.

(* a covered range is not empty *)
Lemma kd_covers_lt kdtree ngeoms shape : forall i lo hi,
  kd_wf kdtree ngeoms shape i -> kd_covers kdtree shape i lo hi -> lo < hi.
Proof.
  induction shape as [|near IHnear far IHfar]; intros i lo hi Hwf Hcov;
    simpl in Hwf, Hcov.
  - destruct Hwf as (node & Hrd & Hn & _).
    destruct Hcov as (node' & Hrd' & Hlo & Hhi).
    assert (node' = node) by congruence. subst node'. lia.
  - destruct Hwf as (node & Hrd & _ & Hnear & Hfar).
    destruct Hcov as (node' & mid & Hrd' & Hcn & Hcf).
    assert (node' = node) by congruence. subst node'.
    pose proof (IHnear _ _ _ Hnear Hcn). pose proof (IHfar _ _ _ Hfar Hcf). lia.
Qed.

(* the recursive traversal of a tree that covers [lo, hi), for a ray
   that enters every node, is the loop over the primitives lo .. hi - 1 *)
Lemma kd_visit_covers kdtree (geoms : list (Geom F)) r shape : forall i lo hi l,
  enters_every_node kdtree r ->
  kd_wf kdtree (Z.of_nat (length geoms)) shape i ->
  kd_covers kdtree shape i lo hi ->
  kd_visit kdtree geoms r shape i l =
  testRange testPrimitiveKD geoms r 0 lo (Z.to_nat (hi - lo)) l.
Proof.
  intros i lo hi l Henter. revert i lo hi l.
  induction shape as [|near IHnear far IHfar]; intros i lo hi l Hwf Hcov;
    simpl in Hwf, Hcov.
  - destruct Hwf as (node & Hrd & Hn & _).
    destruct Hcov as (node' & Hrd' & Hlo & Hhi).
    assert (node' = node) by congruence. subst node'.
    simpl. rewrite Hrd. cbn [bind].
    rewrite Henter.
    2:{ apply rd_Ok in Hrd as [_ Hlk]. eapply list_elem_of_lookup_2. exact Hlk. }
    simpl. rewrite testRange_shift, Hlo, Z.add_0_r. f_equal. lia.
  - destruct Hwf as (node & Hrd & _ & Hnear & Hfar).
    destruct Hcov as (node' & mid & Hrd' & Hcn & Hcf).
    assert (node' = node) by congruence. subst node'.
    pose proof (kd_covers_lt _ _ _ _ _ _ Hnear Hcn).
    pose proof (kd_covers_lt _ _ _ _ _ _ Hfar Hcf).
    simpl. rewrite Hrd. cbn [bind].
    rewrite Henter.
    2:{ apply rd_Ok in Hrd as [_ Hlk]. eapply list_elem_of_lookup_2. exact Hlk. }
    simpl.
    replace (Z.to_nat (hi - lo)) with (Z.to_nat (mid - lo) + Z.to_nat (hi - mid))%nat
      by lia.
    rewrite testRange_app.
    rewrite (IHnear _ _ _ _ Hnear Hcn).
    destruct (testRange testPrimitiveKD geoms r 0 lo (Z.to_nat (mid - lo)) l)
      as [l1|e]; simpl; [| done].
    rewrite (IHfar _ _ _ _ Hfar Hcf). f_equal. lia.
Qed.

(* one thread of each kernel *)
Lemma computeIntersections_threads_agree fuel depth n gsize (d : Device F) shape j :
  well_formed_kdtree (dev_kdtree d) (dev_geoms d) shape ->
  kd_depth shape < nodesToVisit_capacity ->
  (kd_nodes shape <= fuel)%nat ->
  kd_covers (dev_kdtree d) shape 0 0 gsize ->
  Forall box_sphere_or_triangle (dev_geoms d) ->
  (forall (k : nat) p, Z.of_nat k < n -> dev_paths d !! k = Some p ->
                       enters_every_node (dev_kdtree d) (ray p)) ->
  computeIntersectionsKD_thread fuel depth n j d =
  computeIntersections_thread depth n gsize j d.
Proof.
  intros Hwf Hdepth Hfuel Hcov Hall Henter.
  unfold computeIntersectionsKD_thread, computeIntersections_thread,
    computeIntersections_thread_local.
  destruct (Z.ltb_spec j n) as [Hj|Hj]; [| done].
  destruct (rd (dev_paths d) j) as [p|e] eqn:Hp; cbn [bind]; [| done].
  assert (Henter' : enters_every_node (dev_kdtree d) (ray p)).
  { apply rd_Ok in Hp as [Hge Hlk]. apply (Henter (Z.to_nat j)); [lia | done]. }
  destruct (kd_loop_visit (dev_kdtree d) (dev_geoms d) (ray p) shape Hwf Hdepth)
    as (l & Hvisit & Hloop).
  destruct (Hloop fuel Hfuel) as (st & Hst & Hl).
  rewrite Hst. cbn [bind]. rewrite Hl.
  pose proof Hwf as (Hwf0 & _ & _).
  rewrite (kd_visit_covers _ _ _ _ 0 0 gsize) in Hvisit by done.
  rewrite testRange_supported, Z.sub_0_r in Hvisit by done.
  rewrite Hvisit. cbn [bind].
  destruct (rd (dev_intersections d) j) as [r0|e]; cbn [bind]; [| done].
  destruct (l_hit_geom_index l =? -1).
  - destruct (wr _ _ _); done.
  - destruct (rd (dev_geoms d) (l_hit_geom_index l)) as [g|e]; cbn [bind]; [| done].
    simpl materialId.
    destruct (rd (dev_materials d) (materialid g)) as [m|e]; cbn [bind]; [| done].
    destruct (applyNormalMap _ _ _ _ _ _) as [r3|e]; cbn [bind]; [| done].
    destruct (wr _ _ _); done.
Qed.

End KDBrute.

(** When every primitive is a box, a sphere or a triangle, the leaves of
    the flattened tree hold the primitives 0 .. geoms_size - 1 in the
    order of the traversal, and the ray of every active path meets the
    bounds of every node, the accelerated kernel tests the primitives in
    the order of the brute-force loop: the two kernels return the same
    device, bit for bit, or the same fault. *)
Theorem kernels_agree_on_boxes_spheres_triangles {F : Type} `{Externals F}
    fuel depth n gsize (d : Device F) shape :
  well_formed_kdtree (dev_kdtree d) (dev_geoms d) shape ->
  kd_depth shape < nodesToVisit_capacity ->
  (kd_nodes shape <= fuel)%nat ->
  kd_covers (dev_kdtree d) shape 0 0 gsize ->
  Forall box_sphere_or_triangle (dev_geoms d) ->
  (forall (k : nat) p, Z.of_nat k < n -> dev_paths d !! k = Some p ->
                       enters_every_node (dev_kdtree d) (ray p)) ->
  computeIntersectionsKD fuel depth n d = computeIntersections depth n gsize d.
Proof.
  intros Hwf Hdepth Hfuel Hcov Hall Henter.
  unfold computeIntersectionsKD, computeIntersections, launch.
  apply (launch_from_ext (fun d1 : Device F => only_intersections_changed d d1)).
  - intros j s s' Hs Hrun.
    eapply only_intersections_changed_trans; [exact Hs |].
    eapply computeIntersectionsKD_thread_frame. exact Hrun.
  - intros j s (_ & Hg & _ & Hp & _ & Hk & _).
    apply (computeIntersections_threads_agree fuel depth n gsize s shape);
      rewrite ?Hg, ?Hk, ?Hp; done.
  - apply only_intersections_changed_refl.
Qed.

Lemma kernels_agree_on_boxes_spheres_triangles_witness :
  exists d',
    computeIntersectionsKD 1 0 1 Scenes.wall_device = Ok d' /\
    computeIntersections 0 1 2 Scenes.wall_device = Ok d'.
Proof.
  assert (Hrun : exists d', computeIntersectionsKD 1 0 1 Scenes.wall_device = Ok d')
    by (eexists; vm_compute; reflexivity).
  destruct Hrun as [d' Hrun]. exists d'. split; [done |]. rewrite <- Hrun.
  symmetry.
  apply (kernels_agree_on_boxes_spheres_triangles 1 0 1 2 Scenes.wall_device KDLeaf).
  - split; [| split; reflexivity].
    simpl. eexists. split; [reflexivity |]. simpl. lia.
  - reflexivity.
  - simpl. lia.
  - simpl. eexists. split; [reflexivity |]. simpl. lia.
  - unfold box_sphere_or_triangle.
    apply Forall_cons; split; [simpl; auto |].
    apply Forall_cons; split; [simpl; auto |]. apply Forall_nil_2.
  - intros k p _ _ node Hnode. simpl in Hnode.
    apply list_elem_of_In in Hnode. destruct Hnode as [<- | []]. reflexivity.
Defined.

(** ** The nearest hit of the brute-force loop *)

Lemma SFltb_irrefl (x : spec_float) : SFltb x x = false.
Proof.
  unfold SFltb, SFcompare.
  destruct x as [s|s| |s m e]; try destruct s; try reflexivity;
    rewrite Z.compare_refl; change (Pcompare m m Eq) with (Pos.compare m m);
    rewrite Pos.compare_refl; reflexivity.
Qed.

Lemma SFltb_trans (x y z : spec_float) :
  SFltb x y = true -> SFltb y z = true -> SFltb x z = true.
Proof.
  unfold SFltb, SFcompare.
  destruct x as [sx|sx| |sx mx ex], y as [sy|sy| |sy my ey], z as [sz|sz| |sz mz ez];
    try destruct sx; try destruct sy; try destruct sz;
    try reflexivity; try discriminate;
    change (Pcompare mx my Eq) with (Pos.compare mx my);
    change (Pcompare my mz Eq) with (Pos.compare my mz);
    change (Pcompare mx mz Eq) with (Pos.compare mx mz);
    destruct (Z.compare_spec ex ey), (Z.compare_spec ey ez), (Z.compare_spec ex ez);
    try discriminate; try reflexivity; try lia; subst;
    destruct (Pos.compare_spec mx my), (Pos.compare_spec my mz),
      (Pos.compare_spec mx mz);
    simpl; try discriminate; try reflexivity; try lia.
Qed.

Section Nearest.
Context {F : Type} `{Externals F}.

Lemma testPrimitive_keeps (g : Geom F) r l :
  l_hit_geom_index (testPrimitive g r l) = l_hit_geom_index l /\
  l_t_min (testPrimitive g r l) = l_t_min l.
Proof.
  unfold testPrimitive.
  destruct (type g); try apply set_test_nearest.
  destruct (mandelbulbIntersectionTest _ _ _ _ _) as [[[x q] nrm] c]. done.
Qed.

Lemma applyNormalMap_materialId geom material pt normal textures
    (r y : ShadeableIntersection F) :
  applyNormalMap geom material pt normal textures r = Ok y ->
  materialId y = materialId r.
Proof.
  unfold applyNormalMap. destruct (-1 <? normMapOffset material); [| congruence].
  destruct (computeSphereTBN geom pt normal) as [tg b].
  intros Hrun. apply bind_Ok in Hrun as (texel & _ & [= <-]). done.
Qed.

Lemma testRange_nearest (geoms : list (Geom F)) (r : Ray F) :
  (forall a : F, fltb a a = false) ->
  (forall a b c : F, fltb a b = true -> fltb b c = true -> fltb a c = true) ->
  (forall g l l', l_t (testPrimitive g r l) = l_t (testPrimitive g r l')) ->
  forall n i l l',
    0 <= i -> i + Z.of_nat n < 2 ^ 31 ->
    nearest_below geoms r i l ->
    testRange testPrimitive geoms r 0 i n l = Ok l' ->
    nearest_below geoms r (i + Z.of_nat n) l'.
Proof.
  intros Hirr Htrans Hindep.
  induction n as [|n IH]; intros i l l' Hi Hsmall Hinv Hrun; simpl in Hrun.
  - injection Hrun as <-. rewrite Z.add_0_r. done.
  - rewrite Z.add_0_l, wrap32_small in Hrun by lia.
    apply bind_Ok in Hrun as (g & Hg & Hrun).
    apply rd_Ok in Hg as [_ Hg].
    replace (i + Z.of_nat (S n)) with (i + 1 + Z.of_nat n) by lia.
    eapply IH; [lia | lia | | exact Hrun].
    destruct Hinv as [Hmin Hhit].
    destruct (testPrimitive_keeps g r l) as [Hkh Hkm].
    assert (Hd : l_t (testPrimitive g r l) = tested_distance g r)
      by apply Hindep.
    unfold keep_nearest. rewrite Hd, Hkm.
    destruct (fltb fzero (tested_distance g r)) eqn:Hpos; simpl.
    + destruct (fltb (tested_distance g r) (l_t_min l)) eqn:Hnear; simpl.
      * split.
        -- intros j g' Hj Hg' Hpos'.
           destruct (decide (Z.of_nat j = i)) as [Heq|Hne].
           ++ replace j with (Z.to_nat i) in Hg' by lia.
              assert (g' = g) by congruence. subst g'. apply Hirr.
           ++ destruct (fltb (tested_distance g' r) (tested_distance g r)) eqn:Hlt;
                [| done].
              assert (Hj' : Z.of_nat j < i) by lia.
              specialize (Hmin j g' Hj' Hg' Hpos').
              rewrite (Htrans _ _ _ Hlt Hnear) in Hmin. done.
        -- right. exists (Z.to_nat i), g. simpl. rewrite Z2Nat.id by lia.
           split; [done |]. split; [lia |]. split; [done |]. split; done.
      * split.
        -- intros j g' Hj Hg' Hpos'.
           destruct (decide (Z.of_nat j = i)) as [Heq|Hne].
           ++ replace j with (Z.to_nat i) in Hg' by lia.
              assert (g' = g) by congruence. subst g'. rewrite Hkm. done.
           ++ rewrite Hkm. apply (Hmin j g'); (done || lia).
        -- rewrite Hkh, Hkm.
           destruct Hhit as [Hno | (j & g' & Hj & Hji & Hg' & Hm' & Hp')];
             [left; done |].
           right. exists j, g'. repeat split; (done || lia).
    + split.
      * intros j g' Hj Hg' Hpos'.
        destruct (decide (Z.of_nat j = i)) as [Heq|Hne].
        -- replace j with (Z.to_nat i) in Hg' by lia.
           assert (g' = g) by congruence. subst g'. congruence.
        -- rewrite Hkm. apply (Hmin j g'); (done || lia).
      * rewrite Hkh, Hkm.
        destruct Hhit as [Hno | (j & g' & Hj & Hji & Hg' & Hm' & Hp')];
          [left; done |].
        right. exists j, g'. repeat split; (done || lia).
Qed.

End Nearest.

(* the distance a wall returns does not look at the output parameters *)
Lemma wall_distance_ignores_outputs (g : Geom float) (r : Ray float)
    (l l' : IsectLocals float) :
  l_t (testPrimitive g r l) = l_t (testPrimitive g r l').
Proof.
  unfold testPrimitive. destruct (type g); simpl; unfold Sample.wallTest;
    destruct (geomRest g) as [side dist];
    destruct (if side =? 0 then true else _); reflexivity.
Qed.

(** The brute-force kernel records the nearest hit.  When the distance a
    primitive test returns does not depend on what its output parameters
    hold, the record of an active path is either a miss (t = -1.0f), and
    then no primitive below geoms_size has a distance in (0, FLT_MAX); or
    it carries the distance and the material of one of those primitives,
    that distance is positive, and no primitive has a positive distance
    below it. *)
Theorem brute_force_records_the_nearest_hit `{SceneTypes} `{!Externals float}
    depth n gsize (d d' : Device float) :
  (forall g (r : Ray float) l l',
      l_t (testPrimitive g r l) = l_t (testPrimitive g r l')) ->
  0 <= n <= Z.of_nat (length (dev_intersections d)) ->
  0 <= gsize < 2 ^ 31 ->
  computeIntersections depth n gsize d = Ok d' ->
  forall (k : nat) p y,
    Z.of_nat k < n -> dev_paths d !! k = Some p ->
    dev_intersections d' !! k = Some y ->
    (t y = flit (-1) 1 /\
     forall (j : nat) g,
       Z.of_nat j < gsize -> dev_geoms d !! j = Some g ->
       fltb fzero (tested_distance g (ray p)) = true ->
       fltb (tested_distance g (ray p)) FLT_MAX = false) \/
    (exists (i : nat) gi,
        Z.of_nat i < gsize /\ dev_geoms d !! i = Some gi /\
        t y = tested_distance gi (ray p) /\ materialId y = materialid gi /\
        fltb fzero (t y) = true /\
        forall (j : nat) g,
          Z.of_nat j < gsize -> dev_geoms d !! j = Some g ->
          fltb fzero (tested_distance g (ray p)) = true ->
          fltb (tested_distance g (ray p)) (t y) = false).
Proof.
  intros Hindep Hn Hg Hrun k p y Hk Hp Hy.
  apply computeIntersections_slots in Hrun as (rs & Hlen & Hslots & ->); [| done].
  simpl in Hy. rewrite lookup_app_l in Hy by lia.
  destruct (lookup_lt_is_Some_2 (dev_intersections d) k) as [r0 Hr0]; [lia |].
  destruct (Hslots k r0 Hr0 ltac:(lia)) as (y' & Hy' & Hval).
  assert (y' = y) by congruence. subst y'.
  rewrite (rd_lookup _ _ _ Hp) in Hval. cbn [bind] in Hval.
  unfold recordBrute in Hval.
  apply bind_Ok in Hval as (l & Hl & Hval).
  assert (Hinv : nearest_below (dev_geoms d) (ray p) (0 + Z.of_nat (Z.to_nat gsize)) l).
  { eapply (testRange_nearest (dev_geoms d) (ray p)); [| | | | | | exact Hl].
    - apply SFltb_irrefl.
    - apply SFltb_trans.
    - intros g l1 l2. apply Hindep.
    - lia.
    - lia.
    - split; [intros j g Hj; lia | left; done]. }
  rewrite Z.add_0_l, Z2Nat.id in Hinv by lia.
  destruct Hinv as [Hmin Hhit].
  destruct (Z.eqb_spec (l_hit_geom_index l) (-1)) as [Hno|Hyes].
  - injection Hval as <-. left. split; [done |].
    destruct Hhit as [[_ Hmax] | (j & g & Hj & _)]; [| lia].
    intros j g Hj Hgj Hpos. rewrite <- Hmax. apply (Hmin j g); done.
  - destruct Hhit as [[Hno _] | (i & gi & Hi & Hig & Hgi & Hm & Hpos)]; [done |].
    apply bind_Ok in Hval as (geom & Hgeom & Hval).
    rewrite Hi in Hgeom. apply rd_Ok in Hgeom as [_ Hgeom].
    rewrite Nat2Z.id in Hgeom.
    assert (geom = gi) by congruence. subst geom.
    apply bind_Ok in Hval as (mat & _ & Hval).
    pose proof (applyNormalMap_t _ _ _ _ _ _ _ Hval) as Ht.
    pose proof (applyNormalMap_materialId _ _ _ _ _ _ _ Hval) as Hmid.
    simpl in Ht, Hmid.
    right. exists i, gi. rewrite Ht, Hmid, Hm.
    repeat split; try done.
    rewrite <- Hm. exact Hmin.
Qed.

Lemma brute_force_records_the_nearest_hit_witness :
  exists d' y,
    computeIntersections 0 1 2 Scenes.wall_device = Ok d' /\
    dev_intersections d' !! 0%nat = Some y /\
    t y = fone /\ materialId y = 1.
Proof.
  assert (Hrun : exists d' y,
             computeIntersections 0 1 2 Scenes.wall_device = Ok d' /\
             dev_intersections d' !! 0%nat = Some y /\ fltb fzero (t y) = true).
  { eexists. eexists. split; [vm_compute; reflexivity |].
    split; [vm_compute; reflexivity |]. reflexivity. }
  destruct Hrun as (d' & y & Hrun & Hy & Hpos). exists d', y.
  split; [done |]. split; [done |].
  destruct (brute_force_records_the_nearest_hit 0 1 2 Scenes.wall_device d')
    with (k := 0%nat) (p := Scenes.path Scenes.ray_up 0 2) (y := y)
    as [[Hmiss _] | (i & gi & Hi & Hgi & Ht & Hm & _)].
  - intros g r l l'. apply wall_distance_ignores_outputs.
  - simpl. lia.
  - lia.
  - exact Hrun.
  - lia.
  - reflexivity.
  - exact Hy.
  - rewrite Hmiss in Hpos. discriminate.
  - rewrite Ht, Hm.
    destruct i as [|[|i]]; simpl in Hgi; [| | done].
    + injection Hgi as <-. split; reflexivity.
    + injection Hgi as <-. rewrite Ht in Hpos. discriminate.
Defined.

(** ** The loop of pathtrace *)

Section Loop.
Context {F : Type} `{Externals F}.

Lemma finalGather_frame N n (d d' : Device F) :
  finalGather N n d = Ok d' -> only_image_changed d d'.
Proof.
  unfold finalGather, launch.
  apply (launch_from_preserves (fun d1 : Device F => only_image_changed d d1));
    [| apply only_image_changed_refl].
  intros i s s' Hs Hrun. eapply only_image_changed_trans; [exact Hs |].
  unfold finalGather_thread in Hrun.
  destruct (i <? n); [| injection Hrun as <-; apply only_image_changed_refl].
  apply bind_Ok in Hrun as (p & _ & Hrun).
  apply bind_Ok in Hrun as (px & _ & Hrun).
  apply bind_Ok in Hrun as (a & Hw & [= <-]).
  apply wr_length in Hw. repeat split; done.
Qed.

Lemma sortByMaterial_scene n (d : Device F) :
  same_scene d (sortByMaterial n d) /\
  dev_image (sortByMaterial n d) = dev_image d.
Proof.
  unfold sortByMaterial. destruct (thrust_sort_by_key _ _ _) as [ks vs].
  repeat split.
Qed.

Lemma compact_scene n (d d' : Device F) k :
  compact n d = (d', k) -> same_scene d d' /\ dev_image d' = dev_image d.
Proof.
  unfold compact. destruct (thrust_partition _ _) as [live k'].
  intros [= <- _]. repeat split.
Qed.

Lemma shade_pass_scene cfg kdfuel scene iter N depth n (d d' : Device F) :
  shade_pass cfg kdfuel scene iter N depth n d = Ok d' ->
  same_scene d d' /\ dev_image d' = dev_image d.
Proof.
  unfold shade_pass. intros Hrun.
  apply bind_Ok in Hrun as (d1 & Hclr & Hrun).
  apply bind_Ok in Hrun as (d2 & Hint & Hsh).
  assert (Hc1 : same_scene d d1 /\ dev_image d1 = dev_image d).
  { unfold clear_intersections in Hclr.
    destruct (_ <? _); [done |]. injection Hclr as <-. repeat split. }
  apply intersect_frame in Hint as (Hi2 & Hg2 & Hm2 & _ & Ht2 & Hk2 & _).
  assert (Hc3 : same_scene d2 (if MATSORT cfg then sortByMaterial n d2 else d2) /\
               dev_image (if MATSORT cfg then sortByMaterial n d2 else d2)
               = dev_image d2).
  { destruct (MATSORT cfg); [apply sortByMaterial_scene | repeat split]. }
  apply shadeMaterials_frame in Hsh as (Hi4 & Hg4 & Hm4 & _ & Ht4 & Hk4 & _).
  destruct Hc1 as [(?&?&?&?) ?], Hc3 as [(?&?&?&?) ?].
  split; [repeat split |]; congruence.
Qed.

(* the loop writes neither the scene arrays nor the image *)
Lemma bounces_scene cfg kdfuel scene iter N : forall fuel depth n (d d' : Device F),
  bounces cfg fuel kdfuel scene iter N depth n d = Ok d' ->
  same_scene d d' /\ dev_image d' = dev_image d.
Proof.
  induction fuel as [|fuel IH]; intros depth n d d' Hrun; [discriminate |].
  rewrite bounces_unfold in Hrun.
  apply bind_Ok in Hrun as (e & Hpass & Hrest).
  apply shade_pass_scene in Hpass as [Hs1 Hi1].
  destruct (STREAMCOMP cfg).
  - destruct (compact n e) as [e' k] eqn:Hc.
    apply compact_scene in Hc as [Hs2 Hi2].
    destruct (_ || _).
    + injection Hrest as <-.
      split; [eapply same_scene_trans; eauto | congruence].
    + apply IH in Hrest as [Hs3 Hi3].
      split; [eapply same_scene_trans; [| exact Hs3];
              eapply same_scene_trans; eauto | congruence].
  - destruct (_ =? _).
    + injection Hrest as <-. done.
    + apply IH in Hrest as [Hs3 Hi3].
      split; [eapply same_scene_trans; eauto | congruence].
Qed.

(* a turn more than needed changes nothing *)
Lemma bounces_fuel cfg kdfuel scene iter N : forall (m fuel : nat) depth n (d : Device F),
  0 <= depth -> traceDepth scene < 2 ^ 31 ->
  traceDepth scene - depth = Z.of_nat m -> (1 <= m <= fuel)%nat ->
  bounces cfg fuel kdfuel scene iter N depth n d =
  bounces cfg m kdfuel scene iter N depth n d.
Proof.
  induction m as [|m IH]; intros fuel depth n d Hd Htd Hm Hfuel; [lia |].
  destruct fuel as [|fuel]; [lia |].
  rewrite !bounces_unfold.
  destruct (shade_pass cfg kdfuel scene iter N depth n d) as [e|err]; cbn [bind];
    [| done].
  rewrite wrap32_small by lia.
  destruct (STREAMCOMP cfg).
  - destruct (compact n e) as [e' k].
    destruct (Z.eqb_spec (depth + 1) (traceDepth scene)) as [Heq|Hne].
    + rewrite orb_true_r. done.
    + rewrite orb_false_r. destruct (k =? 0); [done |]. apply IH; lia.
  - destruct (Z.eqb_spec (depth + 1) (traceDepth scene)) as [Heq|Hne]; [done |].
    apply IH; lia.
Qed.

Lemma shadeWith_pixel cfg iter index depth (d : Device F) r p q :
  scatter_keeps_pixel ->
  shadeWith cfg iter index depth d r p = Ok q -> pixelIndex q = pixelIndex p.
Proof.
  intros Hpix. unfold shadeWith, shadeHit. intros Hrun.
  destruct (remainingBounces p =? 0); [congruence |].
  destruct (fltb fzero (t r)); [| injection Hrun as <-; done].
  apply bind_Ok in Hrun as (m & _ & Hrun).
  destruct (fltb fzero (emittance m)); [injection Hrun as <-; done |].
  apply bind_Ok in Hrun as (p2 & Hp2 & [= <-]). simpl. rewrite Hpix.
  destruct (-1 <? textureOffset m).
  - apply bind_Ok in Hp2 as (c & _ & [= <-]). simpl.
    destruct (textureOffset m =? -2); done.
  - injection Hp2 as <-. destruct (textureOffset m =? -2); done.
Qed.

(* What a pass leaves in dev_paths: each slot of the active range holds
   the shaded path of the slot, after the optional sort; the rest of the
   array is untouched. *)
Lemma shade_pass_paths cfg kdfuel scene iter N depth n (d d' : Device F) :
  sort_permutes_pairs thrust_sort_by_key ->
  0 <= n <= Z.of_nat (length (dev_paths d)) -> n <= N ->
  shade_pass cfg kdfuel scene iter N depth n d = Ok d' ->
  exists vs ps,
    vs ≡ₚ take (Z.to_nat n) (dev_paths d) /\
    length ps = Z.to_nat n /\
    (forall (k : nat) v, vs !! k = Some v ->
       exists q r d3, ps !! k = Some q /\
                      shadeWith cfg iter (Z.of_nat k) depth d3 r v = Ok q) /\
    dev_paths d' = ps ++ drop (Z.to_nat n) (dev_paths d).
Proof.
  intros Hsort Hn HnN Hrun. unfold shade_pass in Hrun.
  apply bind_Ok in Hrun as (d1 & Hclr & Hrun).
  apply bind_Ok in Hrun as (d2 & Hint & Hsh).
  apply clear_intersections_result in Hclr as [HN ->]; [| lia].
  set (zs := replicate (Z.to_nat N) zero_intersection
             ++ drop (Z.to_nat N) (dev_intersections d)) in *.
  assert (Hzl : length zs = length (dev_intersections d)).
  { unfold zs. rewrite length_app, length_replicate, length_drop. lia. }
  apply intersect_slots in Hint as (rs & Hrl & Hrs & ->);
    [| simpl; rewrite Hzl; lia].
  match type of Hsh with
  | context [sortByMaterial n ?dd] =>
      destruct (sort_stage cfg n dd Hsort) as (ks & vs & Hkl & Hvl & Hperm & Hd3)
  end.
  { lia. }
  { simpl. rewrite length_app, length_drop. lia. }
  { simpl. lia. }
  rewrite Hd3 in Hsh. clear Hd3. simpl in Hperm.
  rewrite take_app_length' in Hperm by lia.
  match type of Hsh with
  | shadeMaterials cfg iter n depth ?dd = _ => set (d3 := dd) in *
  end.
  apply shadeMaterials_slots in Hsh as (ps & Hpl & Hps & ->);
    [| simpl; rewrite length_app, length_drop; lia].
  assert (Hvs : vs ≡ₚ take (Z.to_nat n) (dev_paths d)).
  { rewrite <- (snd_zip ks vs) by lia.
    rewrite <- (snd_zip rs (take (Z.to_nat n) (dev_paths d)))
      by (rewrite length_take; lia).
    rewrite Hperm. done. }
  exists vs, ps. split; [done |]. split; [done |]. split.
  - intros k v Hv. pose proof (lookup_lt_Some _ _ _ Hv) as Hk.
    destruct (Hps k v) as (y & Hy & Hfy); [| lia |].
    { simpl. rewrite lookup_app_l by lia. done. }
    exists y. destruct (remainingBounces v =? 0) eqn:Hrb.
    + exists zero_intersection, d3. split; [done |].
      unfold shadeWith. rewrite Hrb. done.
    + apply bind_Ok in Hfy as (r & _ & Hfy). exists r, d3. done.
  - simpl. rewrite drop_app_length' by lia. done.
Qed.

Lemma drop_le_eq {A} (l1 l2 : list A) (k n : nat) :
  (k <= n)%nat -> drop k l1 = drop k l2 -> drop n l1 = drop n l2.
Proof.
  intros Hkn Heq. replace n with (k + (n - k))%nat by lia.
  rewrite <- !drop_drop, Heq. done.
Qed.

(* what the whole loop leaves in dev_paths *)
Lemma bounces_paths cfg kdfuel scene iter N :
  sort_permutes_pairs thrust_sort_by_key ->
  (STREAMCOMP cfg = true -> partition_contract thrust_partition) ->
  forall fuel depth n (d d' : Device F),
    0 <= n <= Z.of_nat (length (dev_paths d)) -> n <= N ->
    bounces cfg fuel kdfuel scene iter N depth n d = Ok d' ->
    length (dev_paths d') = length (dev_paths d) /\
    drop (Z.to_nat n) (dev_paths d') = drop (Z.to_nat n) (dev_paths d) /\
    (scatter_keeps_pixel ->
     pixelIndex <$> dev_paths d' ≡ₚ pixelIndex <$> dev_paths d).
Proof.
  intros Hsort Hpart.
  induction fuel as [|fuel IH]; intros depth n d d' Hn HnN Hrun; [discriminate |].
  rewrite bounces_unfold in Hrun.
  apply bind_Ok in Hrun as (e & Hpass & Hrest).
  destruct (shade_pass_paths _ _ _ _ _ _ _ _ _ Hsort Hn HnN Hpass)
    as (vs & ps & Hvs & Hpl & Hps & Hpaths).
  assert (Hle : length (dev_paths e) = length (dev_paths d)).
  { rewrite Hpaths, length_app, length_drop. lia. }
  assert (Hde : drop (Z.to_nat n) (dev_paths e) = drop (Z.to_nat n) (dev_paths d)).
  { rewrite Hpaths, drop_app_length' by done. done. }
  assert (Hpe : scatter_keeps_pixel ->
                pixelIndex <$> dev_paths e ≡ₚ pixelIndex <$> dev_paths d).
  { intros Hpix. rewrite Hpaths, fmap_app.
    assert (Heq : pixelIndex <$> ps = pixelIndex <$> vs).
    { apply list_eq. intros k. rewrite !list_lookup_fmap.
      destruct (vs !! k) as [v|] eqn:Hv.
      - destruct (Hps k v Hv) as (q & r & d3 & -> & Hq). simpl.
        f_equal. eapply shadeWith_pixel; eauto.
      - apply lookup_ge_None in Hv.
        rewrite (proj2 (lookup_ge_None ps k)); [done |].
        rewrite (Permutation_length Hvs), length_take in Hv. lia. }
    rewrite Heq, Hvs, <- fmap_app, take_drop. done. }
  destruct (STREAMCOMP cfg) eqn:Hsc.
  - destruct (compact n e) as [e' k] eqn:Hc.
    destruct (compact_spec n e (Hpart eq_refl) ltac:(lia) e' k Hc)
      as (Hf & Hk & Htake & Hdrop & _ & _).
    pose proof Hf as (_&_&_&_&_&_&Hle').
    assert (Hperm : dev_paths e' ≡ₚ dev_paths e).
    { rewrite <- (take_drop (Z.to_nat n) (dev_paths e')).
      rewrite <- (take_drop (Z.to_nat n) (dev_paths e)).
      rewrite Htake, Hdrop. done. }
    destruct (_ || _).
    + injection Hrest as <-. split; [congruence |]. split; [congruence |].
      intros Hpix. rewrite Hperm. apply Hpe. done.
    + assert (Hk' : 0 <= k <= Z.of_nat (length (dev_paths e'))) by lia.
      assert (HkN : k <= N) by lia.
      destruct (IH _ _ _ _ Hk' HkN Hrest) as (Hl3 & Hd3 & Hp3).
      split; [congruence |]. split.
      * rewrite (drop_le_eq (dev_paths d') (dev_paths e') (Z.to_nat k) (Z.to_nat n))
          by (lia || done).
        congruence.
      * intros Hpix. rewrite (Hp3 Hpix), Hperm. apply Hpe. done.
  - destruct (_ =? _).
    + injection Hrest as <-. done.
    + assert (Hn' : 0 <= n <= Z.of_nat (length (dev_paths e))) by lia.
      destruct (IH _ _ _ _ Hn' HnN Hrest) as (Hl3 & Hd3 & Hp3).
      split; [congruence |]. split; [congruence |].
      intros Hpix. rewrite (Hp3 Hpix). apply Hpe. done.
Qed.

(* depth counts modulo 2^32 *)
Lemma wrap32_succ_turns depth td :
  - 2 ^ 31 <= depth < 2 ^ 31 -> - 2 ^ 31 <= td < 2 ^ 31 ->
  (wrap32 (depth + 1) = td <-> (td - depth - 1) mod 2 ^ 32 = 0) /\
  - 2 ^ 31 <= wrap32 (depth + 1) < 2 ^ 31 /\
  ((td - depth - 1) mod 2 ^ 32 <> 0 ->
   (td - wrap32 (depth + 1) - 1) mod 2 ^ 32 = (td - depth - 1) mod 2 ^ 32 - 1).
Proof.
  intros Hd Ht. unfold wrap32.
  destruct (Z.eq_dec depth (2 ^ 31 - 1)) as [->|Hne].
  - replace ((2 ^ 31 - 1 + 1 + 2 ^ 31) mod 2 ^ 32) with 0 by reflexivity.
    replace (td - (2 ^ 31 - 1) - 1) with (td + 2 ^ 31 + (-1) * 2 ^ 32) by lia.
    replace (td - (0 - 2 ^ 31) - 1) with (td + 2 ^ 31 - 1) by lia.
    rewrite Z.mod_add by lia.
    split; [| split; [lia |]].
    + destruct (Z.eq_dec td (- 2 ^ 31)) as [->|Hn].
      * split; reflexivity.
      * rewrite Z.mod_small by lia. lia.
    + intros Hnz. rewrite Z.mod_small in Hnz by lia.
      rewrite !Z.mod_small by lia. lia.
  - rewrite (Z.mod_small (depth + 1 + 2 ^ 31)) by lia.
    replace (depth + 1 + 2 ^ 31 - 2 ^ 31) with (depth + 1) by lia.
    split; [| split; [lia |]].
    + destruct (Z.le_gt_cases (depth + 1) td).
      * rewrite Z.mod_small by lia. lia.
      * replace (td - depth - 1) with (td - depth - 1 + 2 ^ 32 + (-1) * 2 ^ 32)
          by lia.
        rewrite Z.mod_add, Z.mod_small by lia. lia.
    + intros Hnz.
      destruct (Z.le_gt_cases (depth + 1) td).
      * rewrite Z.mod_small in Hnz by lia.
        rewrite !Z.mod_small by lia. lia.
      * replace (td - depth - 1) with (td - depth - 1 + 2 ^ 32 + (-1) * 2 ^ 32)
          by lia.
        replace (td - (depth + 1) - 1)
          with (td - depth - 2 + 2 ^ 32 + (-1) * 2 ^ 32) by lia.
        rewrite !Z.mod_add, !Z.mod_small by lia. lia.
Qed.

Lemma bounces_without_compaction cfg kdfuel scene iter N :
  STREAMCOMP cfg = false ->
  - 2 ^ 31 <= traceDepth scene < 2 ^ 31 ->
  forall fuel depth n (d d' : Device F),
    - 2 ^ 31 <= depth < 2 ^ 31 ->
    Z.of_nat fuel <= (traceDepth scene - depth - 1) mod 2 ^ 32 ->
    bounces cfg fuel kdfuel scene iter N depth n d <> Ok d'.
Proof.
  intros Hsc Htd.
  induction fuel as [|fuel IH]; intros depth n d d' Hd Hfuel Hrun; [discriminate |].
  rewrite bounces_unfold, Hsc in Hrun.
  apply bind_Ok in Hrun as (e & _ & Hrest).
  destruct (wrap32_succ_turns depth (traceDepth scene) Hd Htd) as (Hiff & Hr & Hnext).
  destruct (Z.eqb_spec (wrap32 (depth + 1)) (traceDepth scene)) as [Heq|Hne].
  - apply Hiff in Heq. lia.
  - assert (Hnz : (traceDepth scene - depth - 1) mod 2 ^ 32 <> 0).
    { intros Hz. apply Hne, Hiff, Hz. }
    eapply (IH (wrap32 (depth + 1))); [done | | exact Hrest].
    rewrite Hnext by done. lia.
Qed.

End Loop.

(** A call of pathtrace with a bounce budget traceDepth > 0 makes at most
    traceDepth turns of its loop: allowing more turns changes nothing,
    with or without stream compaction. *)
Theorem pathtrace_takes_at_most_traceDepth_turns {F : Type} `{Externals F}
    cfg (fuel kdfuel : nat) (scene : Scene F) iter (d : Device F) :
  0 < traceDepth scene < 2 ^ 31 ->
  (Z.to_nat (traceDepth scene) <= fuel)%nat ->
  pathtrace cfg fuel kdfuel scene iter d =
  pathtrace cfg (Z.to_nat (traceDepth scene)) kdfuel scene iter d.
Proof.
  intros Htd Hfuel. unfold pathtrace.
  destruct (generateRayFromCamera _ _ _ _) as [d1|e]; cbn [bind]; [| done].
  rewrite (bounces_fuel cfg kdfuel scene iter _ (Z.to_nat (traceDepth scene)) fuel)
    by lia.
  done.
Qed.

Lemma pathtrace_takes_at_most_traceDepth_turns_witness :
  pathtrace source_config 7 1 (Scenes.two_walls 2) 0
    (pathtraceInit (Scenes.two_walls 2) Scenes.stale) =
  pathtrace source_config 2 1 (Scenes.two_walls 2) 0
    (pathtraceInit (Scenes.two_walls 2) Scenes.stale).
Proof.
  apply (pathtrace_takes_at_most_traceDepth_turns source_config 7 1
           (Scenes.two_walls 2) 0 (pathtraceInit (Scenes.two_walls 2) Scenes.stale)).
  - simpl. lia.
  - simpl. lia.
Defined.

(** A call of pathtrace writes dev_paths, dev_intersections and dev_image
    only: the primitives, the materials, the textures and the flattened
    tree on the device are what they were, and the image keeps its size. *)
Theorem pathtrace_keeps_scene_arrays {F : Type} `{Externals F}
    cfg (fuel kdfuel : nat) (scene : Scene F) iter (d d' : Device F) :
  pathtrace cfg fuel kdfuel scene iter d = Ok d' ->
  same_scene d d' /\ length (dev_image d') = length (dev_image d).
Proof.
  unfold pathtrace. intros Hrun.
  apply bind_Ok in Hrun as (d1 & Hgen & Hrun).
  apply bind_Ok in Hrun as (d2 & Hloop & Hgather).
  unfold generateRayFromCamera in Hgen.
  apply bind_Ok in Hgen as (a & _ & [= <-]).
  apply bounces_scene in Hloop as [(Hg & Hm & Ht & Hk) Hi]. simpl in *.
  apply finalGather_frame in Hgather as (Hg' & Hm' & _ & _ & Ht' & Hk' & Hl').
  split; [repeat split |]; congruence.
Qed.

Lemma pathtrace_keeps_scene_arrays_witness :
  exists d',
    pathtrace source_config 2 1 (Scenes.two_walls 2) 0
      (pathtraceInit (Scenes.two_walls 2) Scenes.stale) = Ok d' /\
    dev_geoms d' = sortedGeoms (Scenes.two_walls 2) /\
    dev_kdtree d' = flatKDTree (Scenes.two_walls 2).
Proof.
  assert (Hrun : exists d',
             pathtrace source_config 2 1 (Scenes.two_walls 2) 0
               (pathtraceInit (Scenes.two_walls 2) Scenes.stale) = Ok d')
    by (eexists; vm_compute; reflexivity).
  destruct Hrun as [d' Hrun]. exists d'. split; [done |].
  destruct (pathtrace_keeps_scene_arrays _ _ _ _ _ _ _ Hrun) as [(Hg & _ & _ & Hk) _].
  split; [exact Hg | exact Hk].
Defined.

(** With the stream compaction compiled out the loop ends only when the
    depth counter, incremented, equals traceDepth.  For a budget of zero
    or less that cannot happen before the 32-bit counter has overflowed:
    the loop does not end in fewer than 2^31 turns. *)
Theorem without_compaction_zero_budget_does_not_end {F : Type} `{Externals F}
    cfg (fuel kdfuel : nat) (scene : Scene F) iter N n (d d' : Device F) :
  STREAMCOMP cfg = false ->
  - 2 ^ 31 < traceDepth scene <= 0 ->
  Z.of_nat fuel < 2 ^ 31 ->
  bounces cfg fuel kdfuel scene iter N 0 n d <> Ok d'.
Proof.
  intros Hsc Htd Hfuel.
  apply bounces_without_compaction; [done | lia | lia |].
  replace (traceDepth scene - 0 - 1)
    with (traceDepth scene - 1 + 2 ^ 32 + (-1) * 2 ^ 32) by lia.
  rewrite Z.mod_add, Z.mod_small by lia. lia.
Qed.

Lemma without_compaction_zero_budget_does_not_end_witness :
  exists e,
    bounces Scenes.no_compaction 9 1 (Scenes.two_walls 0) 0 2 0 2
      (pathtraceInit (Scenes.two_walls 0) Scenes.stale) = Err e.
Proof.
  destruct (bounces Scenes.no_compaction 9 1 (Scenes.two_walls 0) 0 2 0 2
              (pathtraceInit (Scenes.two_walls 0) Scenes.stale)) as [d'|e] eqn:Hrun;
    [| eauto].
  exfalso.
  refine (without_compaction_zero_budget_does_not_end Scenes.no_compaction 9 1
            (Scenes.two_walls 0) 0 2 2
            (pathtraceInit (Scenes.two_walls 0) Scenes.stale) d' _ _ _ Hrun).
  - reflexivity.
  - simpl. lia.
  - simpl. lia.
Defined.

(** The loop never touches a path outside the active range it was started
    on: whatever the shader, the sort and the compaction do to the first
    num_paths slots of dev_paths, the slots past them hold at the end what
    they held at the start, and the array keeps its length. *)
Theorem loop_leaves_inactive_paths_alone {F : Type} `{Externals F}
    cfg (fuel kdfuel : nat) (scene : Scene F) iter N depth n (d d' : Device F) :
  sort_permutes_pairs thrust_sort_by_key ->
  (STREAMCOMP cfg = true -> partition_contract thrust_partition) ->
  0 <= n <= Z.of_nat (length (dev_paths d)) -> n <= N ->
  bounces cfg fuel kdfuel scene iter N depth n d = Ok d' ->
  length (dev_paths d') = length (dev_paths d) /\
  forall k : nat, n <= Z.of_nat k -> dev_paths d' !! k = dev_paths d !! k.
Proof.
  intros Hsort Hpart Hn HnN Hrun.
  destruct (bounces_paths cfg kdfuel scene iter N Hsort Hpart _ _ _ _ _ Hn HnN Hrun)
    as (Hlen & Hdrop & _).
  split; [done |]. intros k Hk.
  replace k with (Z.to_nat n + (k - Z.to_nat n))%nat by lia.
  rewrite <- !lookup_drop, Hdrop. done.
Qed.

Lemma loop_leaves_inactive_paths_alone_witness :
  exists d',
    bounces source_config 2 1 (Scenes.two_walls 2) 0 2 0 1
      (pathtraceInit (Scenes.two_walls 2) Scenes.stale) = Ok d' /\
    dev_paths d' !! 1%nat = Some Scenes.stale.
Proof.
  assert (Hrun : exists d',
             bounces source_config 2 1 (Scenes.two_walls 2) 0 2 0 1
               (pathtraceInit (Scenes.two_walls 2) Scenes.stale) = Ok d')
    by (eexists; vm_compute; reflexivity).
  destruct Hrun as [d' Hrun]. exists d'. split; [done |].
  destruct (loop_leaves_inactive_paths_alone source_config 2 1 (Scenes.two_walls 2)
              0 2 0 1 (pathtraceInit (Scenes.two_walls 2) Scenes.stale) d')
    as [_ Htail].
  - exact sort_by_key_permutes_pairs.
  - intros _. apply stable_partition_contract.
  - simpl. lia.
  - lia.
  - exact Hrun.
  - rewrite (Htail 1%nat) by lia. reflexivity.
Defined.

(** Pixel identity.  Started on the paths of the ray generator, the loop
    ends with paths whose pixel indices are 0 .. pixelcount - 1, each
    once, in some order: the gather then cannot fault, no two of its
    threads add to the same pixel, and every pixel receives the colour of
    exactly one path. *)
Theorem every_pixel_gets_one_contribution {F : Type} `{Externals F}
    cfg (fuel kdfuel : nat) (scene : Scene F) iter (d d1 d2 : Device F) :
  sort_permutes_pairs thrust_sort_by_key ->
  (STREAMCOMP cfg = true -> partition_contract thrust_partition) ->
  scatter_keeps_pixel ->
  valid_resolution (camera scene) ->
  buffers_sized (camera scene) d ->
  generateRayFromCamera (camera scene) iter (traceDepth scene) d = Ok d1 ->
  bounces cfg fuel kdfuel scene iter (pixelcount_of (camera scene)) 0
    (pixelcount_of (camera scene)) d1 = Ok d2 ->
  pixelIndex <$> dev_paths d2
    ≡ₚ Z.of_nat <$> seq 0 (Z.to_nat (pixelcount_of (camera scene))) /\
  exists d',
    pathtrace cfg fuel kdfuel scene iter d = Ok d' /\
    forall (i : nat) px,
      dev_image d !! i = Some px ->
      exists p, p ∈ dev_paths d2 /\ pixelIndex p = Z.of_nat i /\
                dev_image d' !! i = Some (vadd px (color p)).
Proof.
  intros Hsort Hpart Hpix Hvalid (Hli & Hlp & Hlx) Hgen Hloop.
  set (n := pixelcount_of (camera scene)) in *.
  assert (Hn : 0 <= n) by lia.
  destruct (generateRayFromCamera_spec (camera scene) iter (traceDepth scene) d
              Hvalid Hlp) as (g & Hgen' & Hframe & Hcam).
  assert (g = d1) by congruence. subst g. fold n in Hcam.
  destruct Hframe as (Hgi & _ & _ & Hgx & _ & _ & Hgl).
  assert (Hl1 : Z.of_nat (length (dev_paths d1)) = n) by lia.
  assert (Hn1 : 0 <= n <= Z.of_nat (length (dev_paths d1))) by lia.
  destruct (bounces_paths cfg kdfuel scene iter n Hsort Hpart _ _ _ _ _
              Hn1 (Z.le_refl n) Hloop) as (Hl2 & _ & Hperm).
  specialize (Hperm Hpix).
  destruct (bounces_scene _ _ _ _ _ _ _ _ _ _ Hloop) as [_ Hi2].
  assert (Hseq : pixelIndex <$> dev_paths d1 = Z.of_nat <$> seq 0 (Z.to_nat n)).
  { apply list_eq. intros k. rewrite !list_lookup_fmap.
    destruct (decide (k < Z.to_nat n)%nat) as [Hk|Hk].
    - destruct (Hcam k ltac:(lia)) as (p & -> & _ & _ & Hp & _).
      rewrite lookup_seq_lt by done. simpl. congruence.
    - rewrite (proj2 (lookup_ge_None (dev_paths d1) k)) by lia.
      rewrite lookup_seq_ge by lia. done. }
  split; [rewrite Hperm, Hseq; done |].
  assert (Hnd : NoDup (pixelIndex <$> dev_paths d2)).
  { rewrite Hperm, Hseq. apply NoDup_fmap; [apply Nat2Z.inj' | apply NoDup_seq]. }
  assert (Hrange : forall p, p ∈ dev_paths d2 -> 0 <= pixelIndex p < n).
  { intros p Hp.
    assert (Hin : pixelIndex p ∈ pixelIndex <$> dev_paths d2)
      by (apply list_elem_of_fmap; eauto).
    rewrite Hperm, Hseq in Hin.
    apply list_elem_of_fmap in Hin as (j & -> & Hj).
    apply elem_of_seq in Hj. lia. }
  destruct (finalGather_spec n d2) as (d' & Hrun & _ & Hsum & _).
  - lia.
  - rewrite Hi2, Hgi. done.
  - intros k p Hp. apply Hrange. eapply list_elem_of_lookup_2. done.
  - intros k1 k2 p1 p2 Hp1 Hp2 Heq.
    apply (proj1 (NoDup_alt _) Hnd k1 k2 (pixelIndex p1)).
    + rewrite list_lookup_fmap, Hp1. done.
    + rewrite list_lookup_fmap, Hp2. simpl. congruence.
  - exists d'. split.
    + unfold pathtrace. fold n. rewrite Hgen. cbn [bind]. rewrite Hloop. done.
    + intros i px Hpx.
      pose proof (lookup_lt_Some _ _ _ Hpx) as Hi.
      assert (Hin : Z.of_nat i ∈ pixelIndex <$> dev_paths d2).
      { rewrite Hperm, Hseq. apply list_elem_of_fmap. exists i. split; [done |].
        apply elem_of_seq. lia. }
      apply list_elem_of_fmap in Hin as (p & Hpi & Hp).
      exists p. split; [done |]. split; [done |].
      apply list_elem_of_lookup in Hp as [k Hk].
      replace i with (Z.to_nat (pixelIndex p)) by lia.
      apply (Hsum k); [done |].
      rewrite Hi2, Hgi. replace (Z.to_nat (pixelIndex p)) with i by lia. done.
Qed.

Lemma every_pixel_gets_one_contribution_witness :
  exists d1 d2,
    generateRayFromCamera (camera (Scenes.two_walls 2)) 0 2
      (pathtraceInit (Scenes.two_walls 2) Scenes.stale) = Ok d1 /\
    bounces Scenes.matsort_on 2 1 (Scenes.two_walls 2) 0 2 0 2 d1 = Ok d2 /\
    pixelIndex <$> dev_paths d2 ≡ₚ [0; 1].
Proof.
  assert (Hrun : exists d1 d2,
             generateRayFromCamera (camera (Scenes.two_walls 2)) 0 2
               (pathtraceInit (Scenes.two_walls 2) Scenes.stale) = Ok d1 /\
             bounces Scenes.matsort_on 2 1 (Scenes.two_walls 2) 0 2 0 2 d1 = Ok d2).
  { eexists. eexists. split; [vm_compute; reflexivity |]. vm_compute. reflexivity. }
  destruct Hrun as (d1 & d2 & Hgen & Hloop). exists d1, d2.
  split; [done |]. split; [done |].
  destruct (every_pixel_gets_one_contribution Scenes.matsort_on 2 1
              (Scenes.two_walls 2) 0 (pathtraceInit (Scenes.two_walls 2) Scenes.stale)
              d1 d2) as [Hperm _].
  - exact sort_by_key_permutes_pairs.
  - intros _. apply stable_partition_contract.
  - apply (bounce_keeps_pixel (fun h => h)).
  - vm_compute. repeat split; congruence.
  - vm_compute. repeat split.
  - exact Hgen.
  - exact Hloop.
  - exact Hperm.
Defined.

(** ** Sorting keeps a path with its record *)

(** One turn of the loop, with or without the sort by material: the
    shader meets the paths of the active range in some order, each once,
    and shades each of them with the intersection record computed for
    that very path, at the slot the sort moved it to.  The sort is
    thrust::sort_by_key, taken to permute keys and values together. *)
Theorem every_path_is_shaded_with_its_own_record {F : Type} `{Externals F}
    cfg kdfuel (scene : Scene F) iter N depth n (d d' : Device F) :
  sort_permutes_pairs thrust_sort_by_key ->
  0 <= n <= Z.of_nat (length (dev_paths d)) -> n <= N ->
  shade_pass cfg kdfuel scene iter N depth n d = Ok d' ->
  exists vs,
    vs ≡ₚ take (Z.to_nat n) (dev_paths d) /\
    forall (k : nat) v, vs !! k = Some v ->
      exists r q,
        record cfg kdfuel scene d v zero_intersection = Ok r /\
        dev_paths d' !! k = Some q /\
        shadeWith cfg iter (Z.of_nat k) depth d r v = Ok q.
Proof.
  intros Hsort Hn HnN Hrun. unfold shade_pass in Hrun.
  apply bind_Ok in Hrun as (d1 & Hclr & Hrun).
  apply bind_Ok in Hrun as (d2 & Hint & Hsh).
  apply clear_intersections_result in Hclr as [HN ->]; [| lia].
  set (zs := replicate (Z.to_nat N) zero_intersection
             ++ drop (Z.to_nat N) (dev_intersections d)) in *.
  assert (Hzl : length zs = length (dev_intersections d)).
  { unfold zs. rewrite length_app, length_replicate, length_drop. lia. }
  assert (Hzero : forall k : nat, (k < Z.to_nat n)%nat ->
                                  zs !! k = Some zero_intersection).
  { intros k Hk. unfold zs. rewrite lookup_app_l by (rewrite length_replicate; lia).
    apply lookup_replicate. split; [done | lia]. }
  apply intersect_slots in Hint as (rs & Hrl & Hrs & ->);
    [| simpl; rewrite Hzl; lia].
  simpl in Hrs.
  match type of Hsh with
  | context [sortByMaterial n ?dd] =>
      destruct (sort_stage cfg n dd Hsort) as (ks & vs & Hkl & Hvl & Hperm & Hd3)
  end.
  { lia. }
  { simpl. rewrite length_app, length_drop. lia. }
  { simpl. lia. }
  rewrite Hd3 in Hsh. clear Hd3. simpl in Hperm.
  rewrite take_app_length' in Hperm by lia.
  apply shadeMaterials_slots in Hsh as (ps & Hpl & Hps & ->);
    [| simpl; rewrite length_app, length_drop; lia].
  simpl in Hps |- *.
  assert (Hvs : vs ≡ₚ take (Z.to_nat n) (dev_paths d)).
  { rewrite <- (snd_zip ks vs) by lia.
    rewrite <- (snd_zip rs (take (Z.to_nat n) (dev_paths d)))
      by (rewrite length_take; lia).
    rewrite Hperm. done. }
  exists vs. split; [done |].
  intros k v Hv. pose proof (lookup_lt_Some _ _ _ Hv) as Hk.
  destruct (lookup_lt_is_Some_2 ks k) as [r Hr]; [lia |].
  destruct (Hps k v) as (y & Hy & Hfy); [| lia |].
  { rewrite lookup_app_l by lia. done. }
  assert (Hrec : record cfg kdfuel scene d v zero_intersection = Ok r).
  { assert (Hin : (r, v) ∈ zip rs (take (Z.to_nat n) (dev_paths d))).
    { rewrite <- Hperm. apply list_elem_of_lookup. exists k.
      apply lookup_zip_Some. done. }
    apply list_elem_of_lookup in Hin as [j Hj].
    apply lookup_zip_Some in Hj as [Hrj Hvj].
    apply lookup_take_Some in Hvj as [Hvj Hjn].
    destruct (Hrs j zero_intersection) as (r' & Hr' & Hfr');
      [apply Hzero; lia | lia |].
    assert (r' = r) by congruence. subst r'.
    rewrite (rd_lookup _ _ _ Hvj) in Hfr'. cbn [bind] in Hfr'.
    rewrite (record_same_scene _ _ _ d) in Hfr' by (repeat split). done. }
  exists r, y. split; [done |]. split.
  - rewrite lookup_app_l by lia. done.
  - destruct (remainingBounces v =? 0) eqn:Hrb.
    + injection Hfy as <-. unfold shadeWith. rewrite Hrb. done.
    + rewrite (rd_lookup _ k r) in Hfy by (rewrite lookup_app_l by lia; done).
      cbn [bind] in Hfy.
      rewrite (shadeWith_same_scene _ _ _ _ d) in Hfy by (repeat split). done.
Qed.

Lemma every_path_is_shaded_with_its_own_record_witness :
  exists d' vs,
    shade_pass Scenes.matsort_on 1 (Scenes.two_walls 2) 0 2 0 2 Scenes.camera_device
    = Ok d' /\
    vs ≡ₚ dev_paths Scenes.camera_device /\
    length (dev_paths d') = 2%nat.
Proof.
  assert (Hrun : exists d',
             shade_pass Scenes.matsort_on 1 (Scenes.two_walls 2) 0 2 0 2
               Scenes.camera_device = Ok d' /\ length (dev_paths d') = 2%nat).
  { eexists. split; [vm_compute; reflexivity |]. reflexivity. }
  destruct Hrun as (d' & Hrun & Hlen).
  destruct (every_path_is_shaded_with_its_own_record Scenes.matsort_on 1
              (Scenes.two_walls 2) 0 2 0 2 Scenes.camera_device d')
    as (vs & Hvs & _).
  - exact sort_by_key_permutes_pairs.
  - simpl. lia.
  - lia.
  - exact Hrun.
  - exists d', vs. split; [done |]. split; [| done]. rewrite Hvs. reflexivity.
Defined.

(** ** Two-dimensional launches over an image *)

Lemma pixel_index_inj (w x y x' y' : Z) :
  0 <= x < w -> 0 <= x' < w -> x + y * w = x' + y' * w -> x = x' /\ y = y'.
Proof.
  intros Hx Hx' Heq.
  assert (Hy : y = y').
  { destruct (Z.lt_trichotomy y y') as [Hlt | [-> | Hgt]]; [| done |].
    - assert (Hs : 0 <= (y' - y - 1) * w) by (apply Z.mul_nonneg_nonneg; lia). lia.
    - assert (Hs : 0 <= (y - y' - 1) * w) by (apply Z.mul_nonneg_nonneg; lia). lia. }
  subst y'. lia.
Qed.

Section Launch2d.
Context {A : Type}.
Variables (w h : Z) (body : Z -> Z -> list A -> Res (list A)) (v : Z -> Z -> A).
Variable (len : nat).

(* one row of threads of a kernel whose thread (x, y) stores v x y in
   the slot x + y * w *)
Lemma launch2d_row (nx y : Z) (s : list A) :
  0 <= w -> w <= nx -> 0 <= y < h ->
  w * h <= Z.of_nat len -> length s = len ->
  (forall x y s1, 0 <= x < w -> 0 <= y < h -> length s1 = len ->
                  body x y s1 = Ok (<[Z.to_nat (x + y * w) := v x y]> s1)) ->
  (forall x y s1, w <= x \/ h <= y -> body x y s1 = Ok s1) ->
  exists s',
    launch nx (fun x s1 => body x y s1) s = Ok s' /\
    length s' = len /\
    (forall x, 0 <= x < w -> s' !! Z.to_nat (x + y * w) = Some (v x y)) /\
    (forall k : nat, Z.of_nat k < y * w \/ (y + 1) * w <= Z.of_nat k ->
                     s' !! k = s !! k).
Proof.
  intros Hw Hnx Hy Hfit Hlen Hin Hout.
  set (I := fun (x : Z) (s1 : list A) =>
              length s1 = len /\
              (forall x', 0 <= x' < Z.min x w ->
                          s1 !! Z.to_nat (x' + y * w) = Some (v x' y)) /\
              (forall k : nat, Z.of_nat k < y * w \/ (y + 1) * w <= Z.of_nat k ->
                               s1 !! k = s !! k)).
  destruct (launch_from_total I (fun x s1 => body x y s1) (Z.to_nat nx) 0 s)
    as (s' & Hrun & Hl' & Hrow & Hrest).
  - split; [done |]. split; [intros x' Hx'; lia | done].
  - intros x s1 Hx (Hl1 & Hrow1 & Hrest1).
    destruct (Z.lt_ge_cases x w) as [Hxw|Hxw].
    + eexists. split; [apply Hin; [lia | done | done] |]. split; [| split].
      * rewrite length_insert. done.
      * intros x' Hx'.
        destruct (decide (x' = x)) as [->|Hne].
        -- apply list_lookup_insert_eq. nia.
        -- rewrite list_lookup_insert_ne by nia. apply Hrow1. lia.
      * intros k Hk. rewrite list_lookup_insert_ne by nia. apply Hrest1. done.
    + exists s1. split; [apply Hout; lia |]. split; [done |]. split; [| done].
      intros x' Hx'. apply Hrow1. lia.
  - exists s'. unfold launch. split; [done |]. split; [done |]. split; [| done].
    intros x Hx. apply Hrow. lia.
Qed.

Lemma launch2d_pixels (nx ny : Z) (s : list A) :
  0 <= w -> 0 <= h -> w <= nx -> h <= ny ->
  w * h <= Z.of_nat len -> length s = len ->
  (forall x y s1, 0 <= x < w -> 0 <= y < h -> length s1 = len ->
                  body x y s1 = Ok (<[Z.to_nat (x + y * w) := v x y]> s1)) ->
  (forall x y s1, w <= x \/ h <= y -> body x y s1 = Ok s1) ->
  exists s',
    launch2d nx ny body s = Ok s' /\
    length s' = len /\
    (forall x y, 0 <= x < w -> 0 <= y < h ->
                 s' !! Z.to_nat (x + y * w) = Some (v x y)) /\
    (forall k : nat, w * h <= Z.of_nat k -> s' !! k = s !! k).
Proof.
  intros Hw Hh Hnx Hny Hfit Hlen Hin Hout. unfold launch2d.
  set (I := fun (y : Z) (s1 : list A) =>
              length s1 = len /\
              (forall x y', 0 <= x < w -> 0 <= y' < Z.min y h ->
                            s1 !! Z.to_nat (x + y' * w) = Some (v x y')) /\
              (forall k : nat, Z.min y h * w <= Z.of_nat k -> s1 !! k = s !! k)).
  destruct (launch_from_total I
              (fun y s1 => launch nx (fun x s2 => body x y s2) s1)
              (Z.to_nat ny) 0 s) as (s' & Hrun & Hl' & Hdone & Hrest).
  - split; [done |]. split; [intros x y' Hx Hy'; lia | done].
  - intros y s1 Hy (Hl1 & Hdone1 & Hrest1).
    destruct (Z.lt_ge_cases y h) as [Hyh|Hyh].
    + destruct (launch2d_row nx y s1) as (s2 & Hrow & Hl2 & Hval & Hoth);
        try done; [lia |].
      exists s2. split; [done |]. split; [done |]. split.
      * intros x y' Hx Hy'.
        destruct (decide (y' = y)) as [->|Hne]; [apply Hval; done |].
        rewrite Hoth by nia. apply Hdone1; lia.
      * intros k Hk. rewrite Hoth by nia. apply Hrest1. nia.
    + exists s1. split.
      * destruct (launch_from_total (fun _ s2 => s2 = s1)
                    (fun x s2 => body x y s2) (Z.to_nat nx) 0 s1)
          as (s2 & Hrow & ->); [done | | done].
        intros x s2 _ ->. exists s1. split; [apply Hout; lia | done].
      * split; [done |]. split.
        -- intros x y' Hx Hy'. apply Hdone1; lia.
        -- intros k Hk. apply Hrest1. nia.
  - exists s'. unfold launch. split; [done |]. split; [done |]. split.
    + intros x y Hx Hy. apply Hdone; lia.
    + intros k Hk. apply Hrest. nia.
Qed.

(* the same kernel on an array that is too short for the image *)
Lemma launch2d_short (nx ny : Z) (s : list A) :
  0 < w -> 0 < h -> w <= nx -> h <= ny ->
  Z.of_nat (length s) < w * h ->
  (forall x y s1, 0 <= x < w -> 0 <= y < h ->
                  x + y * w < Z.of_nat (length s1) ->
                  exists a, body x y s1 = Ok (<[Z.to_nat (x + y * w) := a]> s1)) ->
  (forall x y s1, 0 <= x < w -> 0 <= y < h ->
                  Z.of_nat (length s1) <= x + y * w ->
                  body x y s1 = Err OutOfBounds) ->
  (forall x y s1, w <= x \/ h <= y -> body x y s1 = Ok s1) ->
  launch2d nx ny body s = Err OutOfBounds.
Proof.
  intros Hw Hh Hnx Hny Hshort Hin Hover Hout. unfold launch2d, launch.
  set (I := fun s1 : list A => length s1 = length s).
  assert (Hcases : forall x y s1, 0 <= x -> 0 <= y -> I s1 ->
             (exists s2, body x y s1 = Ok s2 /\ I s2) \/
             body x y s1 = Err OutOfBounds).
  { intros x y s1 Hx Hy Hs1.
    destruct (Z.lt_ge_cases x w) as [Hxw|Hxw];
      [| left; exists s1; split; [apply Hout; lia | done]].
    destruct (Z.lt_ge_cases y h) as [Hyh|Hyh];
      [| left; exists s1; split; [apply Hout; lia | done]].
    destruct (Z.lt_ge_cases (x + y * w) (Z.of_nat (length s1))) as [Hlt|Hge].
    - destruct (Hin x y s1) as [a Ha]; [lia | lia | done |].
      left. eexists. split; [exact Ha |]. unfold I. rewrite length_insert. done.
    - right. apply Hover; lia. }
  assert (Hkeep : forall x y s1 s2, 0 <= x -> 0 <= y -> I s1 ->
             body x y s1 = Ok s2 -> I s2).
  { intros x y s1 s2 Hx Hy Hs1 Hrun.
    destruct (Hcases x y s1 Hx Hy Hs1) as [(s3 & Hs3 & HI)|Herr]; congruence. }
  assert (Hkind : forall x y s1 e, 0 <= x -> 0 <= y -> I s1 ->
             body x y s1 = Err e -> e = OutOfBounds).
  { intros x y s1 e Hx Hy Hs1 Hrun.
    destruct (Hcases x y s1 Hx Hy Hs1) as [(s3 & Hs3 & HI)|Herr]; congruence. }
  (* launches start at 0: carry the sign of the index in the state *)
  assert (Hrow_keep : forall y n i s1 s2, 0 <= y -> 0 <= i -> I s1 ->
             launch_from (fun x s2 => body x y s2) i n s1 = Ok s2 -> I s2).
  { intros y n. induction n as [|n IH]; intros i s1 s2 Hy Hi Hs1 Hrun;
      simpl in Hrun; [injection Hrun as <-; done |].
    apply bind_Ok in Hrun as (s3 & Hstep & Hrun).
    eapply (IH (i + 1)); [done | lia | | exact Hrun].
    eapply (Hkeep i y); [lia | done | exact Hs1 | exact Hstep]. }
  assert (Hrow_kind : forall y n i s1 e, 0 <= y -> 0 <= i -> I s1 ->
             launch_from (fun x s2 => body x y s2) i n s1 = Err e ->
             e = OutOfBounds).
  { intros y n. induction n as [|n IH]; intros i s1 e Hy Hi Hs1 Hrun;
      simpl in Hrun; [congruence |].
    destruct (body i y s1) as [s3|e3] eqn:Hstep; simpl in Hrun.
    - eapply (IH (i + 1)); [done | lia | | exact Hrun].
      eapply (Hkeep i y); [lia | done | exact Hs1 | exact Hstep].
    - injection Hrun as <-.
      eapply (Hkind i y); [lia | done | exact Hs1 | exact Hstep]. }
  set (y0 := Z.of_nat (length s) / w).
  set (x0 := Z.of_nat (length s) mod w).
  assert (Hy0 : 0 <= y0 < h).
  { unfold y0. split; [apply Z.div_pos; lia |].
    apply Z.div_lt_upper_bound; nia. }
  assert (Hx0 : 0 <= x0 < w) by (apply Z.mod_pos_bound; lia).
  assert (Hidx : x0 + y0 * w = Z.of_nat (length s)).
  { unfold x0, y0. pose proof (Z.div_mod (Z.of_nat (length s)) w ltac:(lia)). lia. }
  assert (Hrow0 : forall n i s1, 0 <= i -> i <= x0 < i + Z.of_nat n -> I s1 ->
             launch_from (fun x s2 => body x y0 s2) i n s1 = Err OutOfBounds).
  { induction n as [|n IH]; intros i s1 Hi Hr Hs1; simpl; [lia |].
    destruct (decide (i = x0)) as [->|Hne].
    - rewrite Hover; [done | done | done |]. unfold I in Hs1. lia.
    - assert (Hy0' : 0 <= y0) by lia.
      destruct (Hcases i y0 s1 Hi Hy0' Hs1) as [(s3 & Hs3 & HI)|Herr].
      + rewrite Hs3. simpl. apply IH; [lia | lia | done].
      + rewrite Herr. done. }
  assert (Hrows : forall n i s1, 0 <= i -> i <= y0 < i + Z.of_nat n -> I s1 ->
             launch_from (fun y s2 => launch_from (fun x s3 => body x y s3) 0
                                        (Z.to_nat nx) s2) i n s1
             = Err OutOfBounds).
  { induction n as [|n IH]; intros i s1 Hi Hr Hs1; simpl; [lia |].
    destruct (decide (i = y0)) as [->|Hne].
    - rewrite Hrow0; [done | lia | lia | done].
    - destruct (launch_from (fun x s3 => body x i s3) 0 (Z.to_nat nx) s1)
        as [s3|e] eqn:Hrow; simpl.
      + apply IH; [lia | lia |]. eapply Hrow_keep; [| | | exact Hrow]; (lia || done).
      + f_equal. eapply Hrow_kind; [| | | exact Hrow]; (lia || done). }
  apply Hrows; [lia | lia | done].
Qed.

End Launch2d.

(** ** The ray generator on any buffer *)

Section GenerateMore.
Context {F : Type} `{Externals F}.

Lemma generateRayFromCamera_thread_value cam iter td x y
    (paths : list (PathSegment F)) :
  valid_resolution cam ->
  0 <= x < resolution_x cam -> 0 <= y < resolution_y cam ->
  generateRayFromCamera_thread cam iter td x y paths =
  if x + y * resolution_x cam <? Z.of_nat (length paths) then
    Ok (<[Z.to_nat (x + y * resolution_x cam) := camera_segment cam iter td x y]>
          paths)
  else Err OutOfBounds.
Proof.
  intros (Hw & Hh & Hwh) Hx Hy. unfold generateRayFromCamera_thread.
  destruct (Z.ltb_spec x (resolution_x cam)); [| lia].
  destruct (Z.ltb_spec y (resolution_y cam)); [| lia]. simpl.
  assert (Hidx : 0 <= x + y * resolution_x cam < resolution_x cam * resolution_y cam)
    by nia.
  rewrite (wrap32_small (y * resolution_x cam)) by nia.
  rewrite (wrap32_small (x + y * resolution_x cam)) by lia.
  destruct (Z.ltb_spec (x + y * resolution_x cam) (Z.of_nat (length paths)))
    as [Hlt|Hge].
  - destruct (lookup_lt_is_Some_2 paths (Z.to_nat (x + y * resolution_x cam)))
      as [p0 Hp0]; [lia |].
    assert (Hrd : rd paths (x + y * resolution_x cam) = Ok p0)
      by (apply rd_Ok; split; [lia | done]).
    rewrite Hrd. cbn [bind]. unfold camera_segment.
    destruct (u01 (makeSeededRandomEngine iter (x + y * resolution_x cam) 0))
      as [j1 rng1]. cbn [fst snd].
    destruct (u01 rng1) as [j2 rng2]. cbn [fst snd].
    apply wr_Ok. split; [lia | reflexivity].
  - unfold rd. destruct (Z.ltb_spec (x + y * resolution_x cam) 0); [done |].
    rewrite (proj2 (lookup_ge_None _ _)) by lia. done.
Qed.

End GenerateMore.

Lemma generateRayFromCamera_values {F : Type} `{Externals F}
    (cam : Camera F) iter td (d : Device F) :
  valid_resolution cam ->
  pixelcount_of cam <= Z.of_nat (length (dev_paths d)) ->
  exists d',
    generateRayFromCamera cam iter td d = Ok d' /\
    only_paths_changed d d' /\
    (forall x y, 0 <= x < resolution_x cam -> 0 <= y < resolution_y cam ->
                 dev_paths d' !! Z.to_nat (x + y * resolution_x cam)
                 = Some (camera_segment cam iter td x y)) /\
    (forall k : nat, pixelcount_of cam <= Z.of_nat k ->
                     dev_paths d' !! k = dev_paths d !! k).
Proof.
  intros Hvalid Hlen. rewrite pixelcount_of_valid in * by done.
  pose proof Hvalid as (Hw & Hh & Hwh).
  destruct (launch2d_pixels (resolution_x cam) (resolution_y cam)
              (generateRayFromCamera_thread cam iter td)
              (camera_segment cam iter td) (length (dev_paths d))
              (threads2d (resolution_x cam)) (threads2d (resolution_y cam))
              (dev_paths d)) as (a & Hrun & Hla & Hval & Hrest).
  - lia.
  - lia.
  - apply threads2d_ge. lia.
  - apply threads2d_ge. lia.
  - done.
  - done.
  - intros x y s1 Hx Hy Hl.
    rewrite generateRayFromCamera_thread_value by done.
    destruct (Z.ltb_spec (x + y * resolution_x cam) (Z.of_nat (length s1)));
      [done | nia].
  - intros x y s1 Hout. apply generateRayFromCamera_thread_outside. done.
  - unfold generateRayFromCamera. rewrite Hrun. cbn [bind].
    eexists. split; [done |]. split; [repeat split; done |]. split; done.
Qed.

(* the generator started on two devices that differ in dev_paths only *)
Lemma generateRayFromCamera_forgets {F : Type} `{Externals F}
    (cam : Camera F) iter td (d1 d2 : Device F) :
  valid_resolution cam ->
  Z.of_nat (length (dev_paths d1)) = pixelcount_of cam ->
  only_paths_changed d1 d2 ->
  generateRayFromCamera cam iter td d1 = generateRayFromCamera cam iter td d2.
Proof.
  intros Hvalid Hlen Hsame.
  pose proof Hsame as (Hi & Hg & Hm & Hx & Ht & Hk & Hl).
  destruct (generateRayFromCamera_values cam iter td d1 Hvalid ltac:(lia))
    as (e1 & -> & Hf1 & Hv1 & _).
  destruct (generateRayFromCamera_values cam iter td d2 Hvalid ltac:(lia))
    as (e2 & -> & Hf2 & Hv2 & _).
  f_equal.
  assert (Hpaths : dev_paths e1 = dev_paths e2).
  { rewrite pixelcount_of_valid in Hlen by done.
    pose proof Hvalid as (Hw & Hh & Hwh).
    destruct Hf1 as (_&_&_&_&_&_&Hl1), Hf2 as (_&_&_&_&_&_&Hl2).
    apply list_eq. intros k.
    destruct (decide (Z.of_nat k < resolution_x cam * resolution_y cam)) as [Hk'|Hk'].
    - set (x := Z.of_nat k mod resolution_x cam).
      set (y := Z.of_nat k / resolution_x cam).
      assert (Hx' : 0 <= x < resolution_x cam) by (apply Z.mod_pos_bound; lia).
      assert (Hy' : 0 <= y < resolution_y cam).
      { unfold y. split; [apply Z.div_pos; lia |].
        apply Z.div_lt_upper_bound; nia. }
      assert (Hidx : k = Z.to_nat (x + y * resolution_x cam)).
      { unfold x, y.
        pose proof (Z.div_mod (Z.of_nat k) (resolution_x cam) ltac:(lia)). lia. }
      rewrite Hidx, Hv1, Hv2 by done. done.
    - rewrite !(proj2 (lookup_ge_None _ _)) by lia. done. }
  destruct Hf1 as (Hi1 & Hg1 & Hm1 & Hx1 & Ht1 & Hk1 & _).
  destruct Hf2 as (Hi2 & Hg2 & Hm2 & Hx2 & Ht2 & Hk2 & _).
  destruct e1, e2. simpl in *. f_equal; congruence.
Qed.



(** The ray generator does not check the size of dev_paths: on a buffer
    with fewer than pixelcount slots the thread of the first pixel past the
    end accesses dev_paths out of bounds. *)
Theorem ray_generator_faults_on_short_buffer {F : Type} `{Externals F}
    (cam : Camera F) iter td (d : Device F) :
  valid_resolution cam ->
  Z.of_nat (length (dev_paths d)) < pixelcount_of cam ->
  generateRayFromCamera cam iter td d = Err OutOfBounds.
Proof.
  intros Hvalid Hlen. rewrite pixelcount_of_valid in * by done.
  pose proof Hvalid as (Hw & Hh & Hwh).
  unfold generateRayFromCamera.
  rewrite (launch2d_short (resolution_x cam) (resolution_y cam)
             (generateRayFromCamera_thread cam iter td)); [done | lia | lia | | | done | | |].
  - apply threads2d_ge. lia.
  - apply threads2d_ge. lia.
  - intros x y s1 Hx Hy Hl.
    rewrite generateRayFromCamera_thread_value by done.
    destruct (Z.ltb_spec (x + y * resolution_x cam) (Z.of_nat (length s1)));
      [eauto | lia].
  - intros x y s1 Hx Hy Hl.
    rewrite generateRayFromCamera_thread_value by done.
    destruct (Z.ltb_spec (x + y * resolution_x cam) (Z.of_nat (length s1)));
      [lia | done].
  - intros x y s1 Hout. apply generateRayFromCamera_thread_outside. done.
Qed.

Lemma ray_generator_faults_on_short_buffer_witness :
  generateRayFromCamera (Scenes.cam 2 2) 0 3 Scenes.long_device = Err OutOfBounds.
Proof.
  apply (ray_generator_faults_on_short_buffer (Scenes.cam 2 2) 0 3 Scenes.long_device).
  - vm_compute. repeat split; congruence.
  - vm_compute. reflexivity.
Defined.

(** A call of pathtrace does not depend on what dev_paths holds when it
    starts, be it what cudaMalloc left there after pathtraceInit or the
    paths of the previous iteration: the ray generator overwrites every
    slot before anything reads one. *)
Theorem pathtrace_ignores_previous_paths {F : Type} `{Externals F}
    cfg (fuel kdfuel : nat) (scene : Scene F) iter (d1 d2 : Device F) :
  valid_resolution (camera scene) ->
  Z.of_nat (length (dev_paths d1)) = pixelcount_of (camera scene) ->
  only_paths_changed d1 d2 ->
  pathtrace cfg fuel kdfuel scene iter d1 = pathtrace cfg fuel kdfuel scene iter d2.
Proof.
  intros Hvalid Hlen Hsame. unfold pathtrace.
  rewrite (generateRayFromCamera_forgets _ _ _ d1 d2) by done. done.
Qed.

Lemma pathtrace_ignores_previous_paths_witness :
  pathtrace source_config 2 1 (Scenes.two_walls 2) 0
    (pathtraceInit (Scenes.two_walls 2) Scenes.stale) =
  pathtrace source_config 2 1 (Scenes.two_walls 2) 0
    (pathtraceInit (Scenes.two_walls 2) (Scenes.path Scenes.ray_up 0 0)).
Proof.
  apply (pathtrace_ignores_previous_paths source_config 2 1 (Scenes.two_walls 2) 0
           (pathtraceInit (Scenes.two_walls 2) Scenes.stale)
           (pathtraceInit (Scenes.two_walls 2) (Scenes.path Scenes.ray_up 0 0))).
  - vm_compute. repeat split; congruence.
  - reflexivity.
  - repeat split.
Defined.

(** ** A camera that looks away from the scene *)

(* the record of a path whose ray misses the bounds of the root *)
Lemma recordKD_root_miss {F : Type} `{Externals F} kdfuel (d : Device F) root rest p r :
  dev_kdtree d = root :: rest ->
  feqb (boundsIntersectionTest (bounds root) (ray p)) (flit (-1) 1) = true ->
  recordKD (S kdfuel) d p r = Ok (with_t r (flit (-1) 1)).
Proof.
  intros Hkd Hmiss. unfold recordKD. simpl kd_loop. unfold kd_step.
  rewrite Hkd. simpl. rewrite Hmiss. simpl. done.
Qed.

(** When no ray from the camera position meets the bounds of the root of
    the flattened tree, every path is a miss at its first bounce: for any
    bounce budget other than zero one iteration adds (0,0,0) to every
    pixel. *)
Theorem camera_that_misses_the_tree_adds_black `{SceneTypes} `{!Externals float}
    cfg (fuel kdfuel : nat) (scene : Scene float) iter (d : Device float) root rest :
  STREAMCOMP cfg = true -> MATSORT cfg = false -> ACCELSTRUCT cfg = true ->
  partition_contract thrust_partition ->
  valid_resolution (camera scene) ->
  buffers_sized (camera scene) d ->
  traceDepth scene <> 0 ->
  dev_kdtree d = root :: rest ->
  (forall r : Ray float,
      origin r = position (camera scene) ->
      feqb (boundsIntersectionTest (bounds root) r) (flit (-1) 1) = true) ->
  exists d',
    pathtrace cfg (S fuel) (S kdfuel) scene iter d = Ok d' /\
    dev_image d' = (fun px => vadd px (splat fzero)) <$> dev_image d.
Proof.
  intros Hsc Hms Hacc Hpart Hvalid Hsized Htd Hkd Hmiss.
  apply pathtrace_single_pass; try done.
  intros d1 Hgen Hcam Hf1.
  destruct Hsized as (Hli & Hlp & Hlx).
  set (n := pixelcount_of (camera scene)) in *.
  assert (Hn : 0 <= n) by lia.
  pose proof Hf1 as (_ & Hg1 & Hm1 & Hx1 & _ & Hk1 & Hl1).
  destruct (clear_intersections_runs n d1) as [d2 Hclr]; [rewrite Hx1; lia |].
  pose proof (clear_intersections_frame _ _ _ Hn Hclr)
    as (_ & Hg2 & Hm2 & Hp2 & _ & Hk2 & Hl2).
  assert (Hlx2 : Z.of_nat (length (dev_intersections d2)) = n)
    by (rewrite Hl2, Hx1; lia).
  assert (Hlp1 : Z.of_nat (length (dev_paths d1)) = n) by lia.
  set (rs := (fun r => with_t r (flit (-1) 1))
               <$> take (Z.to_nat n) (dev_intersections d2)).
  set (d3 := set_intersections d2
               (rs ++ drop (Z.to_nat n) (dev_intersections d2))).
  assert (Hrl : length rs = Z.to_nat n).
  { unfold rs. rewrite length_fmap, length_take. lia. }
  assert (Hint : intersect cfg (S kdfuel) scene 0 n d2 = Ok d3).
  { unfold intersect. rewrite Hacc.
    apply computeIntersectionsKD_slots; [lia |].
    exists rs. split; [done |]. split; [| done].
    intros k r Hr Hk. exists (with_t r (flit (-1) 1)). split.
    - unfold rs. rewrite list_lookup_fmap, lookup_take_lt by lia.
      rewrite Hr. done.
    - destruct (Hcam k ltac:(lia)) as (p & Hp & Ho & _).
      rewrite Hp2, (rd_lookup _ _ _ Hp). cbn [bind].
      apply (recordKD_root_miss kdfuel d2 root rest).
      + rewrite Hk2, Hk1. done.
      + apply Hmiss. done. }
  set (ps := (fun p : PathSegment float =>
                with_remainingBounces (with_color p (splat fzero)) 0)
               <$> take (Z.to_nat n) (dev_paths d3)).
  set (d4 := set_paths d3 (ps ++ drop (Z.to_nat n) (dev_paths d3))).
  assert (Hp3 : dev_paths d3 = dev_paths d1) by (unfold d3; simpl; done).
  assert (Hlp3 : Z.of_nat (length (dev_paths d3)) = n) by (rewrite Hp3; lia).
  assert (Hpl : length ps = Z.to_nat n).
  { unfold ps. rewrite length_fmap, length_take. lia. }
  assert (Hsh : shadeMaterials cfg iter n 0 d3 = Ok d4).
  { apply shadeMaterials_slots; [lia |].
    exists ps. split; [done |]. split; [| done].
    intros k p Hp Hk.
    exists (with_remainingBounces (with_color p (splat fzero)) 0). split.
    - unfold ps. rewrite list_lookup_fmap, lookup_take_lt by lia.
      rewrite Hp. done.
    - rewrite Hp3 in Hp.
      destruct (Hcam k ltac:(lia)) as (q & Hq & _ & _ & _ & Hrb).
      assert (q = p) by congruence. subst q.
      destruct (Z.eqb_spec (remainingBounces p) 0) as [|_]; [congruence |].
      destruct (lookup_lt_is_Some_2 (dev_intersections d2) k) as [r Hr]; [lia |].
      assert (Hr3 : dev_intersections d3 !! k = Some (with_t r (flit (-1) 1))).
      { unfold d3. simpl. rewrite lookup_app_l by lia.
        unfold rs. rewrite list_lookup_fmap, lookup_take_lt by lia.
        rewrite Hr. done. }
      rewrite (rd_lookup _ _ _ Hr3). cbn [bind]. unfold shadeWith.
      destruct (Z.eqb_spec (remainingBounces p) 0) as [|_]; [congruence |].
      done. }
  exists d2, d3, d4. split; [done |]. split; [done |]. split; [done |].
  intros k Hk. destruct (Hcam k Hk) as (q & Hq & _ & _ & Hpi & _).
  eexists. split.
  - unfold d4. simpl. rewrite lookup_app_l by lia.
    unfold ps. rewrite list_lookup_fmap, lookup_take_lt by lia.
    rewrite Hp3, Hq. done.
  - simpl. repeat split; (done || lia).
Qed.

Lemma camera_that_misses_the_tree_adds_black_witness :
  exists d',
    pathtrace source_config 1 1 (Scenes.unseen_walls 3) 0
      (pathtraceInit (Scenes.unseen_walls 3) Scenes.stale) = Ok d' /\
    dev_image d' = replicate 2 (splat fzero).
Proof.
  destruct (camera_that_misses_the_tree_adds_black source_config 0 0
              (Scenes.unseen_walls 3) 0
              (pathtraceInit (Scenes.unseen_walls 3) Scenes.stale)
              Scenes.unseen_root []) as (d' & Hrun & Himg).
  - reflexivity.
  - reflexivity.
  - reflexivity.
  - apply stable_partition_contract.
  - vm_compute. repeat split; congruence.
  - vm_compute. repeat split.
  - discriminate.
  - reflexivity.
  - intros r _. reflexivity.
  - exists d'. split; [done |]. rewrite Himg. reflexivity.
Defined.

(** ** The display kernel *)

Lemma clamp_byte (z : Z) :
  0 <= Display.clamp z 0 255 <= 255 /\
  Display.to_uchar (Display.clamp z 0 255) = Display.clamp z 0 255.
Proof.
  unfold Display.clamp, Display.to_uchar.
  assert (Hr : 0 <= Z.min (Z.max z 0) 255 <= 255) by lia.
  split; [done |]. apply Z.mod_small. lia.
Qed.

Lemma sendImageToPBO_thread_outside w h iter image x y pbo :
  w <= x \/ h <= y -> Display.sendImageToPBO_thread w h iter image x y pbo = Ok pbo.
Proof.
  intros Hout. unfold Display.sendImageToPBO_thread.
  destruct (Z.ltb_spec x w); destruct (Z.ltb_spec y h); simpl; try done; lia.
Qed.

(** For a resolution that fits an int and buffers with room for the
    image, the display kernel does not fault and writes one texel per
    pixel: the clamp keeps every channel in 0..255, so the conversion to
    unsigned char does not wrap, and the fourth byte is 0.  The slots of
    the buffer past the image are untouched. *)
Theorem display_kernel_writes_a_byte_triple_per_pixel
    (pbo : list Display.uchar4) (w h iter : Z) (image : list (vec3 float)) :
  0 < w < 2 ^ 31 -> 0 < h < 2 ^ 31 -> w * h < 2 ^ 31 ->
  w * h <= Z.of_nat (length image) -> w * h <= Z.of_nat (length pbo) ->
  exists pbo',
    Display.sendImageToPBO pbo w h iter image = Ok pbo' /\
    length pbo' = length pbo /\
    (forall x y pix,
        0 <= x < w -> 0 <= y < h -> image !! Z.to_nat (x + y * w) = Some pix ->
        exists b,
          pbo' !! Z.to_nat (x + y * w) = Some b /\
          Display.u_x b = Display.channel (vx pix) iter /\
          Display.u_y b = Display.channel (vy pix) iter /\
          Display.u_z b = Display.channel (vz pix) iter /\
          Display.u_w b = 0 /\
          0 <= Display.u_x b <= 255 /\ 0 <= Display.u_y b <= 255 /\
          0 <= Display.u_z b <= 255) /\
    (forall k : nat, w * h <= Z.of_nat k -> pbo' !! k = pbo !! k).
Proof.
  intros Hw Hh Hwh Himg Hpbo.
  set (v := fun x y : Z =>
              match image !! Z.to_nat (x + y * w) with
              | Some pix => Display.texel pix iter
              | None => Display.texel (splat fzero) iter
              end).
  destruct (launch2d_pixels w h (Display.sendImageToPBO_thread w h iter image) v
              (length pbo) (threads2d w) (threads2d h) pbo)
    as (pbo' & Hrun & Hl & Hval & Hrest).
  - lia.
  - lia.
  - apply threads2d_ge. lia.
  - apply threads2d_ge. lia.
  - done.
  - done.
  - intros x y s1 Hx Hy Hl. unfold Display.sendImageToPBO_thread.
    destruct (Z.ltb_spec x w); [| lia]. destruct (Z.ltb_spec y h); [| lia]. simpl.
    assert (Hidx : 0 <= x + y * w < w * h) by nia.
    rewrite (wrap32_small (y * w)) by nia.
    rewrite (wrap32_small (x + y * w)) by lia.
    destruct (lookup_lt_is_Some_2 image (Z.to_nat (x + y * w))) as [pix Hpix]; [lia |].
    assert (Hrd : rd image (x + y * w) = Ok pix) by (apply rd_Ok; split; [lia | done]).
    rewrite Hrd. cbn [bind]. unfold v. rewrite Hpix.
    apply wr_Ok. split; [lia | done].
  - intros x y s1 Hout. apply sendImageToPBO_thread_outside. done.
  - exists pbo'. split; [done |]. split; [done |]. split; [| done].
    intros x y pix Hx Hy Hpix. eexists. split; [apply Hval; done |].
    unfold v. rewrite Hpix. unfold Display.texel. simpl.
    destruct (clamp_byte (Display.double_to_int
                (Display.times_255 (fdiv (vx pix) (f_of_int iter))))) as [Hrx Hex].
    destruct (clamp_byte (Display.double_to_int
                (Display.times_255 (fdiv (vy pix) (f_of_int iter))))) as [Hry Hey].
    destruct (clamp_byte (Display.double_to_int
                (Display.times_255 (fdiv (vz pix) (f_of_int iter))))) as [Hrz Hez].
    unfold Display.channel. rewrite Hex, Hey, Hez. repeat split; lia.
Qed.

Lemma display_kernel_writes_a_byte_triple_per_pixel_witness :
  exists pbo',
    Display.sendImageToPBO
      (replicate 2 {| Display.u_x := 7; Display.u_y := 7; Display.u_z := 7;
                      Display.u_w := 7 |}) 2 1 4 Scenes.two_pixels = Ok pbo' /\
    pbo' = [ {| Display.u_x := 127; Display.u_y := 127; Display.u_z := 127;
                Display.u_w := 0 |};
             {| Display.u_x := 255; Display.u_y := 255; Display.u_z := 255;
                Display.u_w := 0 |} ].
Proof.
  destruct (display_kernel_writes_a_byte_triple_per_pixel
              (replicate 2 {| Display.u_x := 7; Display.u_y := 7; Display.u_z := 7;
                              Display.u_w := 7 |}) 2 1 4 Scenes.two_pixels)
    as (pbo' & Hrun & _); [lia | lia | lia | simpl; lia | simpl; lia |].
  exists pbo'. split; [done |].
  vm_compute in Hrun. injection Hrun as <-. reflexivity.
Defined.

(** At iteration 0 the kernel divides by zero and still stores a byte: a
    positive accumulated value shows as 255, a zero, a negative value or a
    NaN as 0. *)
Theorem display_channel_at_iteration_zero (c : float) :
  Display.channel c 0 =
  match c with
  | S754_finite false _ _ | S754_infinity false => 255
  | _ => 0
  end.
Proof. destruct c as [s | s | | s m e]; try destruct s; reflexivity. Qed.

(** ** The seed of the random engine *)

Lemma wrap32_mod (z : Z) : wrap32 z mod 2 ^ 32 = z mod 2 ^ 32.
Proof.
  unfold wrap32.
  pose proof (Z.div_mod (z + 2 ^ 31) (2 ^ 32) ltac:(lia)) as Hdm.
  replace ((z + 2 ^ 31) mod 2 ^ 32 - 2 ^ 31)
    with (z + (- ((z + 2 ^ 31) / 2 ^ 32)) * 2 ^ 32) by lia.
  apply Z.mod_add. lia.
Qed.

Lemma wrap32_testbit (z n : Z) :
  0 <= n < 32 -> Z.testbit (wrap32 z) n = Z.testbit z n.
Proof.
  intros Hn.
  rewrite <- (Z.mod_pow2_bits_low (wrap32 z) 32 n) by lia.
  rewrite <- (Z.mod_pow2_bits_low z 32 n) by lia.
  rewrite wrap32_mod. done.
Qed.

(* the low 31 bits of depth << 22 see the low 9 bits of depth only *)
Lemma shifted_depth_testbit (depth n : Z) :
  0 <= n < 31 ->
  Z.testbit (wrap32 (Z.shiftl (depth + 512) 22)) n =
  Z.testbit (wrap32 (Z.shiftl depth 22)) n.
Proof.
  intros Hn. rewrite !wrap32_testbit by lia.
  rewrite !Z.shiftl_spec by lia.
  destruct (Z.lt_ge_cases n 22) as [Hlt|Hge].
  - rewrite !Z.testbit_neg_r by lia. done.
  - rewrite <- (Z.mod_pow2_bits_low (depth + 512) 9 (n - 22)) by lia.
    rewrite <- (Z.mod_pow2_bits_low depth 9 (n - 22)) by lia.
    replace (depth + 512) with (depth + 1 * 2 ^ 9) by lia.
    rewrite Z.mod_add by lia. done.
Qed.

(** The seed is built from (1 << 31) | (depth << 22) | iter: the depth and
    the iteration share the bits from 22 up, and only the low 9 bits of the
    depth take part.  So the engine of (iter, depth) is the engine of
    (iter | depth << 22, 0), iteration 2^22 at depth 0 draws what
    iteration 0 draws at depth 1, and depths that differ by 512 give the
    same engine. *)
Theorem seed_overlaps_depth_and_iteration {F : Type} `{Externals F}
    (iter index depth : Z) :
  makeSeededRandomEngine iter index depth =
  makeSeededRandomEngine (Z.lor iter (wrap32 (Z.shiftl depth 22))) index 0 /\
  makeSeededRandomEngine (2 ^ 22) index 0 = makeSeededRandomEngine 0 index 1 /\
  makeSeededRandomEngine iter index (depth + 512) =
  makeSeededRandomEngine iter index depth.
Proof.
  unfold makeSeededRandomEngine. split; [| split].
  - do 4 f_equal.
    rewrite Z.shiftl_0_l. change (wrap32 0) with 0. rewrite Z.lor_0_r.
    rewrite <- !Z.lor_assoc.
    rewrite (Z.lor_comm (wrap32 (Z.shiftl depth 22)) iter). done.
  - reflexivity.
  - do 5 f_equal.
    apply Z.bits_inj'. intros n Hn. rewrite !Z.lor_spec.
    destruct (Z.lt_ge_cases n 31) as [Hlt|Hge].
    + rewrite shifted_depth_testbit by lia. done.
    + assert (Hbit : Z.testbit (wrap32 (Z.shiftl 1 31)) n = true).
      { change (wrap32 (Z.shiftl 1 31)) with (Z.shiftl (-1) 31).
        rewrite Z.shiftl_spec by lia. apply Z.bits_m1. lia. }
      rewrite Hbit. done.
Qed.
